(** * rrnn: ancestral sampling from weighted automata, and trimming

    A shallow embedding of [rrnn/sampler.py] (class [Sampler]) and
    [rrnn/transformer.py] (class [Transformer]).

    Layout: Python values and exceptions; the float interface; dictionaries
    with insertion order; the automaton interface the two classes consume;
    [Transformer]; the sampling monad; [Sampler]; a rational instance to run
    the definitions; then the lemmas and the theorems. *)

From Stdlib Require Import ZArith QArith Qcanon String Lia.
From stdpp Require Import base tactics option list gmap strings pretty fin_maps fin_sets.

Set Warnings "-clear-no-such-hyp".

(** ** Exceptions and fallible results *)

(** The exceptions of Python that the two classes can meet, and
    [DegenerateDistributionError], which the specification names. *)
Inductive exn :=
| AssertionError | ZeroDivisionError | ValueError | KeyError
| IndexError | TypeError | OverflowError
| DegenerateDistributionError.

Global Instance exn_eq_dec : EqDecision exn.
Proof. solve_decision. Defined.

Inductive result (A : Type) :=
| Ok (a : A)
| Err (e : exn).
Arguments Ok {A} a.
Arguments Err {A} e.

Global Instance result_eq_dec {A : Type} `{EqDecision A} : EqDecision (result A).
Proof. solve_decision. Defined.

Global Instance result_ret : MRet result := λ A a, Ok a.
Global Instance result_bind : MBind result := λ A B f r,
  match r with Ok a => f a | Err e => Err e end.

(** ** States, symbols and the dynamically typed values of the sampler *)

(** Modelled from the spec: [rrnn.state.State], an opaque identifier, unique
    within an automaton.  The wrapped index is the identifier. *)
Record State := mkState { idx : Z }.

(** Modelled from the spec: [rrnn.symbol.Sym], an opaque token; [str] of a
    symbol is the wrapped text. *)
Record Sym := mkSym { sym : string }.

(** Modelled from the spec: the two reserved sentinels of [rrnn.symbol], the
    empty-prefix marker and the end-of-sequence marker. *)
Definition ε : Sym := mkSym "ε".
Definition EOS : Sym := mkSym "EOS".

Global Instance State_eq_dec : EqDecision State.
Proof. solve_decision. Defined.
Global Instance Sym_eq_dec : EqDecision Sym.
Proof. solve_decision. Defined.
Global Instance State_countable : Countable State :=
  inj_countable' idx mkState (λ q, match q with mkState _ => eq_refl end).
Global Instance Sym_countable : Countable Sym :=
  inj_countable' sym mkSym (λ a, match a with mkSym _ => eq_refl end).

(** The objects that flow through [Sampler._ancestral]: the keys of its
    [options] dictionary are pairs [(a, qʼ)] of a symbol and a state, and the
    pair of integers [(0, 0)].  An [int], a [Sym] and a [State] are objects of
    three different classes; [==] between two of them is equality of class
    and content. *)
Inductive pyobj :=
| PInt (n : Z)
| PSym (a : Sym)
| PState (q : State).

Global Instance pyobj_eq_dec : EqDecision pyobj.
Proof. solve_decision. Defined.

(** [x != y] *)
Definition py_ne (x y : pyobj) : bool := bool_decide (x ≠ y).

(** [str(x)] *)
Definition str (x : pyobj) : string :=
  match x with
  | PInt n => pretty n
  | PSym a => sym a
  | PState q => pretty (idx q)
  end.

(** ["".join(l)] *)
Definition join (l : list string) : string := foldr String.append EmptyString l.

(** ** Python floats

    The arithmetic of the sampler is [float] arithmetic.  It is kept abstract:
    the class lists the operations the code uses. *)
Inductive pow_result (num : Type) :=
| PowOk (x : num)
| PowZeroDivision          (* 0.0 to a negative power *)
| PowOverflow.             (* the result is out of range *)
Arguments PowOk {num} x.
Arguments PowZeroDivision {num}.
Arguments PowOverflow {num}.

Class PyFloat (num : Type) := {
  fzero : num;                    (* 0.0, also the [int] 0 that [sum] starts from *)
  fone : num;                     (* the literal 1 of [1 / self.T] *)
  fadd : num → num → num;         (* x + y *)
  fmul : num → num → num;         (* x * y, used to weigh draws only *)
  fquot : num → num → num;        (* x / y for a divisor that is not zero *)
  fis_zero : num → bool;          (* y == 0 *)
  fpos : num → bool;              (* x > 0 *)
  fpow : num → num → pow_result num;  (* x ** y *)
}.

Section Arith.
Context {num : Type} `{PyFloat num}.

(** [x / y]: Python raises on a zero divisor. *)
Definition pydiv (x y : num) : result num :=
  if fis_zero y then Err ZeroDivisionError else Ok (fquot x y).

(** [x ** y] *)
Definition pypow (x y : num) : result num :=
  match fpow x y with
  | PowOk z => Ok z
  | PowZeroDivision => Err ZeroDivisionError
  | PowOverflow => Err OverflowError
  end.

(** [sum(xs)] *)
Definition pysum (xs : list num) : num := foldl fadd fzero xs.
End Arith.

(** ** Dictionaries

    A [dict] keeps its keys in insertion order; assigning to a key that is
    present replaces the value in place. *)
Definition dict (K V : Type) : Type := list (K * V).

Section Dict.
Context {K V : Type} `{EqDecision K}.

(** [d[k] = v] *)
Fixpoint dict_set (k : K) (v : V) (d : dict K V) : dict K V :=
  match d with
  | [] => [(k, v)]
  | (k', v') :: d' =>
      if decide (k' = k) then (k', v) :: d' else (k', v') :: dict_set k v d'
  end.

(** [d.get(k)] *)
Fixpoint dict_get (k : K) (d : dict K V) : option V :=
  match d with
  | [] => None
  | (k', v') :: d' => if decide (k' = k) then Some v' else dict_get k d'
  end.

(** [d[k]] *)
Definition dict_item (k : K) (d : dict K V) : result V :=
  match dict_get k d with Some v => Ok v | None => Err KeyError end.

(** [list(d.keys())], [d.values()] *)
Definition keys (d : dict K V) : list K := d.*1.
Definition values (d : dict K V) : list V := d.*2.

(** [{key(x): val(x) for x in xs}], on top of the entries of [d]. *)
Fixpoint dict_comp_from {X : Type} (key : X → K) (val : X → result V)
    (xs : list X) (d : dict K V) : result (dict K V) :=
  match xs with
  | [] => Ok d
  | x :: xs' => v ← val x; dict_comp_from key val xs' (dict_set (key x) v d)
  end.

Definition dict_comp {X : Type} (key : X → K) (val : X → result V)
    (xs : list X) : result (dict K V) :=
  dict_comp_from key val xs [].
End Dict.

(** ** The automaton interface

    [rrnn.fsa.FSA], [rrnn.fst.FST] and [rrnn.semiring] are collaborators of
    the two classes; only the part of their interface that [Sampler] and
    [Transformer] call is modelled. *)

(** Modelled from the spec: the semiring tag of an automaton, of which the
    sampler only recognises the real semiring. *)
Inductive Semiring :=
| Real
| OtherSemiring (name : string).

Global Instance Semiring_eq_dec : EqDecision Semiring.
Proof. solve_decision. Defined.

(** Modelled from the spec: graph reachability by rounds.  One round adds the
    targets of the edges that leave the set; rounds are repeated until nothing
    new is found, which takes at most one round per edge. *)
Definition reach_step (es : list (State * State)) (S : gset State) : gset State :=
  S ∪ list_to_set
        (omap (λ '(i, j), if decide (i ∈ S) then Some j else None) es).

Fixpoint saturate (fuel : nat) (next : gset State → gset State)
    (S : gset State) : gset State :=
  match fuel with
  | O => S
  | Datatypes.S n =>
      let S' := next S in
      if decide (S' ⊆ S) then S else saturate n next S'
  end.

Definition closure (es : list (State * State)) (S : gset State) : gset State :=
  saturate (Datatypes.S (length es)) (reach_step es) S.

Module FSA.
Section Automaton.
Context {L : Type} `{Countable L} {num : Type} `{PyFloat num}.

(** Modelled from the spec: the storage of an automaton.  [delta] lists the
    arcs (source, label, destination, weight); [init] and [final] are the
    mappings from states to initial and final weights; [Q] and [Sigma] are
    the state set and the alphabet. *)
Record t := mk {
  R : Semiring;
  Q : gset State;
  Sigma : gset L;
  delta : list (State * L * State * num);
  init : gmap State num;
  final : gmap State num;
}.

(** Modelled from the spec: [F.I] and [F.F], the enumerations of the
    initial and of the final weights. *)
Definition I (M : t) : list (State * num) := map_to_list (init M).
Definition F (M : t) : list (State * num) := map_to_list (final M).

(** Modelled from the spec: the final states, with their weights.  The
    final weight of a state that is not final is zero: a state is final
    when its final weight is positive. *)
Definition final_states (M : t) : gmap State num :=
  filter (λ kv, fpos kv.2 = true) (final M).

(** Modelled from the spec: [F.arcs(i)], the outgoing arcs of [i]. *)
Definition arcs (M : t) (i : State) : list (L * State * num) :=
  omap (λ '(i', a, j, w), if decide (i' = i) then Some (a, j, w) else None)
       (delta M).

(** Modelled from the spec: [F.spawn()], an empty automaton of the same
    kind (and semiring). *)
Definition spawn (M : t) : t :=
  {| R := R M; Q := ∅; Sigma := ∅; delta := []; init := ∅; final := ∅ |}.

(** Modelled from the spec: [T.add_arc(i, a, j, w)]; the arc is stored and
    its end points and label become part of the automaton. *)
Definition add_arc (M : t) (i : State) (a : L) (j : State) (w : num) : t :=
  {| R := R M; Q := {[i; j]} ∪ Q M; Sigma := {[a]} ∪ Sigma M;
     delta := delta M ++ [(i, a, j, w)];
     init := init M; final := final M |}.

(** Modelled from the spec: [T.set_I(q, w)] and [T.set_F(q, w)]. *)
Definition set_I (M : t) (q : State) (w : num) : t :=
  {| R := R M; Q := {[q]} ∪ Q M; Sigma := Sigma M; delta := delta M;
     init := <[q := w]> (init M); final := final M |}.
Definition set_F (M : t) (q : State) (w : num) : t :=
  {| R := R M; Q := {[q]} ∪ Q M; Sigma := Sigma M; delta := delta M;
     init := init M; final := <[q := w]> (final M) |}.

(** The arcs as edges between states. *)
Definition edges (M : t) : list (State * State) :=
  (λ '(i, _, j, _), (i, j)) <$> delta M.

(** Modelled from the spec: [F.accessible()], the states reachable by
    following arcs forward from an initial state, and [F.coaccessible()],
    the states from which a final state is reachable: forward reachability
    from the final states on the reversed arcs. *)
Definition accessible (M : t) : gset State :=
  closure (edges M) (dom (init M)).
Definition coaccessible (M : t) : gset State :=
  closure (prod_swap <$> edges M) (dom (final_states M)).
End Automaton.
Arguments t L {_ _} num.
End FSA.

(** An automaton object is an [FSA]; some are instances of the subclass
    [FST], whose labels are pairs of an input and an output symbol. *)
Inductive machine (num : Type) :=
| AnFSA (M : FSA.t Sym num)
| AnFST (M : FSA.t (Sym * Sym) num).
Arguments AnFSA {num} M.
Arguments AnFST {num} M.

Section Machine.
Context {num : Type} `{PyFloat num}.

(** Method calls on an automaton object, whatever its class. *)
Definition accessible (F : machine num) : gset State :=
  match F with AnFSA M => FSA.accessible M | AnFST M => FSA.accessible M end.
Definition coaccessible (F : machine num) : gset State :=
  match F with AnFSA M => FSA.coaccessible M | AnFST M => FSA.coaccessible M end.
Definition spawn (F : machine num) : machine num :=
  match F with AnFSA M => AnFSA (FSA.spawn M) | AnFST M => AnFST (FSA.spawn M) end.
Definition set_I (T : machine num) (q : State) (w : num) : machine num :=
  match T with
  | AnFSA M => AnFSA (FSA.set_I M q w) | AnFST M => AnFST (FSA.set_I M q w)
  end.
Definition set_F (T : machine num) (q : State) (w : num) : machine num :=
  match T with
  | AnFSA M => AnFSA (FSA.set_F M q w) | AnFST M => AnFST (FSA.set_F M q w)
  end.
Definition machine_I (F : machine num) : list (State * num) :=
  match F with AnFSA M => FSA.I M | AnFST M => FSA.I M end.
Definition machine_F (F : machine num) : list (State * num) :=
  match F with AnFSA M => FSA.F M | AnFST M => FSA.F M end.

(** What an automaton object holds, with the label of an arc read as the
    list of its symbols: one for an FSA, two for an FST. *)
Definition states (F : machine num) : gset State :=
  match F with AnFSA M => FSA.Q M | AnFST M => FSA.Q M end.
Definition all_arcs (F : machine num) : list (State * list Sym * State * num) :=
  match F with
  | AnFSA M => (λ '(i, a, j, w), (i, [a], j, w)) <$> FSA.delta M
  | AnFST M => (λ '(i, (a, b), j, w), (i, [a; b], j, w)) <$> FSA.delta M
  end.
Definition initial (F : machine num) : gmap State num :=
  match F with AnFSA M => FSA.init M | AnFST M => FSA.init M end.
Definition finals (F : machine num) : gmap State num :=
  match F with AnFSA M => FSA.final M | AnFST M => FSA.final M end.
Definition final_states (F : machine num) : gmap State num :=
  match F with
  | AnFSA M => FSA.final_states M | AnFST M => FSA.final_states M
  end.
Definition is_FST (F : machine num) : bool :=
  match F with AnFSA _ => false | AnFST _ => true end.
End Machine.

(** ** [Transformer] *)

Module Transformer.
Section Trim.
Context {num : Type} `{PyFloat num}.

Definition _add_trim_arcs (F T : machine num) (AC : gset State)
    : result (machine num) :=
  match F, T with
  | AnFST F, AnFST T =>
      Ok (AnFST
        (foldl (λ T i,
           foldl (λ T '((a, b), j, w),
                    if decide (j ∈ AC) then FSA.add_arc T i (a, b) j w else T)
                 T (FSA.arcs F i))
         T (elements AC)))
  | AnFSA F, AnFSA T =>
      Ok (AnFSA
        (foldl (λ T i,
           foldl (λ T '(a, j, w),
                    if decide (j ∈ AC) then FSA.add_arc T i a j w else T)
                 T (FSA.arcs F i))
         T (elements AC)))
  | _, _ => Err TypeError   (* [add_arc] called with the other class's arguments *)
  end.

Definition trim (F : machine num) : result (machine num) :=
  (* compute accessible and co-accessible arcs *)
  let A := accessible F in
  let C := coaccessible F in
  let AC := A ∩ C in
  (* create a new F with only the pruned arcs *)
  let T := spawn F in
  T ← _add_trim_arcs F T AC;
  (* add initial state *)
  let T := foldl (λ T '(q, w), if decide (q ∈ AC) then set_I T q w else T)
                 T (machine_I F) in
  (* add final state *)
  let T := foldl (λ T '(q, w), if decide (q ∈ AC) then set_F T q w else T)
                 T (machine_F F) in
  Ok T.
End Trim.
End Transformer.

(** ** The sampling monad

    A computation of the sampler returns, raises, exhausts the budget of one
    of its [while] loops, or asks the generator for an index drawn with the
    probabilities [p] and goes on with it. *)
Section Prog.
Context {num : Type}.

Inductive prog (A : Type) : Type :=
| Ret (a : A)
| Raise (e : exn)
| Hang
| Choice (p : list num) (k : nat → prog A).
Global Arguments Ret {A} a.
Global Arguments Raise {A} e.
Global Arguments Hang {A}.
Global Arguments Choice {A} p k.

Fixpoint prog_bind {A B : Type} (f : A → prog B) (m : prog A) : prog B :=
  match m with
  | Ret a => f a
  | Raise e => Raise e
  | Hang => Hang
  | Choice p k => Choice p (λ i, prog_bind f (k i))
  end.

Global Instance prog_ret : MRet prog := λ A a, Ret a.
Global Instance prog_mbind : MBind prog := λ A B f m, prog_bind f m.

(** A fallible pure computation inside the sampler. *)
Definition lift {A : Type} (r : result A) : prog A :=
  match r with Ok a => Ret a | Err e => Raise e end.

(** [[m() for _ in range(n)]] *)
Fixpoint repeatM {A : Type} (n : nat) (m : prog A) : prog (list A) :=
  match n with
  | O => Ret []
  | S n' => x ← m; xs ← repeatM n' m; Ret (x :: xs)
  end.
End Prog.
Arguments prog num A : clear implicits.

(** [numpy.random.Generator]: [default_rng(seed)] and
    [rng.choice(len(p), p=p)], which returns an index and advances the
    generator, or raises [ValueError] ([None]). *)
Class Generator (num G : Type) := {
  default_rng : Z → G;
  choice : G → list num → option (nat * G);
}.

Section Run.
Context {num G : Type} `{PyFloat num} `{Generator num G}.

Inductive outcome (A : Type) : Type :=
| Returned (a : A) (g : G)
| Raised (e : exn)
| Hung.
Global Arguments Returned {A} a g.
Global Arguments Raised {A} e.
Global Arguments Hung {A}.

(** Running a computation on a generator. *)
Fixpoint run {A : Type} (m : prog num A) (g : G) : outcome A :=
  match m with
  | Ret a => Returned a g
  | Raise e => Raised e
  | Hang => Hung
  | Choice p k =>
      match choice g p with
      | Some (i, g') => run (k i) g'
      | None => Raised ValueError
      end
  end.

End Run.

(** ** The distribution of a computation *)
Section Expect.
Context {num : Type} `{PyFloat num}.

(** The sum of [p !! j * f (i + j)] over the indices [j] of [p]. *)
Fixpoint wsum (f : nat → num) (i : nat) (p : list num) : num :=
  match p with
  | [] => fzero
  | x :: p' => fadd (fmul x (f i)) (wsum f (S i) p')
  end.

(** The expectation of [k] on what a computation returns, when the generator
    draws index [i] with probability [p !! i]; a run that raises or does not
    end contributes nothing. *)
Fixpoint expect {A : Type} (k : A → num) (m : prog num A) : num :=
  match m with
  | Ret a => k a
  | Raise _ => fzero
  | Hang => fzero
  | Choice p c => wsum (λ i, expect k (c i)) 0 p
  end.

(** The probability with which a computation returns a value that [hit]
    accepts. *)
Definition weight {A : Type} (hit : A → bool) (m : prog num A) : num :=
  expect (λ a, if hit a then fone else fzero) m.

(** A number that is positive or zero. *)
Definition fnonneg (x : num) : Prop := fpos x = true ∨ x = fzero.

(** The sum of a list, and the sum of [F] over a dictionary of
    probabilities. *)
Definition fsum (l : list num) : num := foldr fadd fzero l.
Definition dsum {K : Type} (d : dict K num) (F : K → num) : num :=
  fsum ((λ kv, fmul kv.2 (F kv.1)) <$> d).
End Expect.

(** Arithmetic without rounding: an ordered semifield. *)
Class ExactFloat (num : Type) `{PyFloat num} : Prop := {
  exact_semiring : semi_ring_theory fzero fone fadd fmul eq;
  exact_quot : ∀ x z : num, fquot x z = fmul x (fquot fone z);
  exact_inverse : ∀ z : num, fis_zero z = false → fmul z (fquot fone z) = fone;
  exact_zero : ∀ x : num, fis_zero x = true ↔ x = fzero;
  exact_positive : ∀ x : num, fpos x = true → fis_zero x = false;
  exact_add_nonneg : ∀ x y : num, fnonneg x → fnonneg y → fnonneg (fadd x y);
  exact_add_zero : ∀ x y : num,
    fnonneg x → fnonneg y → fpos (fadd x y) = false → x = fzero ∧ y = fzero;
}.

(** ** [Sampler] *)

(** A sample is a sequence of symbols or their concatenation. *)
Inductive output :=
| Symbols (y : list pyobj)
| Text (s : string).

Global Instance output_eq_dec : EqDecision output.
Proof. solve_decision. Defined.

Module Sampler.
Section Sampler.
Context {num G : Type} `{PyFloat num} `{Generator num G}.

(** [fsa.push()] and [fsa.probabilistic], of the automaton class. *)
Variable push : FSA.t Sym num → FSA.t Sym num.
Variable probabilistic : FSA.t Sym num → bool.

Record t := mk {
  T : num;
  A : FSA.t Sym num;
  rng : G;
}.

(** [entropy] is the generator [default_rng(None)] obtains from the
    operating system. *)
Definition __init__ (fsa : FSA.t Sym num) (T : num) (seed : option Z)
    (entropy : G) : result t :=
  if decide (FSA.R fsa = Real) then
    Ok {| T := T;
          A := if negb (probabilistic fsa) then push fsa else fsa;
          rng := match seed with Some s => default_rng s | None => entropy end |}
  else Err AssertionError.

Definition _draw {K : Type} (options : dict K num) : prog num K :=
  let p := values options in
  let choices := keys options in
  Choice p (λ i, match choices !! i with
                 | Some c => Ret c
                 | None => Raise IndexError
                 end).

Definition _w (self : t) (w : num) : result num :=
  e ← pydiv fone (T self); pypow w e.

(** [self.A.ρ[q]]: zero for a state that is not final. *)
Definition ρ (self : t) (q : State) : num :=
  default fzero (FSA.final (A self) !! q).

(** [sum([self._w(w) for ... in xs])] *)
Definition scaled_sum (self : t) (ws : list num) : result num :=
  xs ← mapM (_w self) ws; Ok (pysum xs).

(** The [options] of one iteration of the loop of [_ancestral]. *)
Definition options_at (self : t) (q : State)
    : result (dict (pyobj * pyobj) num) :=
  s ← scaled_sum self ((λ '(_, _, w), w) <$> FSA.arcs (A self) q);
  r ← _w self (ρ self q);
  let Z := fadd s r in
  options ← dict_comp (λ '(a, qʼ, w), (PSym a, PState qʼ))
                      (λ '(a, qʼ, w), x ← _w self w; pydiv x Z)
                      (FSA.arcs (A self) q);
  x ← _w self (ρ self q);
  p ← pydiv x Z;
  Ok (dict_set (PInt 0, PInt 0) p options).

Fixpoint _ancestral_loop (fuel : nat) (self : t) (q : pyobj) (y : list pyobj)
    : prog num (list pyobj) :=
  if py_ne q (PInt 0) then
    match fuel with
    | O => Hang
    | S fuel' =>
        match q with
        | PState q =>
            options ← lift (options_at self q);
            '(a, q) ← _draw options;
            let y := if py_ne a (PInt 0) then y ++ [a] else y in
            _ancestral_loop fuel' self q y
        | _ => Raise TypeError   (* [arcs] of an object that is no state *)
        end
    end
  else Ret y.

Definition render (to_string : bool) (y : list pyobj) : output :=
  if negb to_string then Symbols y else Text (join (str <$> y)).

(** The initial distribution [{p: self._w(w) / Z for p, w in self.A.I}]. *)
Definition initial_dist (self : t) : result (dict State num) :=
  Z ← scaled_sum self (FSA.I (A self)).*2;
  dict_comp fst (λ '(p, w), x ← _w self w; pydiv x Z) (FSA.I (A self)).

Definition _ancestral (self : t) (to_string : bool) (fuel : nat)
    : prog num output :=
  let y := [] in
  d ← lift (initial_dist self);
  q ← _draw d;
  y ← _ancestral_loop fuel self (PState q) y;
  Ret (render to_string y).

(** [sum(self._w(w) for c, qʼʼ, w in self.A.arcs(q) if keep c qʼʼ)] *)
Definition mass (self : t) (q : State) (keep : Sym → State → bool)
    : result num :=
  scaled_sum self
    (omap (λ '(c, qʼʼ, w), if keep c qʼʼ then Some w else None)
          (FSA.arcs (A self) q)).

(** The scaled weight, where scaling succeeds, and the sums of the scaled
    weights of the arcs of [q] that [keep] selects. *)
Definition scaled (self : t) (w : num) : num :=
  match _w self w with Ok x => x | Err _ => fzero end.
Definition scaled_mass (self : t) (q : State) (keep : Sym → State → bool)
    : num :=
  pysum (scaled self
           <$> omap (λ '(c, qʼʼ, w), if keep c qʼʼ then Some w else None)
                    (FSA.arcs (A self) q)).

Definition Zq_at (self : t) (q : State) : result num :=
  s ← scaled_sum self ((λ '(_, _, w), w) <$> FSA.arcs (A self) q);
  r ← _w self (ρ self q);
  Ok (fadd s r).

Definition Zqa_at (self : t) (q : State) : result (dict Sym num) :=
  dict_comp id (λ b, mass self q (λ c _, bool_decide (c = b)))
            (elements (FSA.Sigma (A self))).

(** Marginal probabilities of next symbols given the current state *)
Definition pa_at (self : t) (q : State) (Zq : num) : result (dict Sym num) :=
  pa ← dict_comp id
         (λ b, m ← mass self q (λ c _, bool_decide (c = b)); pydiv m Zq)
         (elements (FSA.Sigma (A self)));
  x ← _w self (ρ self q);
  p ← pydiv x Zq;
  Ok (dict_set EOS p pa).

(** Conditional probabilities of states given the next symbol *)
Fixpoint pq_a_from (self : t) (q : State) (Zqa : dict Sym num)
    (bs : list Sym) (d : dict Sym (dict State num))
    : result (dict Sym (dict State num)) :=
  match bs with
  | [] => Ok d
  | b :: bs' =>
      z ← dict_item b Zqa;
      if fpos z then
        inner ← dict_comp id
                  (λ qʼ, m ← mass self q
                               (λ c qʼʼ, bool_decide (c = b)
                                         && bool_decide (qʼ = qʼʼ));
                         z ← dict_item b Zqa;
                         pydiv m z)
                  (elements (FSA.Q (A self)));
        pq_a_from self q Zqa bs' (dict_set b inner d)
      else pq_a_from self q Zqa bs' d
  end.

Definition pq_a_at (self : t) (q : State) (Zqa : dict Sym num)
    : result (dict Sym (dict State num)) :=
  pq_a_from self q Zqa (elements (FSA.Sigma (A self))) [].

(** What one iteration computes for the state [q] it drew: [pa] and the
    next [pq_a]. *)
Definition lm_tables (self : t) (q : State)
    : result (dict Sym num * dict Sym (dict State num)) :=
  Zq ← Zq_at self q;
  Zqa ← Zqa_at self q;
  pa ← pa_at self q Zq;
  pq_a ← pq_a_at self q Zqa;
  Ok (pa, pq_a).

Fixpoint _ancestral_lm_loop (fuel : nat) (self : t)
    (transform : list Sym → dict Sym num → dict Sym num)
    (pq_a : dict Sym (dict State num)) (a : Sym) (y : list Sym)
    : prog num (list Sym) :=
  if bool_decide (a ≠ EOS) then
    match fuel with
    | O => Hang
    | S fuel' =>
        pq_a ← lift (dict_item a pq_a);
        q ← _draw pq_a;
        tables ← lift (lm_tables self q);
        a ← _draw (transform y tables.1);
        _ancestral_lm_loop fuel' self transform tables.2 a (y ++ [a])
    end
  else Ret y.

Definition _ancestral_lm (self : t) (to_string : bool)
    (transform : list Sym → dict Sym num → dict Sym num) (fuel : nat)
    : prog num output :=
  (* Choose the initial state to start sampling from *)
  d ← lift (initial_dist self);
  let pq_a := [(ε, d)] in
  (* The generated string *)
  let a := ε in
  let y := [a] in
  y ← _ancestral_lm_loop fuel self transform pq_a a y;
  Ret (render to_string (PSym <$> y)).

(** [fuel] bounds the iterations of the loop of each sample. *)
Definition sample (self : t) (K : Z) (to_string : bool)
    (transform : list Sym → dict Sym num → dict Sym num) (lm : bool)
    (fuel : nat) : prog num (list output) :=
  if lm then repeatM (Z.to_nat K) (_ancestral_lm self to_string transform fuel)
  else repeatM (Z.to_nat K) (_ancestral self to_string fuel).
End Sampler.
End Sampler.

(** The exceptions that float arithmetic raises. *)
Definition arith_error (e : exn) : Prop :=
  e = ZeroDivisionError ∨ e = OverflowError.

(** ** The tables of the sampler, written out

    What [options_at] and [lm_tables] return at a state [q] whose normaliser
    [Z] is computed and is not zero. *)
Section TablesOf.
Context {num G : Type} `{PyFloat num}.
Implicit Types (self : @Sampler.t num G) (q : State).

Definition options_of self q (Z : num) : dict (pyobj * pyobj) num :=
  ((λ e, ((PSym e.1.1, PState e.1.2), fquot (Sampler.scaled self e.2) Z))
     <$> FSA.arcs (Sampler.A self) q)
  ++ [((PInt 0, PInt 0), fquot (Sampler.scaled self (Sampler.ρ self q)) Z)].

(** The scaled mass of the arcs of [q] labelled [b], and of those among
    them that lead to [qʼ]. *)
Definition Zqa_of self q (b : Sym) : num :=
  Sampler.scaled_mass self q (λ c _, bool_decide (c = b)).
Definition Zqaq_of self q (b : Sym) (qʼ : State) : num :=
  Sampler.scaled_mass self q
    (λ c qʼʼ, bool_decide (c = b) && bool_decide (qʼ = qʼʼ)).

Definition pa_of self q (Z : num) : dict Sym num :=
  ((λ b, (b, fquot (Zqa_of self q b) Z))
     <$> elements (FSA.Sigma (Sampler.A self)))
  ++ [(EOS, fquot (Sampler.scaled self (Sampler.ρ self q)) Z)].

Definition belief_of self q (b : Sym) : dict State num :=
  (λ qʼ, (qʼ, fquot (Zqaq_of self q b qʼ) (Zqa_of self q b)))
    <$> elements (FSA.Q (Sampler.A self)).

Definition pq_a_of self q : dict Sym (dict State num) :=
  (λ b, (b, belief_of self q b))
    <$> filter (λ b, fpos (Zqa_of self q b) = true)
               (elements (FSA.Sigma (Sampler.A self))).
End TablesOf.

(** ** The value of an iteration

    The expectation of [k] over the rest of a run of [_ancestral] that is at
    state [q] with [n] further iterations at hand, and over the rest of a run
    of [_ancestral_lm] that has just drawn the state [q]. *)
Section Values.
Context {num G : Type} `{PyFloat num}.
Implicit Types (self : @Sampler.t num G) (q : State).

Definition pl_value (k : list pyobj → num) (n : nat) self q
    (y : list pyobj) : num :=
  match Sampler.options_at self q with
  | Ok options =>
      dsum options
        (λ kq, expect k (Sampler._ancestral_loop n self kq.2
                           (if py_ne kq.1 (PInt 0) then y ++ [kq.1] else y)))
  | Err _ => fzero
  end.

Definition lm_value (k : list Sym → num) (n : nat) self
    (transform : list Sym → dict Sym num → dict Sym num) q
    (y : list Sym) : num :=
  match Sampler.lm_tables self q with
  | Ok tables =>
      dsum (transform y tables.1)
        (λ b, expect k (Sampler._ancestral_lm_loop n self transform tables.2 b
                          (y ++ [b])))
  | Err _ => fzero
  end.

(** What the automaton class maintains: the arcs that leave a state differ
    in symbol or destination, their symbols are in the alphabet and their
    destinations among the states, and the end-of-sequence marker is not in
    the alphabet; and the scaled weights are not negative. *)
Record well_formed self : Prop := {
  wf_arc_keys : ∀ q,
    NoDup ((λ e, (e.1.1, e.1.2)) <$> FSA.arcs (Sampler.A self) q);
  wf_arc_symbol : ∀ q e,
    e ∈ FSA.arcs (Sampler.A self) q → e.1.1 ∈ FSA.Sigma (Sampler.A self);
  wf_arc_state : ∀ q e,
    e ∈ FSA.arcs (Sampler.A self) q → e.1.2 ∈ FSA.Q (Sampler.A self);
  wf_EOS : EOS ∉ FSA.Sigma (Sampler.A self);
  wf_nonneg : ∀ q e,
    e ∈ FSA.arcs (Sampler.A self) q → fnonneg (Sampler.scaled self e.2);
}.
End Values.

(** ** Paths *)

(** [y] is reached from [x] along the edges [es]. *)
Definition path (es : list (State * State)) : relation State :=
  rtc (λ x y, (x, y) ∈ es).

(** ** Trimming, stated directly *)
Section Trimmed.
Context {L : Type} `{Countable L} {num : Type} `{PyFloat num}.

Definition arc_ends (e : State * L * State * num) : list State :=
  [e.1.1.1; e.1.2].
Definition arc_label (e : State * L * State * num) : L := e.1.1.2.

(** The automaton [T] after a list of arcs was added to it. *)
Definition with_arcs (T : FSA.t L num) (l : list (State * L * State * num))
    : FSA.t L num :=
  {| FSA.R := FSA.R T;
     FSA.Q := list_to_set (l ≫= arc_ends) ∪ FSA.Q T;
     FSA.Sigma := list_to_set (arc_label <$> l) ∪ FSA.Sigma T;
     FSA.delta := FSA.delta T ++ l;
     FSA.init := FSA.init T;
     FSA.final := FSA.final T |}.

(** The automaton [T] after the initial, respectively final, weights [m]
    were set on it. *)
Definition with_I (T : FSA.t L num) (m : gmap State num) : FSA.t L num :=
  {| FSA.R := FSA.R T;
     FSA.Q := dom m ∪ FSA.Q T;
     FSA.Sigma := FSA.Sigma T;
     FSA.delta := FSA.delta T;
     FSA.init := m ∪ FSA.init T;
     FSA.final := FSA.final T |}.
Definition with_F (T : FSA.t L num) (m : gmap State num) : FSA.t L num :=
  {| FSA.R := FSA.R T;
     FSA.Q := dom m ∪ FSA.Q T;
     FSA.Sigma := FSA.Sigma T;
     FSA.delta := FSA.delta T;
     FSA.init := FSA.init T;
     FSA.final := m ∪ FSA.final T |}.

(** The arcs of [M] that leave [i] and end inside [AC]. *)
Definition kept_from (M : FSA.t L num) (AC : gset State) (i : State)
    : list (State * L * State * num) :=
  (λ e, (i, e.1.1, e.1.2, e.2)) <$> filter (λ e, e.1.2 ∈ AC) (FSA.arcs M i).

(** The arcs of [M] between states of [AC], source by source. *)
Definition kept (M : FSA.t L num) (AC : gset State)
    : list (State * L * State * num) :=
  elements AC ≫= kept_from M AC.

Definition inside (AC : gset State) (kv : State * num) : Prop := kv.1 ∈ AC.
Global Instance inside_dec AC kv : Decision (inside AC kv).
Proof. unfold inside. apply _. Defined.

(** [M] restricted to the states of [AC]. *)
Definition restrict (M : FSA.t L num) (AC : gset State) : FSA.t L num :=
  {| FSA.R := FSA.R M;
     FSA.Q := list_to_set (kept M AC ≫= arc_ends)
              ∪ (dom (FSA.init M) ∩ AC) ∪ (dom (FSA.final M) ∩ AC);
     FSA.Sigma := list_to_set (arc_label <$> kept M AC);
     FSA.delta := kept M AC;
     FSA.init := filter (inside AC) (FSA.init M);
     FSA.final := filter (inside AC) (FSA.final M) |}.
End Trimmed.

Definition restrict_machine {num : Type} `{PyFloat num} (F : machine num)
    (AC : gset State)
    : machine num :=
  match F with
  | AnFSA M => AnFSA (restrict M AC)
  | AnFST M => AnFST (restrict M AC)
  end.

(** ** A rational instance, to run the definitions

    Rationals stand in for floats.  [x ** e] is exact for an exponent that is
    a natural number, which is what [1 / T] is at the temperatures 1, 1/2,
    1/3, ...; the examples use no other. *)
Definition Qc_pow (x e : Qc) : pow_result Qc :=
  PowOk (Qcpower x (Z.to_nat (Qnum e / Z.pos (Qden e)))).

Global Instance Qc_float : PyFloat Qc := {|
  fzero := 0%Qc;
  fone := 1%Qc;
  fadd := Qcplus;
  fmul := Qcmult;
  fquot := Qcdiv;
  fis_zero x := bool_decide (x = 0%Qc);
  fpos x := bool_decide (0 < x)%Qc;
  fpow := Qc_pow;
|}.

(** The default [transform] of [sample]: [lambda _, p: p]. *)
Definition identity_transform {num : Type} (_ : list Sym) (p : dict Sym num)
    : dict Sym num := p.

(** What the generator is relied on for: no draw from no candidates, and no
    draw of a candidate that has no positive probability. *)
Class GeneratorLaws (num G : Type) `{PyFloat num} `{Generator num G} : Prop := {
  choice_empty : ∀ g : G, choice g [] = None;
  choice_positive : ∀ (g g' : G) (p : list num) (i : nat),
    choice g p = Some (i, g') → ∃ x, p !! i = Some x ∧ fpos x = true;
}.

(** A generator for the examples: its state is a script of the draws to
    come, read as a number whose digits select, draw after draw, one of the
    indices of positive probability. *)
Definition positive_indices {num : Type} `{PyFloat num} (p : list num) : list nat :=
  omap (λ ix, if fpos ix.2 then Some ix.1 else None) (imap pair p).

Global Instance scripted_generator {num : Type} `{PyFloat num}
    : Generator num nat := {|
  default_rng s := Z.to_nat s;
  choice g p :=
    match positive_indices p with
    | [] => None
    | i :: cands =>
        Some (default i ((i :: cands) !! (g `mod` S (length cands))),
              g `div` S (length cands))
    end;
|}.

(** The automaton of the example of the specification: states 0, 1, 2,
    initial weight 1 on state 0, arcs 0 -a/0.6-> 1 and 0 -b/0.4-> 2, final
    weight 1 on state 1. *)
Definition example_fsa : FSA.t Sym Qc :=
  {| FSA.R := Real;
     FSA.Q := {[mkState 0; mkState 1; mkState 2]};
     FSA.Sigma := {[mkSym "a"; mkSym "b"]};
     FSA.delta := [(mkState 0, mkSym "a", mkState 1, Q2Qc (6 # 10));
                   (mkState 0, mkSym "b", mkState 2, Q2Qc (4 # 10))];
     FSA.init := {[mkState 0 := 1%Qc]};
     FSA.final := {[mkState 1 := 1%Qc]} |}.

(** What trimming leaves of it. *)
Definition example_trimmed : FSA.t Sym Qc :=
  {| FSA.R := Real;
     FSA.Q := {[mkState 0; mkState 1]};
     FSA.Sigma := {[mkSym "a"]};
     FSA.delta := [(mkState 0, mkSym "a", mkState 1, Q2Qc (6 # 10))];
     FSA.init := {[mkState 0 := 1%Qc]};
     FSA.final := {[mkState 1 := 1%Qc]} |}.

(** The same example with the final weight of its dead end stored, as the
    specification lists it: final weights 1 on state 1 and 0 on state 2. *)
Definition example_fsa_stored : FSA.t Sym Qc :=
  {| FSA.R := Real;
     FSA.Q := {[mkState 0; mkState 1; mkState 2]};
     FSA.Sigma := {[mkSym "a"; mkSym "b"]};
     FSA.delta := [(mkState 0, mkSym "a", mkState 1, Q2Qc (6 # 10));
                   (mkState 0, mkSym "b", mkState 2, Q2Qc (4 # 10))];
     FSA.init := {[mkState 0 := 1%Qc]};
     FSA.final := <[mkState 1 := 1%Qc]> {[mkState 2 := 0%Qc]} |}.

(** An automaton whose only stored final weight is zero: it has no final
    state. *)
Definition zero_final_fsa : FSA.t Sym Qc :=
  {| FSA.R := Real;
     FSA.Q := {[mkState 0]};
     FSA.Sigma := {[mkSym "a"]};
     FSA.delta := [(mkState 0, mkSym "a", mkState 0, 1%Qc)];
     FSA.init := {[mkState 0 := 1%Qc]};
     FSA.final := {[mkState 0 := 0%Qc]} |}.

(** An automaton whose only state has the identifier 0: initial weight 1,
    a loop 0 -a/0.5-> 0, final weight 0.5. *)
Definition loop_fsa : FSA.t Sym Qc :=
  {| FSA.R := Real;
     FSA.Q := {[mkState 0]};
     FSA.Sigma := {[mkSym "a"]};
     FSA.delta := [(mkState 0, mkSym "a", mkState 0, Q2Qc (1 # 2))];
     FSA.init := {[mkState 0 := 1%Qc]};
     FSA.final := {[mkState 0 := Q2Qc (1 # 2)]} |}.

(** A sampler on it, at temperature 1, with the scripted generator. *)
Definition loop_sampler (g : nat) : @Sampler.t Qc nat :=
  {| Sampler.T := 1%Qc; Sampler.A := loop_fsa; Sampler.rng := g |}.

(** Its [options] at state 0. *)
Definition loop_options : dict (pyobj * pyobj) Qc :=
  [((PSym (mkSym "a"), PState (mkState 0)), Q2Qc (1 # 2));
   ((PInt 0, PInt 0), Q2Qc (1 # 2))].

(** A sampler on the automaton of the example, at temperature 1/2. *)
Definition cold_sampler (g : nat) : @Sampler.t Qc nat :=
  {| Sampler.T := Q2Qc (1 # 2); Sampler.A := example_fsa; Sampler.rng := g |}.

(** The tables of the sampler at temperature 1/2 at state 0 of the example:
    its options in [_ancestral], and the next-symbol distribution and the
    beliefs in [_ancestral_lm]. *)
Definition cold_options : dict (pyobj * pyobj) Qc :=
  [((PSym (mkSym "a"), PState (mkState 1)), Q2Qc (9 # 13));
   ((PSym (mkSym "b"), PState (mkState 2)), Q2Qc (4 # 13));
   ((PInt 0, PInt 0), 0%Qc)].
Definition cold_pa : dict Sym Qc :=
  [(mkSym "a", Q2Qc (9 # 13)); (mkSym "b", Q2Qc (4 # 13)); (EOS, 0%Qc)].
Definition cold_pq : dict Sym (dict State Qc) :=
  [(mkSym "a", [(mkState 2, 0%Qc); (mkState 1, 1%Qc); (mkState 0, 0%Qc)]);
   (mkSym "b", [(mkState 2, 1%Qc); (mkState 1, 0%Qc); (mkState 0, 0%Qc)])].

(** An automaton without initial states, and one whose only state has no
    outgoing arc and no final weight. *)
Definition empty_fsa : FSA.t Sym Qc :=
  {| FSA.R := Real; FSA.Q := ∅; FSA.Sigma := ∅;
     FSA.delta := []; FSA.init := ∅; FSA.final := ∅ |}.
Definition dead_fsa : FSA.t Sym Qc :=
  {| FSA.R := Real; FSA.Q := {[mkState 0]}; FSA.Sigma := ∅;
     FSA.delta := []; FSA.init := {[mkState 0 := 1%Qc]}; FSA.final := ∅ |}.

Definition sampler_on (fsa : FSA.t Sym Qc) : @Sampler.t Qc nat :=
  {| Sampler.T := 1%Qc; Sampler.A := fsa; Sampler.rng := 0 |}.

(** The tables of the sampler on the one-state automaton at state 0: the
    next-symbol distribution and the belief map. *)
Definition loop_pa : dict Sym Qc :=
  [(mkSym "a", Q2Qc (1 # 2)); (EOS, Q2Qc (1 # 2))].
Definition loop_pq : dict Sym (dict State Qc) :=
  [(mkSym "a", [(mkState 0, 1%Qc)])].

(** A transform that moves the mass to a symbol without arcs. *)
Definition stray_transform (_ : list Sym) (_ : dict Sym Qc) : dict Sym Qc :=
  [(mkSym "b", 1%Qc)].

(** An empty automaton over another semiring. *)
Definition tropical_fsa : FSA.t Sym Qc :=
  {| FSA.R := OtherSemiring "Tropical"; FSA.Q := ∅; FSA.Sigma := ∅;
     FSA.delta := []; FSA.init := ∅; FSA.final := ∅ |}.

(** ** Vocabulary of the properties of [sample] *)

(** A sample that was returned as a symbol sequence, as the string that
    [to_string] asks for. *)
Definition to_text (out : output) : output :=
  match out with
  | Symbols y => Text (join (str <$> y))
  | Text s => Text s
  end.

(** An outcome with its value mapped, and an outcome followed by a run on
    the generator it left. *)
Definition outcome_map {G A B : Type} (f : A → B) (o : outcome (G:=G) A)
    : outcome (G:=G) B :=
  match o with
  | Returned a g => Returned (f a) g
  | Raised e => Raised e
  | Hung => Hung
  end.
Definition outcome_then {G A B : Type} (o : outcome (G:=G) A)
    (f : A → G → outcome (G:=G) B) : outcome (G:=G) B :=
  match o with
  | Returned a g => f a g
  | Raised e => Raised e
  | Hung => Hung
  end.

(** ** Vocabulary of the properties of the samples *)

(** [π] is a sequence of consecutive arcs of [M] that leads from [q] to
    [qʼ], each accepted by [ok] at its source. *)
Fixpoint walk {num : Type} (M : FSA.t Sym num)
    (ok : State → Sym * State * num → Prop) (q : State)
    (π : list (Sym * State * num)) (qʼ : State) : Prop :=
  match π with
  | [] => q = qʼ
  | e :: π' => e ∈ FSA.arcs M q ∧ ok q e ∧ walk M ok e.1.2 π' qʼ
  end.

(** The symbols along a sequence of arcs. *)
Definition labels {num : Type} (π : list (Sym * State * num)) : list Sym :=
  (λ e, e.1.1) <$> π.

Section StepProb.
Context {num G : Type} `{PyFloat num}.
Implicit Types (self : @Sampler.t num G) (q : State).

(** [self._w(w) / Z] for the normaliser [Z] of the state [q]: the
    probability that [_ancestral] gives at [q] to an arc, or to stopping,
    of raw weight [w]. *)
Definition step_prob self q (w : num) : result num :=
  Z ← Sampler.Zq_at self q; x ← Sampler._w self w; pydiv x Z.

(** That probability is computed and is positive. *)
Definition drawable self q (w : num) : Prop :=
  ∃ p, step_prob self q w = Ok p ∧ fpos p = true.
End StepProb.

(** A transform that is the identity on the prefixes that start with a
    symbol, and that empties the distribution on the empty prefix. *)
Definition nonempty_prefix_transform {num : Type} (y : list Sym)
    (p : dict Sym num) : dict Sym num :=
  match y with
  | [] => []
  | _ :: _ => p
  end.

(** A loop without a way out: initial weight 1 on state 0, a loop
    0 -a/1-> 0, no final weight. *)
Definition spin_fsa : FSA.t Sym Qc :=
  {| FSA.R := Real;
     FSA.Q := {[mkState 0]};
     FSA.Sigma := {[mkSym "a"]};
     FSA.delta := [(mkState 0, mkSym "a", mkState 0, 1%Qc)];
     FSA.init := {[mkState 0 := 1%Qc]};
     FSA.final := ∅ |}.

(** A sampler at temperature 0. *)
Definition frozen_sampler : @Sampler.t Qc nat :=
  {| Sampler.T := 0%Qc; Sampler.A := loop_fsa; Sampler.rng := 0 |}.

(** ** Vocabulary of the properties of [trim] *)
Section Accepting.
Context {num X : Type}.
Implicit Types (π : list (State * X * State * num)).

(** The two ends of an arc. *)
Definition ends (e : State * X * State * num) : State * State :=
  (e.1.1.1, e.1.2).

(** [π] is a sequence of arcs, each starting where the one before it ends,
    that leads from [q] to [qʼ]. *)
Fixpoint chain (q : State) π (qʼ : State) : Prop :=
  match π with
  | [] => q = qʼ
  | e :: π' => e.1.1.1 = q ∧ chain e.1.2 π' qʼ
  end.

(** [π] is a chain of arcs among [arcs] that leads from a state of [I0] to
    a state of [F0]. *)
Definition accepting_in (arcs : list (State * X * State * num))
    (I0 F0 : gset State) (q0 : State) π (qn : State) : Prop :=
  q0 ∈ I0 ∧ qn ∈ F0 ∧ chain q0 π qn ∧ ∀ e, e ∈ π → e ∈ arcs.
End Accepting.

(** An accepting path of an automaton: a chain of its arcs from an initial
    state to a final state. *)
Definition accepting {num : Type} `{PyFloat num} (F : machine num)
    (q0 : State)
    (π : list (State * list Sym * State * num)) (qn : State) : Prop :=
  accepting_in (all_arcs F) (dom (initial F)) (dom (final_states F)) q0 π qn.

(** ** The weight of the paths that spell a string *)
Section PathWeight.
Context {num G : Type} `{PyFloat num}.
Implicit Types (self : @Sampler.t num G) (q : State).

(** The probability that [_ancestral] gives, at the state [q], to an
    outcome of raw weight [w]; zero where it is not computed. *)
Definition step_weight self q (w : num) : num :=
  match step_prob self q w with Ok p => p | Err _ => fzero end.

(** The weight of the paths that leave [q], spell [t] and stop: the sum,
    over these paths, of the product of the probabilities of their arcs and
    of stopping at their end. *)
Fixpoint path_weight self q (t : list Sym) : num :=
  match t with
  | [] => step_weight self q (Sampler.ρ self q)
  | a :: t' =>
      fsum ((λ e, fmul (step_weight self q e.2) (path_weight self e.1.2 t'))
              <$> filter (λ e, e.1.1 = a) (FSA.arcs (Sampler.A self) q))
  end.
End PathWeight.

(* ================================================================== *)
(** * Lemmas and theorems *)

(** ** Sums of scaled weights *)
Section ScaledSums.
Context {num G : Type} `{PyFloat num}.
Implicit Types (self : @Sampler.t num G) (q : State).

(** The raw weights of the arcs of [q] that [keep] selects, in the order of
    the arcs. *)
Definition raw_weights self q (keep : Sym → State → bool) : list num :=
  omap (λ '(c, qʼʼ, w), if keep c qʼʼ then Some w else None)
       (FSA.arcs (Sampler.A self) q).

(** [Z] is what [sum] returns for the raw weights [ws], each scaled by
    [_w]. *)
Definition sum_of_scaled self (ws : list num) (Z : num) : Prop :=
  ∃ xs, Forall2 (λ w x, Sampler._w self w = Ok x) ws xs ∧ Z = pysum xs.
End ScaledSums.

(** ** Reachability by rounds computes reachability by paths *)

Lemma elem_of_reach_step es (S : gset State) y :
  y ∈ reach_step es S ↔ y ∈ S ∨ ∃ x, x ∈ S ∧ (x, y) ∈ es.
Proof.
  unfold reach_step.
  rewrite elem_of_union, elem_of_list_to_set, list_elem_of_omap.
  split; (intros [?|Hy]; [by left|right]).
  - destruct Hy as ([x y'] & Hin & Hf). case_decide; simplify_eq. eauto.
  - destruct Hy as (x & Hx & Hin). exists (x, y). split; [done|].
    by rewrite decide_True.
Qed.

Lemma reach_step_incl es (S : gset State) : S ⊆ reach_step es S.
Proof. intros x Hx. apply elem_of_reach_step. by left. Qed.

Lemma saturate_incl fuel es (S : gset State) :
  S ⊆ saturate fuel (reach_step es) S.
Proof.
  revert S. induction fuel as [|n IH]; intros S; simpl; [done|].
  case_decide; [done|].
  etrans; [apply (reach_step_incl es)|apply IH].
Qed.

Lemma saturate_sound fuel es (S0 S : gset State) y :
  (∀ x, x ∈ S → ∃ s, s ∈ S0 ∧ path es s x) →
  y ∈ saturate fuel (reach_step es) S → ∃ s, s ∈ S0 ∧ path es s y.
Proof.
  revert S. induction fuel as [|n IH]; intros S HS; simpl; [by apply HS|].
  case_decide; [by apply HS|].
  apply IH. intros x [Hx|(x' & Hx' & Hin)]%elem_of_reach_step; [by apply HS|].
  destruct (HS _ Hx') as (s & Hs & Hp). exists s. split; [done|].
  eapply rtc_r; [exact Hp|done].
Qed.

Lemma length_remove_dups_le {A} `{EqDecision A} (l : list A) :
  length (remove_dups l) ≤ length l.
Proof.
  induction l as [|x l IH]; simpl; [done|].
  case_decide; simpl; lia.
Qed.

Lemma size_targets_le (es : list (State * State)) (S : gset State) :
  size (list_to_set (C:=gset State) es.*2 ∖ S) ≤ length es.
Proof.
  etrans; [apply subseteq_size, subseteq_difference_l; reflexivity|].
  replace (list_to_set (C:=gset State) es.*2)
    with (list_to_set (C:=gset State) (remove_dups es.*2)).
  - rewrite size_list_to_set by apply NoDup_remove_dups.
    etrans; [apply length_remove_dups_le|]. by rewrite length_fmap.
  - apply set_eq. intros x.
    by rewrite !elem_of_list_to_set, elem_of_remove_dups.
Qed.

Lemma saturate_closed fuel es (S : gset State) :
  size (list_to_set (C:=gset State) es.*2 ∖ S) < fuel →
  reach_step es (saturate fuel (reach_step es) S)
    ⊆ saturate fuel (reach_step es) S.
Proof.
  revert S. induction fuel as [|n IH]; intros S Hsz; [lia|]. simpl.
  case_decide as Hstep; [done|].
  apply IH.
  destruct (set_choose_or_empty (reach_step es S ∖ S)) as [[y Hy]|Hempty];
    [|by apply empty_difference_subseteq in Hempty].
  apply elem_of_difference in Hy as [Hy HyS].
  assert (y ∈ list_to_set (C:=gset State) es.*2) as HyD.
  { apply elem_of_reach_step in Hy as [?|(x & _ & Hin)]; [done|].
    apply elem_of_list_to_set, list_elem_of_fmap. by exists (x, y). }
  pose proof (reach_step_incl es S) as Hincl.
  assert (list_to_set (C:=gset State) es.*2 ∖ reach_step es S
            ⊂ list_to_set es.*2 ∖ S) as Hlt%subset_size; [|lia].
  split.
  - intros x [Hx HxS]%elem_of_difference. apply elem_of_difference.
    split; [done|]. intros ?. apply HxS. by apply Hincl.
  - intros Hsub. specialize (Hsub y). rewrite !elem_of_difference in Hsub.
    destruct Hsub as [_ Hn]; [done|]. by apply Hn.
Qed.

Lemma elem_of_closure es (S : gset State) y :
  y ∈ closure es S ↔ ∃ s, s ∈ S ∧ path es s y.
Proof.
  unfold closure. split.
  - apply saturate_sound. intros x Hx. exists x. split; [done|]. apply rtc_refl.
  - intros (s & Hs & Hp). revert y Hp. apply rtc_ind_r.
    + by apply saturate_incl.
    + intros x y _ Hin IH.
      apply saturate_closed; [pose proof (size_targets_le es S); lia|].
      apply elem_of_reach_step. right. eauto.
Qed.

(** ** What the loops of [trim] build *)
Section TrimLoops.
Context {L : Type} `{Countable L} {num : Type} `{PyFloat num}.
Implicit Types (M T : FSA.t L num) (AC : gset State).

Lemma with_arcs_nil T : with_arcs T [] = T.
Proof.
  destruct T. unfold with_arcs. simpl. f_equal.
  - apply (left_id_L ∅ (∪)).
  - apply (left_id_L ∅ (∪)).
  - apply app_nil_r.
Qed.

Lemma with_arcs_app T l1 l2 :
  with_arcs (with_arcs T l1) l2 = with_arcs T (l1 ++ l2).
Proof.
  unfold with_arcs. simpl. f_equal.
  - rewrite bind_app, list_to_set_app_L. set_solver.
  - rewrite fmap_app, list_to_set_app_L. set_solver.
  - by rewrite app_assoc.
Qed.

Lemma add_arc_with_arcs T i a j w :
  FSA.add_arc T i a j w = with_arcs T [(i, a, j, w)].
Proof.
  unfold FSA.add_arc, with_arcs. simpl. f_equal; set_solver.
Qed.

Lemma add_from_with_arcs AC i f (l : list (L * State * num)) T :
  (∀ T a j w, f T (a, j, w)
              = if decide (j ∈ AC) then FSA.add_arc T i a j w else T) →
  foldl f T l
  = with_arcs T ((λ e, (i, e.1.1, e.1.2, e.2)) <$> filter (λ e, e.1.2 ∈ AC) l).
Proof.
  intros Hf. revert T. induction l as [|[[a j] w] l IH]; intros T; simpl.
  { by rewrite with_arcs_nil. }
  rewrite IH, Hf, filter_cons. simpl. case_decide; [|done].
  by rewrite add_arc_with_arcs, with_arcs_app.
Qed.

Lemma add_trim_arcs_with_arcs M AC f (srcs : list State) T :
  (∀ i T a j w, f i T (a, j, w)
                = if decide (j ∈ AC) then FSA.add_arc T i a j w else T) →
  foldl (λ T i, foldl (f i) T (FSA.arcs M i)) T srcs
  = with_arcs T (srcs ≫= kept_from M AC).
Proof.
  intros Hf. revert T. induction srcs as [|i srcs IH]; intros T; simpl.
  { by rewrite with_arcs_nil. }
  rewrite IH, (add_from_with_arcs AC i) by apply Hf.
  by rewrite with_arcs_app.
Qed.

Lemma with_I_empty T : with_I T ∅ = T.
Proof.
  destruct T. unfold with_I. simpl. f_equal.
  - rewrite dom_empty_L. apply (left_id_L ∅ (∪)).
  - apply (left_id_L ∅ (∪)).
Qed.

Lemma with_F_empty T : with_F T ∅ = T.
Proof.
  destruct T. unfold with_F. simpl. f_equal.
  - rewrite dom_empty_L. apply (left_id_L ∅ (∪)).
  - apply (left_id_L ∅ (∪)).
Qed.

Lemma set_I_fold AC (l : list (State * num)) T :
  NoDup l.*1 →
  foldl (λ T '(q, w), if decide (q ∈ AC) then FSA.set_I T q w else T) T l
  = with_I T (list_to_map (filter (inside AC) l)).
Proof.
  revert T. induction l as [|[q w] l IH]; intros T Hnd.
  { cbn. by rewrite with_I_empty. }
  rewrite fmap_cons in Hnd. apply NoDup_cons in Hnd as [Hq Hnd].
  cbn [foldl]. rewrite IH by done. rewrite filter_cons.
  destruct (decide (q ∈ AC)) as [HqAC|HqAC];
    [rewrite decide_True by done|by rewrite decide_False by done].
  cbn [fst] in Hq.
  assert ((list_to_map (filter (inside AC) l) : gmap State num) !! q = None)
    as Hnone.
  { apply not_elem_of_list_to_map_1. intros Hin. apply Hq.
    apply list_elem_of_fmap in Hin as (kv & -> & Hkv).
    apply list_elem_of_filter in Hkv as [_ Hkv].
    apply list_elem_of_fmap. eauto. }
  unfold with_I, FSA.set_I. simpl. f_equal.
  - rewrite dom_insert_L. set_solver.
  - by rewrite <-insert_union_r, insert_union_l.
Qed.

Lemma set_F_fold AC (l : list (State * num)) T :
  NoDup l.*1 →
  foldl (λ T '(q, w), if decide (q ∈ AC) then FSA.set_F T q w else T) T l
  = with_F T (list_to_map (filter (inside AC) l)).
Proof.
  revert T. induction l as [|[q w] l IH]; intros T Hnd.
  { cbn. by rewrite with_F_empty. }
  rewrite fmap_cons in Hnd. apply NoDup_cons in Hnd as [Hq Hnd].
  cbn [foldl]. rewrite IH by done. rewrite filter_cons.
  destruct (decide (q ∈ AC)) as [HqAC|HqAC];
    [rewrite decide_True by done|by rewrite decide_False by done].
  cbn [fst] in Hq.
  assert ((list_to_map (filter (inside AC) l) : gmap State num) !! q = None)
    as Hnone.
  { apply not_elem_of_list_to_map_1. intros Hin. apply Hq.
    apply list_elem_of_fmap in Hin as (kv & -> & Hkv).
    apply list_elem_of_filter in Hkv as [_ Hkv].
    apply list_elem_of_fmap. eauto. }
  unfold with_F, FSA.set_F. simpl. f_equal.
  - rewrite dom_insert_L. set_solver.
  - by rewrite <-insert_union_r, insert_union_l.
Qed.

Lemma dom_filter_inside AC (m : gmap State num) :
  dom (filter (inside AC) m) = dom m ∩ AC.
Proof.
  apply dom_filter_L. intros i. rewrite elem_of_intersection, elem_of_dom.
  unfold is_Some, inside. naive_solver.
Qed.

(** The three loops of [trim], run on a fresh automaton, build the
    restriction of [M] to [AC]. *)
Lemma trim_loops M AC f :
  (∀ i T a j w, f i T (a, j, w)
                = if decide (j ∈ AC) then FSA.add_arc T i a j w else T) →
  foldl (λ T '(q, w), if decide (q ∈ AC) then FSA.set_F T q w else T)
    (foldl (λ T '(q, w), if decide (q ∈ AC) then FSA.set_I T q w else T)
       (foldl (λ T i, foldl (f i) T (FSA.arcs M i)) (FSA.spawn M) (elements AC))
       (FSA.I M))
    (FSA.F M)
  = restrict M AC.
Proof.
  intros Hf.
  rewrite (add_trim_arcs_with_arcs M AC) by done.
  rewrite set_I_fold by apply NoDup_fst_map_to_list.
  rewrite set_F_fold by apply NoDup_fst_map_to_list.
  unfold FSA.I, FSA.F. rewrite <-!map_filter_alt.
  unfold restrict, with_F, with_I, with_arcs, FSA.spawn. simpl.
  rewrite !dom_filter_inside. f_equal.
  - set_solver.
  - apply (right_id_L ∅ (∪)).
  - apply (right_id_L ∅ (∪)).
  - apply (right_id_L ∅ (∪)).
Qed.
End TrimLoops.

Lemma foldl_wrap {X Y E : Type} (c : X → Y) (f : Y → E → Y) (g : X → E → X) :
  (∀ x e, f (c x) e = c (g x e)) →
  ∀ l x, foldl f (c x) l = c (foldl g x l).
Proof.
  intros Hfg l. induction l as [|e l IH]; intros x; simpl; [done|].
  by rewrite Hfg, IH.
Qed.

Section TrimResult.
Context {num : Type} `{PyFloat num}.

(** [trim] never fails, and builds the restriction of its input to the
    states that are accessible and co-accessible. *)
Lemma trim_restrict (F : machine num) :
  Transformer.trim F
  = Ok (restrict_machine F (accessible F ∩ coaccessible F)).
Proof.
  unfold Transformer.trim.
  generalize (accessible F ∩ coaccessible F). intros AC.
  destruct F as [M|M]; cbn.
  - f_equal.
    rewrite (foldl_wrap AnFSA _
      (λ T '(q, w), if decide (q ∈ AC) then FSA.set_I T q w else T))
      by (intros T [q w]; simpl; by case_decide).
    rewrite (foldl_wrap AnFSA _
      (λ T '(q, w), if decide (q ∈ AC) then FSA.set_F T q w else T))
      by (intros T [q w]; simpl; by case_decide).
    f_equal. apply (trim_loops M _ (λ i T e, _)). done.
  - f_equal.
    rewrite (foldl_wrap AnFST _
      (λ T '(q, w), if decide (q ∈ AC) then FSA.set_I T q w else T))
      by (intros T [q w]; simpl; by case_decide).
    rewrite (foldl_wrap AnFST _
      (λ T '(q, w), if decide (q ∈ AC) then FSA.set_F T q w else T))
      by (intros T [q w]; simpl; by case_decide).
    f_equal. apply (trim_loops M _ (λ i T e, _)).
    by intros i T [a b] j w.
Qed.
End TrimResult.

(** ** The arcs that [trim] keeps *)
Section Kept.
Context {L : Type} `{Countable L} {num : Type} `{PyFloat num}.
Implicit Types (M T : FSA.t L num) (AC : gset State)
  (e : State * L * State * num).

Lemma kept_from_filter M AC i :
  kept_from M AC i
  = filter (λ e, e.1.1.1 = i ∧ e.1.2 ∈ AC) (FSA.delta M).
Proof.
  unfold kept_from, FSA.arcs.
  induction (FSA.delta M) as [|[[[i' a] j] w] l IH]; [done|].
  cbn [omap list_omap]. rewrite (filter_cons (λ e, e.1.1.1 = i ∧ _)).
  cbn [fst snd]. destruct (decide (i' = i)) as [->|Hne].
  - rewrite filter_cons. cbn [fst snd].
    destruct (decide (j ∈ AC)).
    + rewrite decide_True by done. rewrite fmap_cons. cbn [fst snd].
      by rewrite IH.
    + rewrite decide_False by tauto. done.
  - rewrite decide_False by tauto. done.
Qed.

Lemma elem_of_kept M AC e :
  e ∈ kept M AC ↔ e ∈ FSA.delta M ∧ e.1.1.1 ∈ AC ∧ e.1.2 ∈ AC.
Proof.
  unfold kept. rewrite list_elem_of_bind. split.
  - intros (i & He & Hi). rewrite kept_from_filter in He.
    apply list_elem_of_filter in He as [[<- ?] ?].
    by apply elem_of_elements in Hi.
  - intros (He & Hsrc & Hdst). exists (e.1.1.1). split.
    + rewrite kept_from_filter. by apply list_elem_of_filter.
    + by apply elem_of_elements.
Qed.

Lemma filter_split_perm {X : Type} (P1 P2 P : X → Prop)
    `{!∀ x, Decision (P1 x), !∀ x, Decision (P2 x), !∀ x, Decision (P x)}
    (l : list X) :
  (∀ x, P x ↔ P1 x ∨ P2 x) → (∀ x, P1 x → P2 x → False) →
  filter P l ≡ₚ filter P1 l ++ filter P2 l.
Proof.
  intros HP Hdisj. induction l as [|x l IH]; [done|].
  rewrite !filter_cons.
  destruct (decide (P1 x)) as [Hx1|Hx1], (decide (P2 x)) as [Hx2|Hx2].
  - by destruct (Hdisj x).
  - rewrite decide_True by (apply HP; by left). simpl. by rewrite IH.
  - rewrite decide_True by (apply HP; by right).
    rewrite <-Permutation_middle. by rewrite IH.
  - rewrite decide_False by (rewrite HP; tauto). done.
Qed.

Lemma bind_filter_perm (P : State * L * State * num → Prop)
    `{!∀ x, Decision (P x)} (srcs : list State)
    (l : list (State * L * State * num)) :
  NoDup srcs →
  srcs ≫= (λ i, filter (λ e, e.1.1.1 = i ∧ P e) l)
  ≡ₚ filter (λ e, e.1.1.1 ∈ srcs ∧ P e) l.
Proof.
  induction 1 as [|i srcs Hi Hnd IH].
  - simpl. symmetry. apply Permutation_nil_r.
    induction l as [|x l IHl]; [done|].
    rewrite filter_cons_False; [done|]. rewrite elem_of_nil. tauto.
  - rewrite bind_cons, IH. symmetry. apply filter_split_perm.
    + intros e. rewrite elem_of_cons. naive_solver.
    + intros e [-> _] [? _]. done.
Qed.

(** The kept arcs are the arcs between states of [AC], each as often as
    it occurs. *)
Lemma kept_perm M AC :
  kept M AC ≡ₚ filter (λ e, e.1.1.1 ∈ AC ∧ e.1.2 ∈ AC) (FSA.delta M).
Proof.
  unfold kept.
  rewrite (list_bind_ext _
    (λ i, filter (λ e, e.1.1.1 = i ∧ e.1.2 ∈ AC) (FSA.delta M))
    _ (elements AC)); [|apply kept_from_filter|done].
  rewrite (bind_filter_perm (λ e, e.1.2 ∈ AC)) by apply NoDup_elements.
  apply reflexive_eq, list_filter_iff. intros e.
  by rewrite elem_of_elements.
Qed.
End Kept.

(** ** The states that [trim] keeps *)

Lemma rtc_flip {X : Type} (R R' : relation X) x y :
  (∀ a b, R a b → R' b a) → rtc R x y → rtc R' y x.
Proof.
  intros HR. induction 1 as [x|x z y Hxz _ IH]; [apply rtc_refl|].
  eapply rtc_r; [exact IH|by apply HR].
Qed.

Lemma path_swap es x y : path (prod_swap <$> es) x y ↔ path es y x.
Proof.
  unfold path. split; apply rtc_flip; intros a b Hab.
  - apply list_elem_of_fmap in Hab as ([b' a'] & [= -> ->] & Hin). done.
  - apply list_elem_of_fmap. by exists (a, b).
Qed.

(** A path between a state that an initial state reaches and a state that
    reaches a final state runs through such states only. *)
Lemma path_inside es es' (I0 F0 AC : gset State) :
  (∀ x, x ∈ AC ↔ (∃ p, p ∈ I0 ∧ path es p x) ∧ (∃ f, f ∈ F0 ∧ path es x f)) →
  (∀ i j, (i, j) ∈ es' ↔ (i, j) ∈ es ∧ i ∈ AC ∧ j ∈ AC) →
  ∀ x y, path es x y →
    (∃ p, p ∈ I0 ∧ path es p x) → (∃ f, f ∈ F0 ∧ path es y f) →
    path es' x y.
Proof.
  intros HAC Hes' x y Hxy.
  induction Hxy as [x|x z y Hxz Hzy IH]; intros Hacc Hco; [apply rtc_refl|].
  destruct Hacc as (p & Hp & Hpx), Hco as (f & Hf & Hyf).
  assert (path es z f) as Hzf by (by etrans).
  assert (path es p z) as Hpz by (eapply rtc_r; done).
  eapply rtc_l; [|apply IH; eauto].
  apply Hes'. split; [done|]. split; apply HAC; split; eauto.
  exists f. split; [done|]. eapply rtc_l; done.
Qed.

Section TrimStates.
Context {L : Type} `{Countable L} {num : Type} `{PyFloat num}.
Implicit Types (M T : FSA.t L num) (AC : gset State).

Lemma elem_of_edges M i j :
  (i, j) ∈ FSA.edges M ↔ ∃ a w, (i, a, j, w) ∈ FSA.delta M.
Proof.
  unfold FSA.edges. rewrite list_elem_of_fmap. split.
  - intros ([[[i' a] j'] w] & [= -> ->] & Hin). eauto.
  - intros (a & w & Hin). by exists (i, a, j, w).
Qed.

Lemma elem_of_accessible M q :
  q ∈ FSA.accessible M
  ↔ ∃ p, p ∈ dom (FSA.init M) ∧ path (FSA.edges M) p q.
Proof. apply elem_of_closure. Qed.

Lemma elem_of_coaccessible M q :
  q ∈ FSA.coaccessible M
  ↔ ∃ f, f ∈ dom (FSA.final_states M) ∧ path (FSA.edges M) q f.
Proof.
  unfold FSA.coaccessible. rewrite elem_of_closure.
  by setoid_rewrite path_swap.
Qed.

Lemma elem_of_AC M x :
  x ∈ FSA.accessible M ∩ FSA.coaccessible M
  ↔ (∃ p, p ∈ dom (FSA.init M) ∧ path (FSA.edges M) p x)
    ∧ (∃ f, f ∈ dom (FSA.final_states M) ∧ path (FSA.edges M) x f).
Proof.
  by rewrite elem_of_intersection, elem_of_accessible, elem_of_coaccessible.
Qed.

(** A final state is a state whose final weight is stored and positive. *)
Lemma elem_of_final_states M f :
  f ∈ dom (FSA.final_states M)
  ↔ ∃ w, FSA.final M !! f = Some w ∧ fpos w = true.
Proof.
  unfold FSA.final_states. rewrite elem_of_dom. unfold is_Some.
  by setoid_rewrite map_lookup_filter_Some.
Qed.

(** The final states of a restriction are the final states inside it. *)
Lemma final_states_restrict M AC :
  FSA.final_states (restrict M AC) = filter (inside AC) (FSA.final_states M).
Proof.
  unfold FSA.final_states, restrict. cbn [FSA.final].
  apply map_filter_comm.
Qed.

Lemma elem_of_edges_restrict M AC i j :
  (i, j) ∈ FSA.edges (restrict M AC)
  ↔ (i, j) ∈ FSA.edges M ∧ i ∈ AC ∧ j ∈ AC.
Proof.
  rewrite !elem_of_edges. unfold restrict. cbn [FSA.delta].
  setoid_rewrite elem_of_kept. naive_solver.
Qed.

(** The states of the restriction to [accessible ∩ coaccessible] are
    exactly these states: each of them is initial, or the target of an arc
    that is kept. *)
Lemma restrict_states M :
  FSA.Q (restrict M (FSA.accessible M ∩ FSA.coaccessible M))
  = FSA.accessible M ∩ FSA.coaccessible M.
Proof.
  set (AC := FSA.accessible M ∩ FSA.coaccessible M).
  apply set_eq. intros q. unfold restrict. cbn [FSA.Q].
  rewrite !elem_of_union, elem_of_list_to_set, list_elem_of_bind. split.
  - intros [[(e & Hq & He)|Hq]|Hq].
    + apply elem_of_kept in He as (_ & Hsrc & Hdst).
      unfold arc_ends in Hq. set_solver.
    + set_solver.
    + set_solver.
  - intros Hq. pose proof Hq as [(p & Hp & Hpq) Hco]%elem_of_AC.
    apply rtc_inv_r in Hpq as [->|(r & Hpr & Hrq)].
    { left. right. by apply elem_of_intersection. }
    left. left. pose proof Hrq as (a & w & Hin)%elem_of_edges.
    exists (r, a, q, w). split; [unfold arc_ends; set_solver|].
    apply elem_of_kept. split; [done|]. split; [|done]. cbn.
    apply elem_of_AC. split; [eauto|].
    destruct Hco as (f & Hf & Hqf). exists f. split; [done|].
    eapply rtc_l; done.
Qed.

(** Restricting twice to the same states is restricting once. *)
Lemma filter_none {X : Type} (P : X → Prop) `{!∀ x, Decision (P x)}
    (l : list X) :
  (∀ x, x ∈ l → ¬ P x) → filter P l = [].
Proof.
  induction l as [|x l IH]; intros Hl; [done|].
  rewrite filter_cons_False by (apply Hl; left).
  apply IH. intros y Hy. apply Hl. by right.
Qed.

Lemma bind_ext_elem {X Y : Type} (f g : X → list Y) (l : list X) :
  (∀ x, x ∈ l → f x = g x) → l ≫= f = l ≫= g.
Proof.
  induction l as [|x l IH]; intros Hfg; [done|].
  rewrite !bind_cons, IH, (Hfg x); [done|by left|].
  intros y Hy. apply Hfg. by right.
Qed.

Lemma filter_chunks AC (l : list (State * L * State * num)) srcs i :
  NoDup srcs →
  filter (λ e, e.1.1.1 = i ∧ e.1.2 ∈ AC)
         (srcs ≫= (λ i', filter (λ e, e.1.1.1 = i' ∧ e.1.2 ∈ AC) l))
  = if decide (i ∈ srcs)
    then filter (λ e, e.1.1.1 = i ∧ e.1.2 ∈ AC) l else [].
Proof.
  induction 1 as [|i' srcs Hi' Hnd IH].
  { by rewrite decide_False by apply not_elem_of_nil. }
  rewrite bind_cons, filter_app, IH, list_filter_filter.
  destruct (decide (i = i')) as [->|Hne].
  - rewrite (decide_True (P:=i' ∈ i' :: srcs)) by left.
    rewrite (decide_False (P:=i' ∈ srcs)) by done.
    rewrite app_nil_r. apply list_filter_iff. tauto.
  - rewrite filter_none by (intros e _ [[-> _] [? _]]; done).
    destruct (decide (i ∈ srcs)) as [Hin|Hin].
    + by rewrite decide_True by (by right).
    + rewrite decide_False; [done|]. rewrite elem_of_cons. tauto.
Qed.

Lemma kept_restrict M AC : kept (restrict M AC) AC = kept M AC.
Proof.
  unfold kept at 1 2. apply bind_ext_elem. intros i Hi.
  rewrite !kept_from_filter. unfold restrict at 1. cbn [FSA.delta].
  unfold kept.
  rewrite (bind_ext_elem _
    (λ i', filter (λ e, e.1.1.1 = i' ∧ e.1.2 ∈ AC) (FSA.delta M)))
    by (intros; apply kept_from_filter).
  rewrite filter_chunks by apply NoDup_elements.
  by rewrite decide_True.
Qed.

Lemma restrict_idemp M AC : restrict (restrict M AC) AC = restrict M AC.
Proof.
  unfold restrict at 1. rewrite kept_restrict.
  unfold restrict. cbn [FSA.R FSA.init FSA.final]. f_equal.
  - rewrite !dom_filter_inside. set_solver.
  - rewrite map_filter_filter. apply map_filter_ext. unfold inside. tauto.
  - rewrite map_filter_filter. apply map_filter_ext. unfold inside. tauto.
Qed.

(** The restriction has the accessible and co-accessible states of [M]
    as its accessible states, and as its co-accessible states. *)
Lemma accessible_restrict M :
  let AC := FSA.accessible M ∩ FSA.coaccessible M in
  FSA.accessible (restrict M AC) = AC.
Proof.
  intros AC. apply set_eq. intros q. rewrite elem_of_accessible. split.
  - intros (p & Hp & Hpq). unfold restrict in Hp. cbn [FSA.init] in Hp.
    rewrite dom_filter_inside in Hp. apply elem_of_intersection in Hp as [_ Hp].
    apply rtc_inv_r in Hpq as [->|(r & _ & Hrq)]; [done|].
    by apply elem_of_edges_restrict in Hrq as (_ & _ & ?).
  - intros Hq. pose proof Hq as [(p & Hp & Hpq) Hco]%elem_of_AC.
    assert (∃ p0, p0 ∈ dom (FSA.init M) ∧ path (FSA.edges M) p0 p) as Hpacc.
    { exists p. split; [done|apply rtc_refl]. }
    exists p. split.
    + unfold restrict. cbn [FSA.init]. rewrite dom_filter_inside.
      apply elem_of_intersection. split; [done|].
      apply elem_of_AC. split; [done|].
      destruct Hco as (f & Hf & Hqf). exists f. split; [done|]. by etrans.
    + eapply (path_inside (FSA.edges M)); [apply elem_of_AC| |done..].
      apply elem_of_edges_restrict.
Qed.

Lemma coaccessible_restrict M :
  let AC := FSA.accessible M ∩ FSA.coaccessible M in
  FSA.coaccessible (restrict M AC) = AC.
Proof.
  intros AC. apply set_eq. intros q. rewrite elem_of_coaccessible. split.
  - intros (f & Hf & Hqf). rewrite final_states_restrict in Hf.
    rewrite dom_filter_inside in Hf. apply elem_of_intersection in Hf as [_ Hf].
    apply rtc_inv in Hqf as [->|(r & Hqr & _)]; [done|].
    by apply elem_of_edges_restrict in Hqr as (_ & ? & _).
  - intros Hq. pose proof Hq as [Hacc (f & Hf & Hqf)]%elem_of_AC.
    assert (∃ f0, f0 ∈ dom (FSA.final_states M) ∧ path (FSA.edges M) f f0)
      as Hfco.
    { exists f. split; [done|apply rtc_refl]. }
    exists f. split.
    + rewrite final_states_restrict, dom_filter_inside.
      apply elem_of_intersection. split; [done|].
      apply elem_of_AC. split; [|done].
      destruct Hacc as (p & Hp & Hpq). exists p. split; [done|]. by etrans.
    + eapply (path_inside (FSA.edges M)); [apply elem_of_AC| |done..].
      apply elem_of_edges_restrict.
Qed.
End TrimStates.

(** ** [Transformer.trim] *)

Lemma filter_fmap_comm {X Y : Type} (g : X → Y) (P : Y → Prop)
    `{!∀ y, Decision (P y)} (l : list X) :
  filter P (g <$> l) = g <$> filter (λ x, P (g x)) l.
Proof.
  induction l as [|x l IH]; [done|].
  rewrite fmap_cons, !filter_cons. case_decide; [|done].
  by rewrite fmap_cons, IH.
Qed.

(** *** The kept states, for an automaton of either class *)
Section Useful.
Context {num : Type} `{PyFloat num}.
Implicit Types (F : machine num).

Lemma edges_all_arcs F :
  ends <$> all_arcs F
  = match F with AnFSA M => FSA.edges M | AnFST M => FSA.edges M end.
Proof.
  destruct F as [M|M]; unfold FSA.edges; cbn [all_arcs];
    rewrite <-list_fmap_compose; apply list_fmap_ext.
  - by intros ? [[[i a] j] w] _.
  - by intros ? [[[i [a b]] j] w] _.
Qed.

Lemma elem_of_useful F x :
  x ∈ accessible F ∩ coaccessible F
  ↔ (∃ p, p ∈ dom (initial F) ∧ path (ends <$> all_arcs F) p x)
    ∧ ∃ f, f ∈ dom (final_states F) ∧ path (ends <$> all_arcs F) x f.
Proof.
  rewrite edges_all_arcs. destruct F as [M|M]; apply elem_of_AC.
Qed.

Lemma elem_of_machine_final_states F f :
  f ∈ dom (final_states F) ↔ ∃ w, finals F !! f = Some w ∧ fpos w = true.
Proof. destruct F as [M|M]; apply elem_of_final_states. Qed.
End Useful.

(** C2.  For every automaton, [trim] returns without error an automaton of
    the same class.  Its states are exactly the accessible and co-accessible
    states, which are the states on a path of arcs from an initial state to
    a final state, one whose final weight is positive.  Its arcs are exactly
    the input arcs between such states, with symbols and weight unchanged
    (each as often as in the input), and its initial and final weights are
    the input's, restricted to these states. *)
Theorem trim_exact {num : Type} `{PyFloat num} (F : machine num) :
  let AC := accessible F ∩ coaccessible F in
  (∀ q, q ∈ AC ↔
        (∃ p, p ∈ dom (initial F) ∧ path (ends <$> all_arcs F) p q)
        ∧ ∃ f w, finals F !! f = Some w ∧ fpos w = true
                 ∧ path (ends <$> all_arcs F) q f)
  ∧ ∃ T, Transformer.trim F = Ok T
       ∧ is_FST T = is_FST F
       ∧ states T = AC
       ∧ all_arcs T ≡ₚ filter (λ e, e.1.1.1 ∈ AC ∧ e.1.2 ∈ AC) (all_arcs F)
       ∧ initial T = filter (inside AC) (initial F)
       ∧ finals T = filter (inside AC) (finals F).
Proof.
  intros AC. split.
  { intros q. subst AC. rewrite elem_of_useful.
    setoid_rewrite elem_of_machine_final_states. naive_solver. }
  exists (restrict_machine F AC). split; [apply trim_restrict|].
  subst AC. destruct F as [M|M]; cbn [restrict_machine is_FST states all_arcs
    initial finals accessible coaccessible].
  - split; [done|]. split; [apply restrict_states|]. split; [|done].
    rewrite filter_fmap_comm. unfold restrict at 1. cbn [FSA.delta].
    rewrite kept_perm. apply reflexive_eq. f_equal.
    apply list_filter_iff. by intros [[[i a] j] w].
  - split; [done|]. split; [apply restrict_states|]. split; [|done].
    rewrite filter_fmap_comm. unfold restrict at 1. cbn [FSA.delta].
    rewrite kept_perm. apply reflexive_eq. f_equal.
    apply list_filter_iff. by intros [[[i [a b]] j] w].
Qed.

(** C9.  Trimming is idempotent: trimming the result of [trim] returns that
    very automaton, with the same states, arcs, initial and final weights. *)
Theorem trim_idempotent {num : Type} `{PyFloat num} (F : machine num) :
  ∃ T, Transformer.trim F = Ok T ∧ Transformer.trim T = Ok T.
Proof.
  exists (restrict_machine F (accessible F ∩ coaccessible F)).
  split; [apply trim_restrict|]. rewrite trim_restrict. f_equal.
  destruct F as [M|M]; cbn [restrict_machine accessible coaccessible].
  - rewrite accessible_restrict, coaccessible_restrict.
    rewrite (idemp_L (∩)). by rewrite restrict_idemp.
  - rewrite accessible_restrict, coaccessible_restrict.
    rewrite (idemp_L (∩)). by rewrite restrict_idemp.
Qed.

(** The example of the specification: trimming removes state 2 and its arc. *)
Example trim_example :
  Transformer.trim (AnFSA example_fsa) = Ok (AnFSA example_trimmed).
Proof. vm_compute. reflexivity. Qed.

(** The same with the final weight 0 of state 2 stored: state 2 is no final
    state, and it is removed with its arc. *)
Example trim_example_stored :
  Transformer.trim (AnFSA example_fsa_stored) = Ok (AnFSA example_trimmed).
Proof. vm_compute. reflexivity. Qed.

(** Trimming the trimmed example returns it unchanged. *)
Example trim_example_again :
  Transformer.trim (AnFSA example_trimmed) = Ok (AnFSA example_trimmed).
Proof. vm_compute. reflexivity. Qed.

(** ** Dictionaries *)

(** Inversion of a successful sequence of fallible steps. *)
Ltac result_inv :=
  repeat match goal with
  | H : mbind _ ?m = Ok _ |- _ =>
      let E := fresh "E" in destruct m eqn:E; simpl in H; [|discriminate H]
  | H : mret _ = Ok _ |- _ => injection H as H
  | H : Ok _ = Ok _ |- _ => injection H as H
  end.

Section DictLemmas.
Context {K V : Type} `{EqDecision K}.
Implicit Types (d : dict K V) (k : K) (v : V).

Lemma elem_of_dict_set k v d k' v' :
  (k', v') ∈ dict_set k v d → (k' = k ∧ v' = v) ∨ (k', v') ∈ d.
Proof.
  induction d as [|[k0 v0] d IH]; simpl.
  - intros [= -> ->]%list_elem_of_singleton. by left.
  - case_decide as Hk; subst.
    + intros [[= -> ->]|Hin]%elem_of_cons; [by left|]. right. by right.
    + intros [[= -> ->]|Hin]%elem_of_cons; [right; by left|].
      destruct (IH Hin) as [?|?]; [by left|]. right. by right.
Qed.

Lemma keys_dict_set k v d k' :
  k' ∈ keys (dict_set k v d) ↔ k' = k ∨ k' ∈ keys d.
Proof.
  unfold keys. induction d as [|[k0 v0] d IH]; simpl.
  - rewrite list_elem_of_singleton, elem_of_nil. tauto.
  - case_decide as Hk; subst; rewrite !fmap_cons, !elem_of_cons; simpl.
    + tauto.
    + rewrite IH. tauto.
Qed.

Lemma dict_set_fresh k v d : k ∉ keys d → dict_set k v d = d ++ [(k, v)].
Proof.
  unfold keys. induction d as [|[k0 v0] d IH]; simpl; [done|].
  rewrite not_elem_of_cons. intros [Hne Hk].
  rewrite decide_False by done. by rewrite IH.
Qed.

Lemma dict_get_elem k v d : dict_get k d = Some v → (k, v) ∈ d.
Proof.
  induction d as [|[k0 v0] d IH]; simpl; [done|].
  case_decide; subst.
  - intros [= ->]. by left.
  - intros ?. right. by apply IH.
Qed.

Lemma dict_get_keys k d : is_Some (dict_get k d) ↔ k ∈ keys d.
Proof.
  unfold keys. induction d as [|[k0 v0] d IH]; simpl.
  - rewrite elem_of_nil. split; [by intros [? ?]|done].
  - rewrite elem_of_cons. simpl. case_decide; subst.
    + split; [by left|by eexists].
    + rewrite IH. naive_solver.
Qed.

Lemma dict_comp_from_entries {X : Type} (key : X → K) (val : X → result V)
    xs d d' :
  dict_comp_from key val xs d = Ok d' →
  ∀ k v, (k, v) ∈ d' →
    (k, v) ∈ d ∨ ∃ x, x ∈ xs ∧ key x = k ∧ val x = Ok v.
Proof.
  revert d. induction xs as [|x xs IH]; intros d Hd k v Hin; simpl in Hd.
  - injection Hd as <-. by left.
  - result_inv. destruct (IH _ Hd k v Hin) as [Hset|(x' & ? & ? & ?)].
    + apply elem_of_dict_set in Hset as [[-> ->]|?]; [|by left].
      right. exists x. split; [left|done].
    + right. exists x'. split; [by right|done].
Qed.

Lemma dict_comp_from_keys {X : Type} (key : X → K) (val : X → result V)
    xs d d' :
  dict_comp_from key val xs d = Ok d' →
  ∀ k, k ∈ keys d' ↔ k ∈ keys d ∨ ∃ x, x ∈ xs ∧ key x = k.
Proof.
  revert d. induction xs as [|x xs IH]; intros d Hd k; simpl in Hd.
  - injection Hd as <-. split; [by left|].
    intros [?|(x & Hx & _)]; [done|]. by apply elem_of_nil in Hx.
  - result_inv. rewrite (IH _ Hd), keys_dict_set.
    setoid_rewrite elem_of_cons. naive_solver.
Qed.
End DictLemmas.

(** ** The distributions of [Sampler._ancestral] *)
Section Distributions.
Context {num G : Type} `{PyFloat num}.
Implicit Types (self : @Sampler.t num G) (q : State).

Lemma mapM_Ok {X Y : Type} (f : X → result Y) l ys :
  mapM f l = Ok ys → Forall2 (λ x y, f x = Ok y) l ys.
Proof.
  revert ys. induction l as [|x l IH]; intros ys Hl; simpl in Hl.
  - injection Hl as <-. constructor.
  - result_inv. subst. constructor; [done|by apply IH].
Qed.

Lemma pydiv_Ok (x y z : num) :
  pydiv x y = Ok z ↔ fis_zero y = false ∧ z = fquot x y.
Proof. unfold pydiv. destruct (fis_zero y); naive_solver. Qed.

(** Every entry of the initial distribution is the scaled weight of an
    initial state over the sum of the scaled initial weights. *)
Lemma initial_dist_entries self d :
  Sampler.initial_dist self = Ok d →
  ∃ Z, Sampler.scaled_sum self (FSA.I (Sampler.A self)).*2 = Ok Z
     ∧ ∀ p v, (p, v) ∈ d →
         ∃ w x, (p, w) ∈ FSA.I (Sampler.A self)
              ∧ Sampler._w self w = Ok x ∧ fis_zero Z = false
              ∧ v = fquot x Z.
Proof.
  unfold Sampler.initial_dist. intros Hd.
  destruct (Sampler.scaled_sum self _) as [Z|] eqn:HZ; [|done]. simpl in Hd.
  exists Z. split; [done|]. intros p v Hin.
  destruct (dict_comp_from_entries _ _ _ _ _ Hd p v Hin)
    as [[]%elem_of_nil|([p' w] & Hx & Hk & Hv)].
  simpl in Hk, Hv. subst p'.
  destruct (Sampler._w self w) as [x|] eqn:Hw; [|done]. simpl in Hv.
  apply pydiv_Ok in Hv as [? ->]. eauto 10.
Qed.

(** The [options] of a state: one entry per outgoing arc, its scaled weight
    over [Z], then the stop pair with the scaled final weight over [Z]. *)
Lemma options_at_entries self q options :
  Sampler.options_at self q = Ok options →
  ∃ Z xρ opts,
    Sampler.Zq_at self q = Ok Z ∧ fis_zero Z = false
    ∧ Sampler._w self (Sampler.ρ self q) = Ok xρ
    ∧ options = opts ++ [((PInt 0, PInt 0), fquot xρ Z)]
    ∧ (∀ k v, (k, v) ∈ opts →
         ∃ a qʼ w x, (a, qʼ, w) ∈ FSA.arcs (Sampler.A self) q
                   ∧ k = (PSym a, PState qʼ)
                   ∧ Sampler._w self w = Ok x ∧ v = fquot x Z)
    ∧ (∀ a qʼ w, (a, qʼ, w) ∈ FSA.arcs (Sampler.A self) q →
         (PSym a, PState qʼ) ∈ keys opts).
Proof.
  unfold Sampler.options_at, Sampler.Zq_at. intros Ho.
  destruct (Sampler.scaled_sum self _) as [s|] eqn:Hs; [|done].
  simpl in *.
  destruct (Sampler._w self (Sampler.ρ self q)) as [r|] eqn:Hr; [|done].
  simpl in *.
  destruct (dict_comp _ _ _) as [opts|] eqn:Hcomp; [|done]. simpl in *.
  destruct (pydiv r (fadd s r)) as [p|] eqn:Hp; [|done]. simpl in Ho.
  injection Ho as <-. apply pydiv_Ok in Hp as [HZ ->].
  exists (fadd s r), r, opts.
  split; [done|]. split; [done|]. split; [done|].
  assert (∀ k v, (k, v) ∈ opts →
    ∃ a qʼ w x, (a, qʼ, w) ∈ FSA.arcs (Sampler.A self) q
              ∧ k = (PSym a, PState qʼ)
              ∧ Sampler._w self w = Ok x ∧ v = fquot x (fadd s r)) as Hent.
  { intros k v Hin.
    destruct (dict_comp_from_entries _ _ _ _ _ Hcomp k v Hin)
      as [[]%elem_of_nil|([[b qʼ] w] & Hx & Hk & Hv)].
    simpl in Hk, Hv.
    destruct (Sampler._w self w) as [x|] eqn:Hw; [|done]. simpl in Hv.
    apply pydiv_Ok in Hv as [_ ->]. eauto 10. }
  split; [|split; [exact Hent|]].
  - apply dict_set_fresh. intros Hk. unfold keys in Hk.
    apply list_elem_of_fmap in Hk as ([k v] & Hk & Hin). simpl in Hk.
    destruct (Hent _ _ Hin) as (? & ? & ? & ? & _ & Heq & _). congruence.
  - intros b qʼ w Hin.
    apply (dict_comp_from_keys _ _ _ _ _ Hcomp). right.
    by exists (b, qʼ, w).
Qed.
End Distributions.

(** ** [Sampler.__init__] *)

(** C6.  Construction fails with an [AssertionError] whenever the semiring
    of the automaton is not the real semiring; otherwise the sampler works
    on [push] of the automaton when the automaton is not probabilistic, and
    on the automaton itself, unchanged, when it is. *)
Theorem init_semiring_push {num G : Type} `{Generator num G}
    (push : FSA.t Sym num → FSA.t Sym num)
    (probabilistic : FSA.t Sym num → bool)
    (fsa : FSA.t Sym num) (T : num) (seed : option Z) (entropy : G) :
  (FSA.R fsa ≠ Real →
     Sampler.__init__ push probabilistic fsa T seed entropy
     = Err AssertionError)
  ∧ (FSA.R fsa = Real → probabilistic fsa = false →
       ∃ self, Sampler.__init__ push probabilistic fsa T seed entropy = Ok self
             ∧ Sampler.A self = push fsa ∧ Sampler.T self = T)
  ∧ (FSA.R fsa = Real → probabilistic fsa = true →
       ∃ self, Sampler.__init__ push probabilistic fsa T seed entropy = Ok self
             ∧ Sampler.A self = fsa ∧ Sampler.T self = T).
Proof.
  unfold Sampler.__init__. repeat split.
  - intros HR. by rewrite decide_False.
  - intros HR Hp. rewrite decide_True, Hp by done. eauto.
  - intros HR Hp. rewrite decide_True, Hp by done. eauto.
Qed.

Lemma init_semiring_push_witness :
  (FSA.R tropical_fsa ≠ Real
   ∧ Sampler.__init__ (G:=nat) FSA.spawn (λ _, false) tropical_fsa 1%Qc (Some 0%Z) 0
     = Err AssertionError)
  ∧ (FSA.R loop_fsa = Real
     ∧ ∃ self, Sampler.__init__ (G:=nat) FSA.spawn (λ _, false) loop_fsa 1%Qc
                 (Some 0%Z) 0 = Ok self
             ∧ Sampler.A self = FSA.spawn loop_fsa ∧ Sampler.T self = 1%Qc)
  ∧ (FSA.R loop_fsa = Real
     ∧ ∃ self, Sampler.__init__ (G:=nat) FSA.spawn (λ _, true) loop_fsa 1%Qc
                 (Some 0%Z) 0 = Ok self
             ∧ Sampler.A self = loop_fsa ∧ Sampler.T self = 1%Qc).
Proof.
  split; [|split].
  - assert (FSA.R tropical_fsa ≠ Real) as HR by discriminate.
    split; [exact HR|].
    exact (proj1 (init_semiring_push FSA.spawn (λ _, false) tropical_fsa 1%Qc
                    (Some 0%Z) 0) HR).
  - split; [reflexivity|].
    exact (proj1 (proj2 (init_semiring_push FSA.spawn (λ _, false) loop_fsa
                           1%Qc (Some 0%Z) 0)) eq_refl eq_refl).
  - split; [reflexivity|].
    exact (proj2 (proj2 (init_semiring_push FSA.spawn (λ _, true) loop_fsa
                           1%Qc (Some 0%Z) 0)) eq_refl eq_refl).
Defined.

(** ** The loop of [Sampler._ancestral] *)
Section Ancestral.
Context {num G : Type} `{PyFloat num} `{Generator num G}.
Implicit Types (self : @Sampler.t num G) (q : State) (y : list pyobj).

Lemma ancestral_loop_stop fuel self y :
  Sampler._ancestral_loop fuel self (PInt 0) y = Ret y.
Proof. by destruct fuel. Qed.

Lemma run_ancestral_loop fuel self q y (g : G) :
  run (Sampler._ancestral_loop (S fuel) self (PState q) y) g
  = match Sampler.options_at self q with
    | Err e => Raised e
    | Ok options =>
        match choice g (values options) with
        | None => Raised ValueError
        | Some (i, g') =>
            match keys options !! i with
            | None => Raised IndexError
            | Some (a, qʼ) =>
                run (Sampler._ancestral_loop fuel self qʼ
                       (if py_ne a (PInt 0) then y ++ [a] else y)) g'
            end
        end
    end.
Proof.
  simpl. destruct (Sampler.options_at self q) as [options|e]; [|done].
  simpl. destruct (choice g (values options)) as [[i g']|]; [|done].
  by destruct (keys options !! i) as [[a qʼ]|].
Qed.

(** C1.  At a state [q], whatever its identifier, the loop of plain
    ancestral sampling builds the distribution [options] whose keys are the
    (symbol, destination) pairs of the outgoing arcs and the stop pair, each
    with its scaled weight over [Z], the sum of the scaled arc weights plus
    the scaled final weight.  On a draw of the stop pair the loop ends with
    the output unchanged; on any other draw the symbol is appended and the
    loop goes on at the destination, where it does not end without a further
    draw. *)
Theorem ancestral_step self q y fuel options :
  Sampler.options_at self q = Ok options →
  ∃ Z,
    Sampler.Zq_at self q = Ok Z
    ∧ (∀ k, k ∈ keys options ↔
         k = (PInt 0, PInt 0)
         ∨ ∃ a qʼ w, (a, qʼ, w) ∈ FSA.arcs (Sampler.A self) q
                    ∧ k = (PSym a, PState qʼ))
    ∧ (∀ k v, (k, v) ∈ options →
         (k = (PInt 0, PInt 0)
          ∧ ∃ x, Sampler._w self (Sampler.ρ self q) = Ok x ∧ v = fquot x Z)
         ∨ (∃ a qʼ w x, (a, qʼ, w) ∈ FSA.arcs (Sampler.A self) q
                       ∧ k = (PSym a, PState qʼ)
                       ∧ Sampler._w self w = Ok x ∧ v = fquot x Z))
    ∧ (∀ (g g' : G) i k,
         choice g (values options) = Some (i, g') →
         keys options !! i = Some k →
         if decide (k = (PInt 0, PInt 0))
         then run (Sampler._ancestral_loop (S fuel) self (PState q) y) g
              = Returned y g'
         else ∃ a qʼ, k = (PSym a, PState qʼ)
              ∧ run (Sampler._ancestral_loop (S fuel) self (PState q) y) g
                = run (Sampler._ancestral_loop fuel self (PState qʼ)
                         (y ++ [PSym a])) g')
    ∧ (∀ n qʼ yʼ z, Sampler._ancestral_loop n self (PState qʼ) yʼ ≠ Ret z).
Proof.
  intros Ho.
  destruct (options_at_entries _ _ _ Ho)
    as (Z & xρ & opts & HZ & HZnz & Hρ & -> & Hent & Hkeys).
  exists Z. split; [done|].
  assert (∀ k, k ∈ keys (opts ++ [((PInt 0, PInt 0), fquot xρ Z)]) ↔
            k = (PInt 0, PInt 0)
            ∨ ∃ a qʼ w, (a, qʼ, w) ∈ FSA.arcs (Sampler.A self) q
                       ∧ k = (PSym a, PState qʼ)) as Hk.
  { intros k. unfold keys. rewrite fmap_app, elem_of_app. simpl.
    rewrite list_elem_of_singleton. split.
    - intros [Hin| ->]; [right|by left].
      apply list_elem_of_fmap in Hin as ([k' v] & -> & Hin).
      destruct (Hent _ _ Hin) as (a & qʼ & w & x & ? & ? & _). eauto.
    - intros [->|(a & qʼ & w & Hin & ->)]; [by right|left].
      by eapply Hkeys. }
  split; [exact Hk|]. split; [|split].
  - intros k v [Hin|[= -> ->]%list_elem_of_singleton]%elem_of_app.
    + right. by apply Hent.
    + left. eauto.
  - intros g g' i k Hc Hi. rewrite run_ancestral_loop, Ho, Hc, Hi.
    case_decide as Hstop.
    + subst k. simpl. by rewrite ancestral_loop_stop.
    + assert (k ∈ keys (opts ++ [((PInt 0, PInt 0), fquot xρ Z)])) as Hin.
      { eapply list_elem_of_lookup_2. done. }
      apply Hk in Hin as [?|(a & qʼ & w & _ & ->)]; [done|].
      exists a, qʼ. split; [done|]. done.
  - intros n qʼ yʼ z. destruct n as [|n]; [done|]. simpl.
    destruct (Sampler.options_at self qʼ); done.
Qed.
End Ancestral.

Lemma ancestral_step_witness :
  Sampler.options_at (loop_sampler 0) (mkState 0) = Ok loop_options
  ∧ run (Sampler._ancestral_loop 2 (loop_sampler 0) (PState (mkState 0)) []) 2
    = run (Sampler._ancestral_loop 1 (loop_sampler 0) (PState (mkState 0))
             [PSym (mkSym "a")]) 1.
Proof.
  assert (Sampler.options_at (loop_sampler 0) (mkState 0) = Ok loop_options)
    as Ho by (vm_compute; reflexivity).
  split; [exact Ho|].
  destruct (ancestral_step (loop_sampler 0) (mkState 0) [] 1 loop_options Ho)
    as (Z & _ & _ & _ & Hstep & _).
  assert (choice 2 (values loop_options) = Some (0, 1)) as Hc
    by (vm_compute; reflexivity).
  specialize (Hstep 2 1 0 (PSym (mkSym "a"), PState (mkState 0)) Hc eq_refl).
  rewrite decide_False in Hstep by discriminate.
  destruct Hstep as (a & qʼ & Heq & Hrun). injection Heq as <- <-. exact Hrun.
Defined.

(** Sampling from the one-state automaton with the script 2: the arc into
    state 0 is drawn, then the stop pair. *)
Example ancestral_loop_example :
  run (Sampler._ancestral (loop_sampler 0) false 5) 2
  = Returned (Symbols [PSym (mkSym "a")]) 0.
Proof. vm_compute. reflexivity. Qed.

(** ** Temperature *)
Section Temperature.
Context {num G : Type} `{PyFloat num}.
Implicit Types (self : @Sampler.t num G) (q : State).

Lemma scaled_sum_Ok self ws Z :
  Sampler.scaled_sum self ws = Ok Z →
  ∃ xs, Forall2 (λ w x, Sampler._w self w = Ok x) ws xs ∧ Z = pysum xs.
Proof.
  unfold Sampler.scaled_sum. intros HZ.
  destruct (mapM _ ws) as [xs|] eqn:Hxs; [|done]. injection HZ as <-.
  exists xs. split; [by apply mapM_Ok|done].
Qed.
End Temperature.

(** At temperature 1/2 the arc weights 0.6 and 0.4 of the example are
    squared before they are normalised: 0.36 / 0.52 and 0.16 / 0.52. *)
Example temperature_example :
  Sampler.options_at (cold_sampler 0) (mkState 0)
  = Ok [((PSym (mkSym "a"), PState (mkState 1)), Q2Qc (9 # 13));
        ((PSym (mkSym "b"), PState (mkState 2)), Q2Qc (4 # 13));
        ((PInt 0, PInt 0), 0%Qc)].
Proof. apply (bool_decide_unpack _). vm_compute. exact I. Qed.

(** ** The loop of [Sampler._ancestral_lm] *)
Section AncestralLM.
Context {num G : Type} `{PyFloat num} `{Generator num G}.
Implicit Types (self : @Sampler.t num G) (q : State) (y : list Sym)
  (transform : list Sym → dict Sym num → dict Sym num)
  (pq_a : dict Sym (dict State num)).

Lemma run_ancestral_lm_loop fuel self transform pq_a a y (g : G) :
  run (Sampler._ancestral_lm_loop (S fuel) self transform pq_a a y) g
  = if bool_decide (a ≠ EOS) then
      match dict_item a pq_a with
      | Err e => Raised e
      | Ok belief =>
          match choice g (values belief) with
          | None => Raised ValueError
          | Some (i, g1) =>
              match keys belief !! i with
              | None => Raised IndexError
              | Some q =>
                  match Sampler.lm_tables self q with
                  | Err e => Raised e
                  | Ok tables =>
                      match choice g1 (values (transform y tables.1)) with
                      | None => Raised ValueError
                      | Some (j, g2) =>
                          match keys (transform y tables.1) !! j with
                          | None => Raised IndexError
                          | Some b =>
                              run (Sampler._ancestral_lm_loop fuel self
                                     transform tables.2 b (y ++ [b])) g2
                          end
                      end
                  end
              end
          end
      end
    else Returned y g.
Proof.
  simpl. case_bool_decide; [|done].
  destruct (dict_item a pq_a) as [belief|e]; [|done]. simpl.
  destruct (choice g (values belief)) as [[i g1]|]; [|done].
  destruct (keys belief !! i) as [q|]; [|done]. simpl.
  destruct (Sampler.lm_tables self q) as [tables|e]; [|done]. simpl.
  destruct (choice g1 _) as [[j g2]|]; [|done].
  by destruct (keys _ !! j).
Qed.

Lemma run_ancestral_lm_loop_EOS fuel self transform pq_a y (g : G) :
  run (Sampler._ancestral_lm_loop fuel self transform pq_a EOS y) g
  = Returned y g.
Proof. by destruct fuel. Qed.

(** What the loop returns is its output so far, and, unless the loop starts
    on the end-of-sequence marker, further symbols of which that marker is
    the last. *)
Lemma ancestral_lm_loop_returns fuel self transform pq_a a y (g g' : G) y' :
  run (Sampler._ancestral_lm_loop fuel self transform pq_a a y) g
  = Returned y' g' →
  (a = EOS ∧ y' = y) ∨ ∃ z, y' = y ++ z ++ [EOS].
Proof.
  revert pq_a a y g. induction fuel as [|fuel IH]; intros pq_a a y g Hrun.
  { simpl in Hrun. case_bool_decide as Ha; [done|]. left.
    destruct (decide (a = EOS)); [|done]. by simplify_eq/=. }
  rewrite run_ancestral_lm_loop in Hrun.
  case_bool_decide as Ha.
  2:{ left. destruct (decide (a = EOS)); [|done]. by simplify_eq/=. }
  right.
  destruct (dict_item a pq_a) as [belief|e]; [|done].
  destruct (choice g (values belief)) as [[i g1]|]; [|done].
  destruct (keys belief !! i) as [q|]; [|done].
  destruct (Sampler.lm_tables self q) as [tables|e]; [|done].
  destruct (choice g1 _) as [[j g2]|]; [|done].
  destruct (keys _ !! j) as [b|]; [|done].
  apply IH in Hrun as [[-> ->]|[z ->]].
  - by exists [].
  - exists (b :: z). by rewrite <-app_assoc.
Qed.

Lemma run_prog_bind {A B : Type} (m : prog num A) (f : A → prog num B) (g : G) :
  run (prog_bind f m) g
  = match run m g with
    | Returned a g' => run (f a) g'
    | Raised e => Raised e
    | Hung => Hung
    end.
Proof.
  revert g. induction m as [a|e| |p k IH]; intros g; try done.
  simpl. destruct (choice g p) as [[i g']|]; [apply IH|done].
Qed.

Lemma run_bind {A B : Type} (m : prog num A) (f : A → prog num B) (g : G) :
  run (m ≫= f) g
  = match run m g with
    | Returned a g' => run (f a) g'
    | Raised e => Raised e
    | Hung => Hung
    end.
Proof. apply run_prog_bind. Qed.

Lemma run_lift_bind {A B : Type} (r : result A) (f : A → prog num B) (g : G) :
  run (lift r ≫= f) g
  = match r with Ok a => run (f a) g | Err e => Raised e end.
Proof. by destruct r. Qed.

(** C7, as the code has it.  Whenever autoregressive sampling returns, the
    sequence it returns is the internal output sequence as it is: it starts
    with the empty-prefix marker and ends with the end-of-sequence marker,
    as a symbol sequence and in the concatenated string alike. *)
Theorem ancestral_lm_returns_markers self to_string transform fuel
    (g g' : G) out :
  run (Sampler._ancestral_lm self to_string transform fuel) g
  = Returned out g' →
  ∃ z, out = Sampler.render to_string (PSym <$> (ε :: z ++ [EOS])).
Proof.
  unfold Sampler._ancestral_lm. intros Hrun.
  destruct (Sampler.initial_dist self) as [d|e]; [|done]. simpl in Hrun.
  rewrite run_bind in Hrun.
  destruct (run (Sampler._ancestral_lm_loop fuel self transform
                   [(ε, d)] ε [ε]) g) as [y' g''| |] eqn:Hloop; [|done..].
  simpl in Hrun. injection Hrun as <- <-.
  apply ancestral_lm_loop_returns in Hloop as [[[=] _]|[z ->]].
  by exists z.
Qed.
End AncestralLM.

Lemma ancestral_lm_returns_markers_witness :
  run (Sampler._ancestral_lm (loop_sampler 0) false identity_transform 5) 2
  = Returned (Symbols [PSym ε; PSym (mkSym "a"); PSym EOS]) 0
  ∧ ∃ z, Symbols [PSym ε; PSym (mkSym "a"); PSym EOS]
         = Sampler.render false (PSym <$> (ε :: z ++ [EOS])).
Proof.
  assert (run (Sampler._ancestral_lm (loop_sampler 0) false identity_transform 5)
              2
          = Returned (Symbols [PSym ε; PSym (mkSym "a"); PSym EOS]) 0) as Hrun
    by (vm_compute; reflexivity).
  split; [exact Hrun|].
  exact (ancestral_lm_returns_markers _ _ _ _ _ _ _ Hrun).
Defined.

(** The returned sequence holds the empty-prefix marker, and so does the
    returned string. *)
Lemma lm_output_keeps_marker :
  (∃ y g, run (Sampler._ancestral_lm (loop_sampler 0) false
                 identity_transform 5) 2 = Returned (Symbols y) g
          ∧ head y = Some (PSym ε))
  ∧ run (Sampler._ancestral_lm (loop_sampler 0) true identity_transform 5) 2
    = Returned (Text "εaEOS") 0.
Proof.
  split.
  - exists [PSym ε; PSym (mkSym "a"); PSym EOS], 0. split; [|done].
    vm_compute. reflexivity.
  - vm_compute. reflexivity.
Qed.

(** ** Which exceptions the tables of the sampler can raise *)
Section Errors.
Context {num G : Type} `{PyFloat num}.
Implicit Types (self : @Sampler.t num G) (q : State).

Lemma pydiv_Err (x y : num) e : pydiv x y = Err e → e = ZeroDivisionError.
Proof. unfold pydiv. destruct (fis_zero y); naive_solver. Qed.

Lemma pydiv_zero (x y : num) :
  fis_zero y = true → pydiv x y = Err ZeroDivisionError.
Proof. unfold pydiv. by intros ->. Qed.

Lemma pypow_Err (x y : num) e : pypow x y = Err e → arith_error e.
Proof. unfold pypow, arith_error. destruct (fpow x y); naive_solver. Qed.

Lemma w_Err self w e : Sampler._w self w = Err e → arith_error e.
Proof.
  unfold Sampler._w. destruct (pydiv fone _) as [x|e'] eqn:Hd; simpl.
  - apply pypow_Err.
  - intros [= ->]. apply pydiv_Err in Hd as ->. by left.
Qed.

Lemma mapM_Err {X Y : Type} (f : X → result Y) l e :
  mapM f l = Err e → ∃ x, x ∈ l ∧ f x = Err e.
Proof.
  induction l as [|x l IH]; simpl; [done|].
  destruct (f x) as [y|e'] eqn:Hx; simpl.
  - destruct (mapM f l) as [ys|e'']; simpl; [done|].
    intros [= ->]. destruct IH as (x' & ? & ?); [done|].
    exists x'. split; [by right|done].
  - intros [= ->]. exists x. split; [by left|done].
Qed.

Lemma mapM_is_Ok {X Y : Type} (f : X → result Y) l :
  Forall (λ x, ∃ y, f x = Ok y) l → ∃ ys, mapM f l = Ok ys.
Proof.
  induction 1 as [|x l [y Hx] _ [ys IH]]; simpl; [by eexists|].
  rewrite Hx, IH. simpl. by eexists.
Qed.

Lemma scaled_sum_Err self ws e :
  Sampler.scaled_sum self ws = Err e → arith_error e.
Proof.
  unfold Sampler.scaled_sum. destruct (mapM _ ws) as [xs|e'] eqn:Hm; [done|].
  intros [= ->]. apply mapM_Err in Hm as (w & _ & Hw). by eapply w_Err.
Qed.

Lemma dict_comp_from_Err {K V X : Type} `{EqDecision K}
    (key : X → K) (val : X → result V) xs (d : dict K V) e :
  dict_comp_from key val xs d = Err e → ∃ x, x ∈ xs ∧ val x = Err e.
Proof.
  revert d. induction xs as [|x xs IH]; intros d; simpl; [done|].
  destruct (val x) as [v|e'] eqn:Hx; simpl.
  - intros (x' & ? & ?)%IH. exists x'. split; [by right|done].
  - intros [= ->]. exists x. split; [by left|done].
Qed.

Lemma dict_comp_from_is_Ok {K V X : Type} `{EqDecision K}
    (key : X → K) (val : X → result V) xs (d : dict K V) :
  Forall (λ x, ∃ v, val x = Ok v) xs →
  ∃ d', dict_comp_from key val xs d = Ok d'.
Proof.
  intros Hxs. revert d. induction Hxs as [|x xs [v Hx] _ IH]; intros d; simpl.
  - by eexists.
  - rewrite Hx. simpl. apply IH.
Qed.

Lemma mass_Err self q keep e : Sampler.mass self q keep = Err e → arith_error e.
Proof. apply scaled_sum_Err. Qed.

Lemma Zq_at_Err self q e : Sampler.Zq_at self q = Err e → arith_error e.
Proof.
  unfold Sampler.Zq_at.
  destruct (Sampler.scaled_sum self _) as [s|e'] eqn:Hs; simpl.
  - destruct (Sampler._w self _) as [r|e'] eqn:Hr; simpl; [done|].
    intros [= ->]. by eapply w_Err.
  - intros [= ->]. by eapply scaled_sum_Err.
Qed.

Lemma Zqa_at_Err self q e : Sampler.Zqa_at self q = Err e → arith_error e.
Proof.
  unfold Sampler.Zqa_at, dict_comp.
  intros (b & _ & Hb)%dict_comp_from_Err. by eapply mass_Err.
Qed.

Lemma pa_at_Err self q Zq e : Sampler.pa_at self q Zq = Err e → arith_error e.
Proof.
  unfold Sampler.pa_at, dict_comp.
  destruct (dict_comp_from _ _ _ _) as [pa|e'] eqn:Hpa; simpl.
  - destruct (Sampler._w self _) as [r|e'] eqn:Hr; simpl.
    + destruct (pydiv r Zq) as [p|e'] eqn:Hp; simpl; [done|].
      intros [= ->]. apply pydiv_Err in Hp as ->. by left.
    + intros [= ->]. by eapply w_Err.
  - intros [= ->]. apply dict_comp_from_Err in Hpa as (b & _ & Hb).
    destruct (Sampler.mass self q _) as [m|e'] eqn:Hm; simpl in Hb.
    + apply pydiv_Err in Hb as ->. by left.
    + injection Hb as ->. by eapply mass_Err.
Qed.

Lemma pq_a_from_Err self q Zqa bs d e :
  Sampler.pq_a_from self q Zqa bs d = Err e →
  arith_error e ∨ ∃ b, b ∈ bs ∧ dict_get b Zqa = None.
Proof.
  revert d. induction bs as [|b bs IH]; intros d; simpl; [done|].
  unfold dict_item. destruct (dict_get b Zqa) as [z|] eqn:Hz; simpl.
  2:{ intros _. right. exists b. split; [by left|done]. }
  assert (∀ d', Sampler.pq_a_from self q Zqa bs d' = Err e →
            arith_error e ∨ ∃ b0, b0 ∈ b :: bs ∧ dict_get b0 Zqa = None) as IH'.
  { intros d' [?|(b0 & ? & ?)]%IH; [by left|].
    right. exists b0. split; [by right|done]. }
  destruct (fpos z); [|apply IH'].
  destruct (dict_comp _ _ _) as [inner|e'] eqn:Hin; simpl; [apply IH'|].
  intros [= ->]. left.
  apply dict_comp_from_Err in Hin as (qʼ & _ & Hq).
  destruct (Sampler.mass self q _) as [m|e'] eqn:Hm; simpl in Hq.
  - apply pydiv_Err in Hq as ->. by left.
  - injection Hq as ->. by eapply mass_Err.
Qed.

(** The tables of an iteration raise nothing but arithmetic errors: every
    symbol of the alphabet has its entry in [Zqa]. *)
Lemma lm_tables_Err self q e :
  Sampler.lm_tables self q = Err e → arith_error e.
Proof.
  unfold Sampler.lm_tables.
  destruct (Sampler.Zq_at self q) as [Zq|e'] eqn:HZq; simpl;
    [|intros [= ->]; by eapply Zq_at_Err].
  destruct (Sampler.Zqa_at self q) as [Zqa|e'] eqn:HZqa; simpl;
    [|intros [= ->]; by eapply Zqa_at_Err].
  destruct (Sampler.pa_at self q Zq) as [pa|e'] eqn:Hpa; simpl;
    [|intros [= ->]; by eapply pa_at_Err].
  destruct (Sampler.pq_a_at self q Zqa) as [pq|e'] eqn:Hpq; simpl; [done|].
  intros [= ->]. unfold Sampler.pq_a_at in Hpq.
  apply pq_a_from_Err in Hpq as [?|(b & Hb & Hnone)]; [done|].
  assert (b ∈ keys Zqa) as [z Hz]%dict_get_keys; [|congruence].
  apply (dict_comp_from_keys _ _ _ _ _ HZqa). right. by exists b.
Qed.

Lemma initial_dist_Err self e :
  Sampler.initial_dist self = Err e → arith_error e.
Proof.
  unfold Sampler.initial_dist.
  destruct (Sampler.scaled_sum self _) as [Z|e'] eqn:HZ; simpl;
    [|intros [= ->]; by eapply scaled_sum_Err].
  intros ([p w] & _ & Hv)%dict_comp_from_Err.
  destruct (Sampler._w self w) as [x|e'] eqn:Hw; simpl in Hv.
  - apply pydiv_Err in Hv as ->. by left.
  - injection Hv as ->. by eapply w_Err.
Qed.

Lemma options_at_Err self q e :
  Sampler.options_at self q = Err e → arith_error e.
Proof.
  unfold Sampler.options_at.
  destruct (Sampler.scaled_sum self _) as [s|e'] eqn:Hs; simpl;
    [|intros [= ->]; by eapply scaled_sum_Err].
  destruct (Sampler._w self (Sampler.ρ self q)) as [r|e'] eqn:Hr; simpl;
    [|intros [= ->]; by eapply w_Err].
  destruct (dict_comp _ _ _) as [opts|e'] eqn:Ho; simpl.
  - destruct (pydiv r _) as [p|e'] eqn:Hp; simpl; [done|].
    intros [= ->]. apply pydiv_Err in Hp as ->. by left.
  - intros [= ->]. apply dict_comp_from_Err in Ho as ([[a qʼ] w] & _ & Hv).
    destruct (Sampler._w self w) as [x|e'] eqn:Hw; simpl in Hv.
    + apply pydiv_Err in Hv as ->. by left.
    + injection Hv as ->. by eapply w_Err.
Qed.
End Errors.

(** ** Degenerate distributions *)
Section Degenerate.
Context {num G : Type} `{PyFloat num} `{Generator num G}.
Implicit Types (self : @Sampler.t num G) (q : State).

Lemma initial_dist_empty self :
  FSA.init (Sampler.A self) = ∅ → Sampler.initial_dist self = Ok [].
Proof.
  unfold Sampler.initial_dist, FSA.I. intros ->.
  by rewrite map_to_list_empty.
Qed.

Lemma Forall2_elem_l {X Y : Type} (P : X → Y → Prop) l k x :
  Forall2 P l k → x ∈ l → ∃ y, P x y.
Proof.
  induction 1 as [|x' y' l k Hxy _ IH]; intros Hx.
  - by apply elem_of_nil in Hx.
  - apply elem_of_cons in Hx as [->|Hx]; [eauto|by apply IH].
Qed.

Lemma mass_is_Ok self q keep s :
  Sampler.scaled_sum self ((λ '(_, _, w), w) <$> FSA.arcs (Sampler.A self) q)
  = Ok s →
  ∃ m, Sampler.mass self q keep = Ok m.
Proof.
  intros (xs & Hxs & _)%scaled_sum_Ok.
  unfold Sampler.mass, Sampler.scaled_sum.
  destruct (mapM_is_Ok (Sampler._w self)
              (omap (λ '(c, qʼʼ, w), if keep c qʼʼ then Some w else None)
                    (FSA.arcs (Sampler.A self) q))) as [ys ->];
    [|by eexists].
  apply Forall_forall. intros w ([[c qʼʼ] w'] & Hin & Hf)%list_elem_of_omap.
  destruct (keep c qʼʼ); simplify_eq.
  apply (Forall2_elem_l (λ w x, Sampler._w self w = Ok x) _ xs w Hxs).
  apply list_elem_of_fmap. by exists (c, qʼʼ, w).
Qed.

(** At a state of zero mass the divisions of both modes raise. *)
Lemma zero_mass_options self q Z :
  Sampler.Zq_at self q = Ok Z → fis_zero Z = true →
  Sampler.options_at self q = Err ZeroDivisionError.
Proof.
  unfold Sampler.Zq_at, Sampler.options_at. intros HZ Hzero.
  destruct (Sampler.scaled_sum self _) as [s|] eqn:Hs; [|done]. simpl in *.
  destruct (Sampler._w self (Sampler.ρ self q)) as [r|] eqn:Hr; [|done].
  simpl in *. injection HZ as <-.
  destruct (FSA.arcs (Sampler.A self) q) as [|[[a qʼ] w] arcs].
  - simpl. by rewrite pydiv_zero.
  - unfold Sampler.scaled_sum in Hs. rewrite fmap_cons in Hs. simpl in Hs.
    unfold dict_comp. simpl.
    destruct (Sampler._w self w) as [x|]; [|simpl in Hs; discriminate].
    simpl. rewrite (pydiv_zero x) by done. reflexivity.
Qed.

Lemma zero_mass_tables self q Z :
  Sampler.Zq_at self q = Ok Z → fis_zero Z = true →
  Sampler.lm_tables self q = Err ZeroDivisionError.
Proof.
  unfold Sampler.lm_tables. intros HZ Hzero. rewrite HZ. simpl.
  assert (∃ s r, Sampler.scaled_sum self
                   ((λ '(_, _, w), w) <$> FSA.arcs (Sampler.A self) q) = Ok s
                 ∧ Sampler._w self (Sampler.ρ self q) = Ok r) as (s & r & Hs & Hr).
  { unfold Sampler.Zq_at in HZ.
    destruct (Sampler.scaled_sum self _) as [s|]; [|done]. simpl in HZ.
    destruct (Sampler._w self _) as [r|]; [|done]. eauto. }
  destruct (dict_comp_from_is_Ok id
              (λ b, Sampler.mass self q (λ c _, bool_decide (c = b)))
              (elements (FSA.Sigma (Sampler.A self))) []) as [Zqa HZqa].
  { apply Forall_forall. intros b _. by eapply mass_is_Ok. }
  unfold Sampler.Zqa_at, dict_comp. rewrite HZqa. simpl.
  unfold Sampler.pa_at, dict_comp.
  destruct (elements (FSA.Sigma (Sampler.A self))) as [|b bs].
  - simpl. rewrite Hr. simpl. by rewrite pydiv_zero.
  - simpl. destruct (mass_is_Ok self q (λ c _, bool_decide (c = b)) s Hs)
      as [m ->]. simpl. by rewrite pydiv_zero.
Qed.

(** No run of [sample] raises [DegenerateDistributionError]. *)
Lemma ancestral_loop_raises fuel self (x : pyobj) y (g : G) e :
  run (Sampler._ancestral_loop fuel self x y) g = Raised e →
  arith_error e ∨ e = ValueError ∨ e = IndexError ∨ e = TypeError.
Proof.
  revert x y g. induction fuel as [|fuel IH]; intros x y g.
  { simpl. by destruct (py_ne x (PInt 0)). }
  destruct x as [n|a|q].
  - simpl. destruct (py_ne _ _); [|done]. intros [= <-]. auto.
  - simpl. intros [= <-]. auto.
  - rewrite run_ancestral_loop.
    destruct (Sampler.options_at self q) as [options|e'] eqn:Ho.
    2:{ intros [= ->]. left. by eapply options_at_Err. }
    destruct (choice g (values options)) as [[i g']|];
      [|intros [= <-]; auto].
    destruct (keys options !! i) as [[a qʼ]|]; [apply IH|intros [= <-]; auto].
Qed.

Lemma ancestral_lm_loop_raises fuel self transform pq_a a y (g : G) e :
  run (Sampler._ancestral_lm_loop fuel self transform pq_a a y) g = Raised e →
  arith_error e ∨ e = ValueError ∨ e = IndexError ∨ e = KeyError.
Proof.
  revert pq_a a y g. induction fuel as [|fuel IH]; intros pq_a a y g.
  { simpl. by case_bool_decide. }
  rewrite run_ancestral_lm_loop. case_bool_decide; [|done].
  unfold dict_item. destruct (dict_get a pq_a) as [belief|];
    [|intros [= <-]; auto].
  destruct (choice g (values belief)) as [[i g1]|]; [|intros [= <-]; auto].
  destruct (keys belief !! i) as [q|]; [|intros [= <-]; auto].
  destruct (Sampler.lm_tables self q) as [tables|e'] eqn:Ht.
  2:{ intros [= ->]. left. by eapply lm_tables_Err. }
  destruct (choice g1 _) as [[j g2]|]; [|intros [= <-]; auto].
  destruct (keys _ !! j) as [b|]; [apply IH|intros [= <-]; auto].
Qed.
End Degenerate.

Global Instance scripted_generator_laws {num : Type} `{PyFloat num} :
  GeneratorLaws num nat.
Proof.
  split.
  - done.
  - intros g g' p i. cbn. destruct (positive_indices p) as [|i0 cands] eqn:Hp;
      [done|]. intros [= <- _].
    assert (default i0 ((i0 :: cands) !! (g `mod` S (length cands)))
              ∈ positive_indices p) as Hin.
    { rewrite Hp. destruct (_ !! _) as [i|] eqn:Hi; simpl.
      - by eapply list_elem_of_lookup_2.
      - by left. }
    unfold positive_indices in Hin.
    apply list_elem_of_omap in Hin as ([j x] & Hjx & Hf). simpl in Hf.
    destruct (fpos x) eqn:Hx; [|done]. injection Hf as <-.
    apply elem_of_lookup_imap in Hjx as (j' & x' & [= -> ->] & Hl). eauto.
Qed.

Section DegenerateRaises.
Context {num G : Type} `{PyFloat num} `{Generator num G}.
Implicit Types (self : @Sampler.t num G) (q : State).

Lemma ancestral_raises self to_string fuel (g : G) e :
  run (Sampler._ancestral self to_string fuel) g = Raised e →
  e ≠ DegenerateDistributionError.
Proof.
  unfold Sampler._ancestral.
  destruct (Sampler.initial_dist self) as [d|e'] eqn:Hd; simpl.
  2:{ intros [= <-]. apply initial_dist_Err in Hd as [-> | ->]; done. }
  destruct (choice g (values d)) as [[i g']|]; [|by intros [= <-]].
  destruct (keys d !! i) as [q|]; simpl; [|by intros [= <-]].
  first [rewrite run_bind|rewrite run_prog_bind].
  destruct (run (Sampler._ancestral_loop fuel self (PState q) []) g')
    as [y g''|e'|] eqn:Hloop; [done| |done].
  intros [= <-].
  apply ancestral_loop_raises in Hloop as [[-> | ->]|[-> |[-> | ->]]]; done.
Qed.

Lemma ancestral_lm_raises self to_string transform fuel (g : G) e :
  run (Sampler._ancestral_lm self to_string transform fuel) g = Raised e →
  e ≠ DegenerateDistributionError.
Proof.
  unfold Sampler._ancestral_lm.
  destruct (Sampler.initial_dist self) as [d|e'] eqn:Hd; simpl.
  2:{ intros [= <-]. apply initial_dist_Err in Hd as [-> | ->]; done. }
  first [rewrite run_bind|rewrite run_prog_bind].
  destruct (run (Sampler._ancestral_lm_loop fuel self transform _ ε [ε]) g)
    as [y g''|e'|] eqn:Hloop; [done| |done].
  intros [= <-].
  apply ancestral_lm_loop_raises in Hloop as [[-> | ->]|[-> |[-> | ->]]]; done.
Qed.

Lemma repeatM_raises {A : Type} (m : prog num A) (P : exn → Prop) n (g : G) e :
  (∀ g e, run m g = Raised e → P e) →
  run (repeatM n m) g = Raised e → P e.
Proof.
  intros Hm. revert g. induction n as [|n IH]; intros g; [done|].
  simpl. first [rewrite run_bind|rewrite run_prog_bind].
  destruct (run m g) as [x g'|e'|] eqn:Hx; [|intros [= <-]; eauto|done].
  first [rewrite run_bind|rewrite run_prog_bind].
  destruct (run (repeatM n m) g') as [xs g''|e'|] eqn:Hxs; [done| |done].
  intros [= <-]. eauto.
Qed.

(** C4, as the code has it.  An all-zero mass makes the sampler raise, and
    nothing is drawn from it, but the error is not a dedicated one.  With no
    initial states it is the [ValueError] of the generator, asked to draw
    from no candidates; at a state whose scaled outgoing weights and scaled
    final weight sum to zero it is [ZeroDivisionError], in both modes.  No
    run of [sample] raises [DegenerateDistributionError]. *)
Theorem degenerate_distribution_raises `{!GeneratorLaws num G} self :
  (FSA.init (Sampler.A self) = ∅ →
     ∀ to_string transform fuel (g : G),
       run (Sampler._ancestral self to_string fuel) g = Raised ValueError
       ∧ run (Sampler._ancestral_lm self to_string transform (S fuel)) g
         = Raised ValueError)
  ∧ (∀ q Z, Sampler.Zq_at self q = Ok Z → fis_zero Z = true →
       (∀ fuel y (g : G),
          run (Sampler._ancestral_loop (S fuel) self (PState q) y) g
          = Raised ZeroDivisionError)
       ∧ (∀ fuel transform pq_a a y (g g1 : G) belief i,
            a ≠ EOS → dict_item a pq_a = Ok belief →
            choice g (values belief) = Some (i, g1) →
            keys belief !! i = Some q →
            run (Sampler._ancestral_lm_loop (S fuel) self transform pq_a a y) g
            = Raised ZeroDivisionError))
  ∧ (∀ K to_string transform lm fuel (g : G),
       run (Sampler.sample self K to_string transform lm fuel) g
       ≠ Raised DegenerateDistributionError).
Proof.
  split; [|split].
  - intros Hinit to_string transform fuel g. split.
    + unfold Sampler._ancestral.
      rewrite run_lift_bind, (initial_dist_empty _ Hinit). simpl.
      by rewrite choice_empty.
    + unfold Sampler._ancestral_lm.
      rewrite run_lift_bind, (initial_dist_empty _ Hinit).
      rewrite run_bind, run_ancestral_lm_loop. simpl.
      by rewrite choice_empty.
  - intros q Z HZ Hzero. split.
    + intros fuel y g. rewrite run_ancestral_loop.
      by rewrite (zero_mass_options _ _ _ HZ Hzero).
    + intros fuel transform pq_a a y g g1 belief i Ha Hb Hc Hi.
      rewrite run_ancestral_lm_loop, bool_decide_true, Hb, Hc, Hi by done.
      by rewrite (zero_mass_tables _ _ _ HZ Hzero).
  - intros K to_string transform lm fuel g Hrun. unfold Sampler.sample in Hrun.
    destruct lm.
    + eapply (repeatM_raises _ (λ e, e ≠ DegenerateDistributionError));
        [|exact Hrun|done].
      intros g0 e. apply ancestral_lm_raises.
    + eapply (repeatM_raises _ (λ e, e ≠ DegenerateDistributionError));
        [|exact Hrun|done].
      intros g0 e. apply ancestral_raises.
Qed.
End DegenerateRaises.

Lemma degenerate_distribution_raises_witness :
  (FSA.init (Sampler.A (sampler_on empty_fsa)) = ∅
   ∧ run (Sampler._ancestral (sampler_on empty_fsa) true 1) 0
     = Raised ValueError)
  ∧ (Sampler.Zq_at (sampler_on dead_fsa) (mkState 0) = Ok 0%Qc
     ∧ fis_zero 0%Qc = true
     ∧ run (Sampler._ancestral_loop 1 (sampler_on dead_fsa)
              (PState (mkState 0)) []) 0
       = Raised ZeroDivisionError).
Proof.
  split.
  - split; [reflexivity|].
    exact (proj1 (proj1 (degenerate_distribution_raises (sampler_on empty_fsa))
                        eq_refl true identity_transform 0 0)).
  - assert (Sampler.Zq_at (sampler_on dead_fsa) (mkState 0) = Ok 0%Qc) as HZ
      by (vm_compute; reflexivity).
    split; [exact HZ|]. split; [reflexivity|].
    exact (proj1 (proj1 (proj2 (degenerate_distribution_raises
                                  (sampler_on dead_fsa)))
                        (mkState 0) 0%Qc HZ eq_refl) 0 [] 0).
Defined.

(** Without initial states, and at a state of zero mass, sampling raises
    [ValueError] and [ZeroDivisionError]: not the error of the claim. *)
Lemma degenerate_error_is_not_dedicated :
  run (Sampler._ancestral (sampler_on empty_fsa) true 1) 0 = Raised ValueError
  ∧ run (Sampler._ancestral_lm (sampler_on empty_fsa) true identity_transform 1)
        0 = Raised ValueError
  ∧ run (Sampler._ancestral (sampler_on dead_fsa) true 1) 0
    = Raised ZeroDivisionError
  ∧ run (Sampler._ancestral_lm (sampler_on dead_fsa) true identity_transform 1)
        0 = Raised ZeroDivisionError
  ∧ run (Sampler._ancestral (sampler_on dead_fsa) true 1) 0
    ≠ Raised DegenerateDistributionError.
Proof.
  repeat split; try (vm_compute; reflexivity).
  vm_compute. discriminate.
Qed.

(** ** The belief map of [Sampler._ancestral_lm] *)
Section Belief.
Context {num G : Type} `{PyFloat num} `{Generator num G}.
Implicit Types (self : @Sampler.t num G) (q : State) (y : list Sym)
  (transform : list Sym → dict Sym num → dict Sym num).

Lemma pq_a_from_keys self q Zqa bs d pq :
  Sampler.pq_a_from self q Zqa bs d = Ok pq →
  ∀ b, b ∈ keys pq ↔
       b ∈ keys d ∨ (b ∈ bs ∧ ∃ z, dict_get b Zqa = Some z ∧ fpos z = true).
Proof.
  revert d. induction bs as [|b0 bs IH]; intros d Hpq b; simpl in Hpq.
  { injection Hpq as <-. split; [by left|].
    by intros [?|[[]%elem_of_nil _]]. }
  unfold dict_item in Hpq.
  destruct (dict_get b0 Zqa) as [z|] eqn:Hz; [|done]. simpl in Hpq.
  destruct (fpos z) eqn:Hpos.
  - destruct (dict_comp _ _ _) as [inner|]; [|done]. simpl in Hpq.
    rewrite (IH _ Hpq), keys_dict_set, elem_of_cons. naive_solver.
  - rewrite (IH _ Hpq), elem_of_cons. split.
    + intros [?|[? ?]]; [by left|]. right. split; [by right|done].
    + intros [?|[[->|?] (z' & Hz' & Hpos')]]; [by left| |right; eauto].
      congruence.
Qed.

Lemma Zqa_at_get self q Zqa b :
  Sampler.Zqa_at self q = Ok Zqa →
  ∀ z, dict_get b Zqa = Some z →
       Sampler.mass self q (λ c _, bool_decide (c = b)) = Ok z.
Proof.
  intros HZqa z Hz%dict_get_elem.
  destruct (dict_comp_from_entries _ _ _ _ _ HZqa b z Hz)
    as [[]%elem_of_nil|(b' & _ & <- & Hv)].
  done.
Qed.

(** The belief map has an entry exactly for the symbols of the alphabet
    whose scaled arc mass from [q] is positive. *)
Lemma lm_tables_keys self q pa pq :
  Sampler.lm_tables self q = Ok (pa, pq) →
  ∀ b, b ∈ keys pq ↔
       b ∈ FSA.Sigma (Sampler.A self)
       ∧ ∃ z, Sampler.mass self q (λ c _, bool_decide (c = b)) = Ok z
              ∧ fpos z = true.
Proof.
  unfold Sampler.lm_tables. intros Ht b.
  destruct (Sampler.Zq_at self q) as [Zq|]; [|done]. simpl in Ht.
  destruct (Sampler.Zqa_at self q) as [Zqa|] eqn:HZqa; [|done]. simpl in Ht.
  destruct (Sampler.pa_at self q Zq) as [pa'|]; [|done]. simpl in Ht.
  destruct (Sampler.pq_a_at self q Zqa) as [pq'|] eqn:Hpq; [|done].
  injection Ht as -> ->.
  rewrite (pq_a_from_keys _ _ _ _ _ _ Hpq), elem_of_elements. split.
  - intros [[]%elem_of_nil|[Hb (z & Hz & Hpos)]]. split; [done|].
    exists z. split; [by eapply Zqa_at_get|done].
  - intros [Hb (z & Hz & Hpos)]. right. split; [done|].
    assert (b ∈ keys Zqa) as [z' Hz']%dict_get_keys.
    { apply (dict_comp_from_keys _ _ _ _ _ HZqa). right. exists b.
      by rewrite elem_of_elements. }
    exists z'. split; [done|].
    pose proof (Zqa_at_get _ _ _ _ HZqa _ Hz') as Hm. congruence.
Qed.

Lemma lm_lookup_fails fuel self transform pq_a a y (g : G) :
  a ≠ EOS → a ∉ keys pq_a →
  run (Sampler._ancestral_lm_loop (S fuel) self transform pq_a a y) g
  = Raised KeyError.
Proof.
  intros Ha Hk. rewrite run_ancestral_lm_loop, bool_decide_true by done.
  unfold dict_item. destruct (dict_get a pq_a) as [belief|] eqn:Hb; [|done].
  destruct Hk. apply dict_get_keys. eauto.
Qed.

Lemma dict_lookup_entry {K V : Type} (d : dict K V) j k v :
  keys d !! j = Some k → values d !! j = Some v → (k, v) ∈ d.
Proof.
  revert j. induction d as [|[k' v'] d IH]; intros [|j]; simpl; try done.
  - intros [= ->] [= ->]. by left.
  - intros Hk Hv. right. by eapply IH.
Qed.

Lemma lm_lookups_succeed `{!GeneratorLaws num G} self transform :
  (∀ q y pa pq b v,
     Sampler.lm_tables self q = Ok (pa, pq) →
     (b, v) ∈ transform y pa → fpos v = true → b = EOS ∨ b ∈ keys pq) →
  ∀ fuel pq_a a y (g : G),
    a = EOS ∨ a ∈ keys pq_a →
    run (Sampler._ancestral_lm_loop fuel self transform pq_a a y) g
    ≠ Raised KeyError.
Proof.
  intros Hsupp fuel. induction fuel as [|fuel IH]; intros pq_a a y g Ha.
  { simpl. by case_bool_decide. }
  rewrite run_ancestral_lm_loop. case_bool_decide as Hne; [|done].
  destruct Ha as [?|Ha]; [done|].
  apply dict_get_keys in Ha as [belief Hb]. unfold dict_item. rewrite Hb.
  destruct (choice g (values belief)) as [[i g1]|]; [|done].
  destruct (keys belief !! i) as [q|]; [|done].
  destruct (Sampler.lm_tables self q) as [[pa pq]|e] eqn:Ht.
  2:{ apply lm_tables_Err in Ht as [-> | ->]; done. }
  cbn [fst snd].
  destruct (choice g1 (values (transform y pa))) as [[j g2]|] eqn:Hc; [|done].
  destruct (keys (transform y pa) !! j) as [b|] eqn:Hj; [|done].
  apply IH. apply choice_positive in Hc as (v & Hv & Hpos).
  apply (Hsupp q y pa pq b v); [done| |done].
  by eapply dict_lookup_entry.
Qed.

(** C10.  The belief map of an iteration has an entry exactly for the
    symbols whose scaled arc mass from the drawn state is positive.  When
    the symbol drawn from the transformed distribution is not the
    end-of-sequence marker and has no entry, the lookup of the next iteration
    raises [KeyError].  When the transformed distributions give positive
    probability only to symbols that have an entry and to the
    end-of-sequence marker, no lookup of the belief map fails. *)
Theorem belief_map_support `{!GeneratorLaws num G} self transform :
  (∀ q pa pq, Sampler.lm_tables self q = Ok (pa, pq) →
     ∀ b, b ∈ keys pq ↔
          b ∈ FSA.Sigma (Sampler.A self)
          ∧ ∃ z, Sampler.mass self q (λ c _, bool_decide (c = b)) = Ok z
                 ∧ fpos z = true)
  ∧ (∀ fuel pq_a a y (g g1 g2 : G) belief i q pa pq j b,
       a ≠ EOS → dict_item a pq_a = Ok belief →
       choice g (values belief) = Some (i, g1) → keys belief !! i = Some q →
       Sampler.lm_tables self q = Ok (pa, pq) →
       choice g1 (values (transform y pa)) = Some (j, g2) →
       keys (transform y pa) !! j = Some b →
       b ≠ EOS → b ∉ keys pq →
       run (Sampler._ancestral_lm_loop (S (S fuel)) self transform pq_a a y) g
       = Raised KeyError)
  ∧ ((∀ q y pa pq b v,
        Sampler.lm_tables self q = Ok (pa, pq) →
        (b, v) ∈ transform y pa → fpos v = true → b = EOS ∨ b ∈ keys pq) →
     ∀ to_string fuel (g : G),
       run (Sampler._ancestral_lm self to_string transform fuel) g
       ≠ Raised KeyError).
Proof.
  split; [|split].
  - apply lm_tables_keys.
  - intros fuel pq_a a y g g1 g2 belief i q pa pq j b Ha Hb Hc Hi Ht Hc' Hj
      Hne Hk.
    rewrite run_ancestral_lm_loop, bool_decide_true, Hb, Hc, Hi, Ht by done.
    cbn [fst snd]. rewrite Hc', Hj. by apply lm_lookup_fails.
  - intros Hsupp to_string fuel g. unfold Sampler._ancestral_lm.
    rewrite run_lift_bind.
    destruct (Sampler.initial_dist self) as [d|e] eqn:Hd.
    2:{ apply initial_dist_Err in Hd as [-> | ->]; done. }
    rewrite run_bind.
    destruct (run (Sampler._ancestral_lm_loop fuel self transform _ ε [ε]) g)
      as [y g'|e|] eqn:Hloop; [done| |done].
    intros [= ->]. revert Hloop. apply lm_lookups_succeed; [done|].
    right. unfold keys. simpl. by left.
Qed.
End Belief.

(** The tables of the one-state automaton: state 0 has them, and at any other
    state the normaliser is zero. *)
Lemma loop_tables :
  Sampler.lm_tables (loop_sampler 0) (mkState 0) = Ok (loop_pa, loop_pq).
Proof. apply (bool_decide_unpack _). vm_compute. exact I. Qed.

Lemma loop_tables_elsewhere q :
  q ≠ mkState 0 →
  Sampler.lm_tables (loop_sampler 0) q = Err ZeroDivisionError.
Proof.
  intros Hq.
  assert (FSA.arcs loop_fsa q = []) as Harcs.
  { unfold FSA.arcs. simpl. by rewrite decide_False by done. }
  assert (Sampler.ρ (loop_sampler 0) q = 0%Qc) as Hρ.
  { unfold Sampler.ρ. simpl. by rewrite lookup_singleton_ne by done. }
  unfold Sampler.lm_tables, Sampler.Zq_at, Sampler.Zqa_at, Sampler.pa_at,
    Sampler.mass.
  change (Sampler.A (loop_sampler 0)) with loop_fsa.
  rewrite Harcs, Hρ. vm_compute. reflexivity.
Qed.

Lemma belief_map_support_witness :
  (∀ q y pa pq b v,
     Sampler.lm_tables (loop_sampler 0) q = Ok (pa, pq) →
     (b, v) ∈ identity_transform y pa → fpos v = true →
     b = EOS ∨ b ∈ keys pq)
  ∧ run (Sampler._ancestral_lm (loop_sampler 0) false identity_transform 5) 2
    = Returned (Symbols [PSym ε; PSym (mkSym "a"); PSym EOS]) 0
  ∧ run (Sampler._ancestral_lm (loop_sampler 0) false identity_transform 5) 2
    ≠ Raised KeyError
  ∧ Sampler.lm_tables (loop_sampler 0) (mkState 0) = Ok (loop_pa, loop_pq)
  ∧ (∀ b, b ∈ keys loop_pq ↔
          b ∈ FSA.Sigma loop_fsa
          ∧ ∃ z, Sampler.mass (loop_sampler 0) (mkState 0)
                   (λ c _, bool_decide (c = b)) = Ok z
                 ∧ fpos z = true)
  ∧ (mkSym "b" ∉ keys loop_pq)
  ∧ run (Sampler._ancestral_lm_loop 2 (loop_sampler 0) stray_transform
           [(ε, [(mkState 0, 1%Qc)])] ε [ε]) 2
    = Raised KeyError.
Proof.
  destruct (belief_map_support (loop_sampler 0) identity_transform)
    as (Hkeys & _ & Hok).
  destruct (belief_map_support (loop_sampler 0) stray_transform)
    as (_ & Hfail & _).
  assert (mkSym "b" ∉ keys loop_pq) as Hb.
  { intros [[=]|[]%elem_of_nil]%elem_of_cons. }
  assert (∀ q y pa pq b v,
     Sampler.lm_tables (loop_sampler 0) q = Ok (pa, pq) →
     (b, v) ∈ identity_transform y pa → fpos v = true →
     b = EOS ∨ b ∈ keys pq) as Hsupp.
  { intros q y pa pq b v Ht Hin _.
    destruct (decide (q = mkState 0)) as [->|Hq].
    - rewrite loop_tables in Ht. injection Ht as <- <-.
      apply elem_of_cons in Hin as [[= -> _]|Hin].
      + right. apply list_elem_of_here.
      + apply list_elem_of_singleton in Hin as [= -> _]. by left.
    - by rewrite loop_tables_elsewhere in Ht. }
  split; [exact Hsupp|]. split; [vm_compute; reflexivity|].
  split; [exact (Hok Hsupp false 5 2)|]. split; [exact loop_tables|].
  split; [exact (Hkeys _ _ _ loop_tables)|]. split; [exact Hb|].
  apply (Hfail 0 [(ε, [(mkState 0, 1%Qc)])] ε [ε] 2 2 2
               [(mkState 0, 1%Qc)] 0 (mkState 0) loop_pa loop_pq 0 (mkSym "b"));
    try done.
  exact loop_tables.
Defined.

(** A transform that moves the mass to a symbol without arcs makes the
    lookup fail. *)
Example belief_lookup_fails :
  run (Sampler._ancestral_lm (loop_sampler 0) false
         (λ _ _, [(mkSym "b", 1%Qc)]) 5) 2
  = Raised KeyError.
Proof. vm_compute. reflexivity. Qed.

(** ** Sums in exact arithmetic *)
Section Sums.
Context {num : Type} `{ExactFloat num}.

Add Ring num_semiring : exact_semiring.

Lemma fsum_cons (x : num) (l : list num) : fsum (x :: l) = fadd x (fsum l).
Proof. done. Qed.

Lemma fsum_app (l1 l2 : list num) :
  fsum (l1 ++ l2) = fadd (fsum l1) (fsum l2).
Proof.
  unfold fsum. induction l1 as [|x l1 IH]; simpl; [ring|]. rewrite IH. ring.
Qed.

Lemma pysum_fsum (l : list num) : pysum l = fsum l.
Proof.
  unfold pysum. cut (∀ a, foldl fadd a l = fadd a (fsum l)).
  { intros ->. ring. }
  induction l as [|x l IH]; intros a; simpl; [unfold fsum; simpl; ring|].
  rewrite IH. unfold fsum. simpl. ring.
Qed.

Lemma fsum_zero {X : Type} (f : X → num) (l : list X) :
  (∀ x, x ∈ l → f x = fzero) → fsum (f <$> l) = fzero.
Proof.
  induction l as [|x l IH]; intros Hl; [done|].
  rewrite fmap_cons. unfold fsum. simpl. fold (fsum (f <$> l)).
  rewrite IH, (Hl x); [ring|by left|]. intros y Hy. apply Hl. by right.
Qed.

Lemma fsum_ext {X : Type} (f g : X → num) (l : list X) :
  (∀ x, x ∈ l → f x = g x) → fsum (f <$> l) = fsum (g <$> l).
Proof.
  induction l as [|x l IH]; intros Hl; [done|].
  rewrite !fmap_cons. unfold fsum. simpl. fold (fsum (f <$> l)) (fsum (g <$> l)).
  rewrite IH, (Hl x); [done|by left|]. intros y Hy. apply Hl. by right.
Qed.

Lemma fsum_mul {X : Type} (c : num) (f : X → num) (l : list X) :
  fsum ((λ x, fmul c (f x)) <$> l) = fmul c (fsum (f <$> l)).
Proof.
  induction l as [|x l IH]; [unfold fsum; simpl; ring|].
  rewrite !fmap_cons. unfold fsum. simpl.
  fold (fsum ((λ x, fmul c (f x)) <$> l)) (fsum (f <$> l)). rewrite IH. ring.
Qed.

Lemma fsum_add {X : Type} (f g : X → num) (l : list X) :
  fsum ((λ x, fadd (f x) (g x)) <$> l)
  = fadd (fsum (f <$> l)) (fsum (g <$> l)).
Proof.
  induction l as [|x l IH]; [unfold fsum; simpl; ring|].
  rewrite !fmap_cons. unfold fsum. simpl.
  fold (fsum ((λ x, fadd (f x) (g x)) <$> l)) (fsum (f <$> l))
       (fsum (g <$> l)).
  rewrite IH. ring.
Qed.

(** A sum that picks one element of a duplicate-free list. *)
Lemma fsum_pick {X : Type} `{EqDecision X} (a : X) (v : num) (l : list X) :
  NoDup l →
  fsum ((λ x, if decide (x = a) then v else fzero) <$> l)
  = if decide (a ∈ l) then v else fzero.
Proof.
  induction 1 as [|x l Hx Hnd IH].
  { by rewrite decide_False by apply not_elem_of_nil. }
  rewrite fmap_cons. unfold fsum. simpl. fold (fsum
    ((λ x, if decide (x = a) then v else fzero) <$> l)). rewrite IH.
  destruct (decide (x = a)) as [->|Hne].
  - rewrite (decide_True (P:=a ∈ a :: l)) by left.
    rewrite (decide_False (P:=a ∈ l)) by done. ring.
  - destruct (decide (a ∈ l)).
    + rewrite decide_True by (by right). ring.
    + rewrite decide_False by (rewrite elem_of_cons; naive_solver). ring.
Qed.

(** Summing per key of a duplicate-free list, then over the elements with
    that key, is summing over the elements whose key is in the list. *)
Lemma fsum_by_key {X E : Type} `{EqDecision X} (key : E → X) (G : E → num)
    (l : list X) (es : list E) :
  NoDup l →
  fsum ((λ x, fsum (G <$> filter (λ e, key e = x) es)) <$> l)
  = fsum (G <$> filter (λ e, key e ∈ l) es).
Proof.
  intros Hnd. induction es as [|e es IH].
  { rewrite fsum_zero; [done|]. by intros. }
  rewrite (filter_cons (λ e, key e ∈ l)).
  rewrite (fsum_ext _ (λ x, fadd (if decide (x = key e) then G e else fzero)
                                 (fsum (G <$> filter (λ e, key e = x) es)))).
  2:{ intros x _. rewrite filter_cons. destruct (decide (key e = x)) as [<-|].
      - by rewrite decide_True.
      - rewrite decide_False by done. ring. }
  rewrite fsum_add, IH, fsum_pick by done.
  destruct (decide (key e ∈ l)); [done|ring].
Qed.

Lemma fpos_zero : fpos (fzero : num) = false.
Proof.
  destruct (fpos fzero) eqn:Hp; [|done].
  apply exact_positive in Hp. by rewrite (proj2 (exact_zero fzero)) in Hp.
Qed.

(** The sum of non-negative numbers is not positive only if all are zero. *)
Lemma fsum_nonneg (l : list num) : Forall fnonneg l → fnonneg (fsum l).
Proof.
  induction 1 as [|x l Hx _ IH]; [by right|].
  unfold fsum. simpl. by apply exact_add_nonneg.
Qed.

Lemma fsum_not_positive (l : list num) :
  Forall fnonneg l → fpos (fsum l) = false → Forall (λ x, x = fzero) l.
Proof.
  induction 1 as [|x l Hx Hl IH]; intros Hpos; [done|].
  apply exact_add_zero in Hpos as [-> Hz]; [|done|by apply fsum_nonneg].
  change (fsum l = fzero) in Hz.
  constructor; [done|]. apply IH. rewrite Hz. apply fpos_zero.
Qed.
End Sums.

(** ** Expectations of the sampling monad *)
Section ExpectLemmas.
Context {num : Type} `{PyFloat num}.

Lemma wsum_ext (f g : nat → num) i p :
  (∀ j, f j = g j) → wsum f i p = wsum g i p.
Proof.
  intros Hfg. revert i. induction p as [|x p IH]; intros i; simpl; [done|].
  by rewrite Hfg, IH.
Qed.

Lemma wsum_shift (f : nat → num) i p :
  wsum f (S i) p = wsum (λ j, f (S j)) i p.
Proof.
  revert i. induction p as [|x p IH]; intros i; simpl; [done|].
  by rewrite IH.
Qed.

Lemma expect_bind {A B : Type} (k : B → num) (f : A → prog num B)
    (m : prog num A) :
  expect k (m ≫= f) = expect (λ a, expect k (f a)) m.
Proof.
  induction m as [a|e| |p c IH]; try done.
  change (wsum (λ i, expect k (c i ≫= f)) 0 p
          = wsum (λ i, expect (λ a, expect k (f a)) (c i)) 0 p).
  by apply wsum_ext.
Qed.

Lemma expect_ext {A : Type} (k k' : A → num) (m : prog num A) :
  (∀ a, k a = k' a) → expect k m = expect k' m.
Proof.
  intros Hk. induction m as [a|e| |p c IH]; simpl; try done.
  by apply wsum_ext.
Qed.

Lemma expect_lift {A : Type} (k : A → num) (r : result A) :
  expect k (lift r) = match r with Ok a => k a | Err _ => fzero end.
Proof. by destruct r. Qed.

(** The expectation over a draw is the sum over the dictionary. *)
Lemma expect_draw {K : Type} (k : K → num) (d : dict K num) :
  expect k (Sampler._draw d) = dsum d k.
Proof.
  unfold Sampler._draw, dsum. simpl.
  induction d as [|[c v] d IH]; [done|].
  simpl. f_equal. rewrite wsum_shift. apply IH.
Qed.
End ExpectLemmas.

(** ** The tables of the two modes, written out *)
Section Tables.
Context {num G : Type} `{PyFloat num}.
Implicit Types (self : @Sampler.t num G) (q : State).

Lemma mapM_total {X Y : Type} (f : X → result Y) (g : X → Y) l :
  (∀ x, x ∈ l → f x = Ok (g x)) → mapM f l = Ok (g <$> l).
Proof.
  induction l as [|x l IH]; intros Hl; [done|].
  simpl. rewrite (Hl x) by left. simpl.
  rewrite IH by (intros y Hy; apply Hl; by right). done.
Qed.

Lemma dict_comp_from_fresh {K V X : Type} `{EqDecision K}
    (key : X → K) (val : X → result V) (f : X → V) xs (d : dict K V) :
  (∀ x, x ∈ xs → val x = Ok (f x)) →
  NoDup (key <$> xs) → (∀ x, x ∈ xs → key x ∉ keys d) →
  dict_comp_from key val xs d = Ok (d ++ ((λ x, (key x, f x)) <$> xs)).
Proof.
  revert d. induction xs as [|x xs IH]; intros d Hval Hnd Hd.
  { simpl. by rewrite app_nil_r. }
  rewrite fmap_cons in Hnd. apply NoDup_cons in Hnd as [Hx Hnd].
  simpl. rewrite (Hval x) by left. simpl.
  rewrite dict_set_fresh by (apply Hd; left).
  rewrite IH; [by rewrite <-app_assoc| |done|].
  - intros y Hy. apply Hval. by right.
  - intros y Hy. unfold keys. rewrite fmap_app, elem_of_app.
    intros [Hin|Hin%list_elem_of_singleton].
    + by apply (Hd y); [right|].
    + simpl in Hin. apply Hx. rewrite <-Hin. by apply list_elem_of_fmap_2.
Qed.

Lemma dict_comp_fresh {K V X : Type} `{EqDecision K}
    (key : X → K) (val : X → result V) (f : X → V) xs :
  (∀ x, x ∈ xs → val x = Ok (f x)) → NoDup (key <$> xs) →
  dict_comp key val xs = Ok ((λ x, (key x, f x)) <$> xs).
Proof.
  intros Hval Hnd. unfold dict_comp.
  rewrite (dict_comp_from_fresh key val f); [done..|].
  intros x _. apply not_elem_of_nil.
Qed.

Lemma dict_get_fmap {K V : Type} `{EqDecision K} (g : K → V) (l : list K) k :
  dict_get k ((λ x, (x, g x)) <$> l) = if decide (k ∈ l) then Some (g k) else None.
Proof.
  induction l as [|x l IH].
  { by rewrite decide_False by apply not_elem_of_nil. }
  rewrite fmap_cons. simpl (dict_get _ _).
  destruct (decide (x = k)) as [->|Hne].
  - by rewrite decide_True by left.
  - rewrite IH. destruct (decide (k ∈ l)).
    + by rewrite decide_True by (by right).
    + rewrite decide_False; [done|]. rewrite elem_of_cons. naive_solver.
Qed.

(** Where the normaliser of [q] is computed, each scaled weight is. *)
Lemma Zq_at_scaled self q Z :
  Sampler.Zq_at self q = Ok Z →
  (∀ c qʼʼ w, (c, qʼʼ, w) ∈ FSA.arcs (Sampler.A self) q →
              Sampler._w self w = Ok (Sampler.scaled self w))
  ∧ Sampler._w self (Sampler.ρ self q)
    = Ok (Sampler.scaled self (Sampler.ρ self q))
  ∧ Z = fadd (Sampler.scaled_mass self q (λ _ _, true))
             (Sampler.scaled self (Sampler.ρ self q)).
Proof.
  unfold Sampler.Zq_at. intros HZ.
  destruct (Sampler.scaled_sum self _) as [s|] eqn:Hs; [|done]. simpl in HZ.
  destruct (Sampler._w self (Sampler.ρ self q)) as [r|] eqn:Hr; [|done].
  injection HZ as <-.
  apply scaled_sum_Ok in Hs as (xs & Hxs & ->).
  assert (∀ c qʼʼ w, (c, qʼʼ, w) ∈ FSA.arcs (Sampler.A self) q →
            Sampler._w self w = Ok (Sampler.scaled self w)) as Hall.
  { intros c qʼʼ w Hin.
    destruct (Forall2_elem_l (λ w x, Sampler._w self w = Ok x) _ xs w Hxs)
      as [x Hx].
    { apply list_elem_of_fmap. by exists (c, qʼʼ, w). }
    unfold Sampler.scaled. by rewrite Hx. }
  split; [exact Hall|]. split; [unfold Sampler.scaled; by rewrite Hr|].
  replace (Sampler.scaled self (Sampler.ρ self q)) with r
    by (unfold Sampler.scaled; by rewrite Hr).
  f_equal. unfold Sampler.scaled_mass. f_equal.
  clear Hr. revert xs Hxs Hall.
  induction (FSA.arcs (Sampler.A self) q) as [|[[c qʼʼ] w] l IH];
    intros xs Hxs Hall.
  { by inversion Hxs. }
  rewrite fmap_cons in Hxs. inversion Hxs as [|? x ? xs' Hx Hxs']; subst.
  cbn. f_equal.
  - unfold Sampler.scaled. by rewrite Hx.
  - apply IH; [done|]. intros c' q' w' Hin. eapply Hall. by right.
Qed.

Lemma mass_closed self q Z keep :
  Sampler.Zq_at self q = Ok Z →
  Sampler.mass self q keep = Ok (Sampler.scaled_mass self q keep).
Proof.
  intros (Hall & _ & _)%Zq_at_scaled.
  unfold Sampler.mass, Sampler.scaled_sum, Sampler.scaled_mass.
  rewrite (mapM_total _ (Sampler.scaled self)); [done|].
  intros w ([[c qʼʼ] w'] & Hin & Hf)%list_elem_of_omap.
  destruct (keep c qʼʼ); simplify_eq. by eapply Hall.
Qed.
Lemma pydiv_nonzero (x y : num) :
  fis_zero y = false → pydiv x y = Ok (fquot x y).
Proof. unfold pydiv. by intros ->. Qed.

Lemma options_closed self q Z :
  Sampler.Zq_at self q = Ok Z → fis_zero Z = false →
  NoDup ((λ e, (e.1.1, e.1.2)) <$> FSA.arcs (Sampler.A self) q) →
  Sampler.options_at self q = Ok (options_of self q Z).
Proof.
  intros HZ Hnz Hnd.
  pose proof (Zq_at_scaled _ _ _ HZ) as (Hall & Hρ & _).
  unfold Sampler.Zq_at in HZ. unfold Sampler.options_at.
  destruct (Sampler.scaled_sum self _) as [s|]; [|done]. simpl in *.
  rewrite Hρ in *. simpl in *. injection HZ as HZ. rewrite HZ.
  rewrite (dict_comp_fresh _ _ (λ e, fquot (Sampler.scaled self e.2) Z)).
  - simpl. rewrite pydiv_nonzero by done. simpl. f_equal.
    rewrite dict_set_fresh.
    + unfold options_of. f_equal. apply list_fmap_ext.
      by intros i [[a qʼ] w] _.
    + unfold keys. rewrite <-list_fmap_compose.
      intros ([[a qʼ] w] & Heq & _)%list_elem_of_fmap. done.
  - intros [[a qʼ] w] Hin. rewrite (Hall _ _ _ Hin). simpl.
    by rewrite pydiv_nonzero.
  - replace ((λ '(a, qʼ, _), (PSym a, PState qʼ)) <$> FSA.arcs (Sampler.A self) q)
      with ((λ p : Sym * State, (PSym p.1, PState p.2))
              <$> ((λ e, (e.1.1, e.1.2)) <$> FSA.arcs (Sampler.A self) q)).
    + assert (Inj (=) (=) (λ p : Sym * State, (PSym p.1, PState p.2)))
        by (by intros [a1 q1] [a2 q2] [= -> ->]).
      by apply (NoDup_fmap_2 _).
    + rewrite <-list_fmap_compose. apply list_fmap_ext.
      by intros i [[a qʼ] w] _.
Qed.
Lemma pq_a_from_closed self q Z Zqa bs d :
  Sampler.Zq_at self q = Ok Z →
  (∀ z : num, fpos z = true → fis_zero z = false) →
  NoDup bs → (∀ b, b ∈ bs → b ∉ keys d) →
  (∀ b, b ∈ bs → dict_get b Zqa = Some (Zqa_of self q b)) →
  Sampler.pq_a_from self q Zqa bs d
  = Ok (d ++ ((λ b, (b, belief_of self q b))
                <$> filter (λ b, fpos (Zqa_of self q b) = true) bs)).
Proof.
  intros HZ Hpos Hnd. revert d.
  induction Hnd as [|b bs Hb Hnd IH]; intros d Hd Hget.
  { simpl. by rewrite app_nil_r. }
  simpl. unfold dict_item. rewrite (Hget b) by left. simpl.
  rewrite filter_cons.
  destruct (decide (fpos (Zqa_of self q b) = true)) as [Hp|Hp].
  - rewrite Hp.
    rewrite (dict_comp_fresh _ _
               (λ qʼ, fquot (Zqaq_of self q b qʼ) (Zqa_of self q b))).
    + simpl. rewrite dict_set_fresh by (apply Hd; left).
      rewrite IH.
      * by rewrite <-app_assoc.
      * intros b' Hb'. unfold keys. rewrite fmap_app, elem_of_app.
        intros [Hin|Hin%list_elem_of_singleton].
        -- by apply (Hd b'); [right|].
        -- simpl in Hin. by subst.
      * intros b' Hb'. apply Hget. by right.
    + intros qʼ _. rewrite (mass_closed _ _ _ _ HZ). simpl.
      by rewrite pydiv_nonzero by (by apply Hpos).
    + rewrite list_fmap_id. apply NoDup_elements.
  - apply not_true_is_false in Hp. rewrite Hp. apply IH.
    + intros b' Hb'. apply Hd. by right.
    + intros b' Hb'. apply Hget. by right.
Qed.

Lemma tables_closed self q Z :
  Sampler.Zq_at self q = Ok Z → fis_zero Z = false →
  (∀ z : num, fpos z = true → fis_zero z = false) →
  EOS ∉ FSA.Sigma (Sampler.A self) →
  Sampler.lm_tables self q = Ok (pa_of self q Z, pq_a_of self q).
Proof.
  intros HZ Hnz Hpos HEOS.
  pose proof (Zq_at_scaled _ _ _ HZ) as (_ & Hρ & _).
  unfold Sampler.lm_tables. rewrite HZ. simpl.
  assert (Sampler.Zqa_at self q
          = Ok ((λ b, (b, Zqa_of self q b))
                  <$> elements (FSA.Sigma (Sampler.A self)))) as ->.
  { unfold Sampler.Zqa_at.
    rewrite (dict_comp_fresh _ _ (Zqa_of self q)); [done| |].
    - intros b _. by apply (mass_closed _ _ Z).
    - rewrite list_fmap_id. apply NoDup_elements. }
  simpl.
  assert (Sampler.pa_at self q Z = Ok (pa_of self q Z)) as ->.
  { unfold Sampler.pa_at.
    rewrite (dict_comp_fresh _ _ (λ b, fquot (Zqa_of self q b) Z)).
    - simpl. rewrite Hρ. simpl. rewrite pydiv_nonzero by done. simpl.
      f_equal. apply dict_set_fresh. unfold keys.
      rewrite <-list_fmap_compose.
      intros (b & Heq & Hin)%list_elem_of_fmap. simpl in Heq. subst b.
      by apply elem_of_elements in Hin.
    - intros b _. rewrite (mass_closed _ _ Z) by done. simpl.
      by rewrite pydiv_nonzero.
    - rewrite list_fmap_id. apply NoDup_elements. }
  simpl. unfold Sampler.pq_a_at.
  rewrite (pq_a_from_closed self q Z); [done..|apply NoDup_elements| |].
  - intros b _. apply not_elem_of_nil.
  - intros b Hb. rewrite (dict_get_fmap (Zqa_of self q)).
    by rewrite decide_True.
Qed.
End Tables.



(** ** Marginalising over the symbol, then conditioning on it *)
Section Marginal.
Context {num : Type} `{ExactFloat num}.

Add Ring num_semiring' : exact_semiring.

Implicit Types (arcs : list (Sym * State * num)) (sw : num → num).

(** The scaled mass of the arcs that [P] selects. *)
Lemma scaled_omap_filter sw (keep : Sym → State → bool) arcs :
  pysum (sw <$> omap (λ '(c, qʼʼ, w), if keep c qʼʼ then Some w else None) arcs)
  = fsum ((λ e, sw e.2) <$> filter (λ e, keep e.1.1 e.1.2 = true) arcs).
Proof.
  rewrite pysum_fsum. f_equal.
  induction arcs as [|[[c qʼʼ] w] arcs IH]; [done|].
  rewrite filter_cons. cbn. destruct (keep c qʼʼ).
  - rewrite decide_True by done. cbn. by rewrite IH.
  - rewrite decide_False by done. done.
Qed.

Lemma fquot_fsum {X : Type} (f : X → num) (l : list X) (Z : num) :
  fquot (fsum (f <$> l)) Z = fsum ((λ x, fquot (f x) Z) <$> l).
Proof.
  rewrite exact_quot.
  rewrite (fsum_ext (λ x, fquot (f x) Z) (λ x, fmul (fquot fone Z) (f x))).
  - rewrite fsum_mul. ring.
  - intros x _. rewrite exact_quot. ring.
Qed.

Lemma fquot_cancel (m x Z : num) :
  fis_zero m = false →
  fmul (fquot m Z) (fquot x m) = fquot x Z.
Proof.
  intros Hm. rewrite (exact_quot m Z), (exact_quot x m), (exact_quot x Z).
  transitivity (fmul (fmul x (fquot fone Z)) (fmul m (fquot fone m))); [ring|].
  rewrite exact_inverse by done. ring.
Qed.

Lemma fquot_zero (Z : num) : fquot fzero Z = fzero.
Proof. rewrite exact_quot. ring. Qed.

Lemma filter_all_in {X : Type} (P : X → Prop) `{!∀ x, Decision (P x)}
    (l : list X) :
  (∀ x, x ∈ l → P x) → filter P l = l.
Proof.
  induction l as [|x l IH]; intros Hl; [done|].
  rewrite filter_cons_True by (apply Hl; left). f_equal.
  apply IH. intros y Hy. apply Hl. by right.
Qed.

(** Drawing the symbol [b] with the mass of its arcs, then the destination
    with its share of that mass, weighs every arc as drawing the arc does. *)
Lemma marginal_then_conditional sw arcs (Sigma : list Sym) (Q : list State)
    (Z : num) (F : Sym → State → num) :
  NoDup Sigma → NoDup Q →
  (∀ e, e ∈ arcs → e.1.1 ∈ Sigma ∧ e.1.2 ∈ Q ∧ fnonneg (sw e.2)) →
  let M b := fsum ((λ e, sw e.2) <$> filter (λ e, e.1.1 = b) arcs) in
  let M2 b qʼ :=
    fsum ((λ e, sw e.2) <$> filter (λ e, e.1.1 = b ∧ qʼ = e.1.2) arcs) in
  fsum ((λ b, fmul (fquot (M b) Z)
                (if fpos (M b)
                 then fsum ((λ qʼ, fmul (fquot (M2 b qʼ) (M b)) (F b qʼ)) <$> Q)
                 else fzero)) <$> Sigma)
  = fsum ((λ e, fmul (fquot (sw e.2) Z) (F e.1.1 e.1.2)) <$> arcs).
Proof.
  intros HSigma HQ Harcs M M2.
  set (G := λ e : Sym * State * num, fmul (fquot (sw e.2) Z) (F e.1.1 e.1.2)).
  (* each symbol contributes the sum over its arcs *)
  rewrite (fsum_ext _ (λ b, fsum (G <$> filter (λ e, e.1.1 = b) arcs))).
  { rewrite (fsum_by_key (λ e, e.1.1) G) by done. f_equal. f_equal.
    apply filter_all_in. intros e He. by apply Harcs. }
  intros b _.
  (* the shares of the destinations add up to the arcs of the symbol *)
  transitivity (fsum ((λ qʼ, fmul (fquot (M2 b qʼ) Z) (F b qʼ)) <$> Q)).
  - destruct (fpos (M b)) eqn:Hpos.
    + rewrite <-fsum_mul. apply fsum_ext. intros qʼ _.
      rewrite <-(fquot_cancel (M b) (M2 b qʼ) Z) by (by apply exact_positive).
      ring.
    + assert (∀ e, e ∈ filter (λ e, e.1.1 = b) arcs → sw e.2 = fzero) as Hz.
      { assert (Forall (λ x, x = fzero)
                  ((λ e, sw e.2) <$> filter (λ e, e.1.1 = b) arcs)) as Hall.
        { apply fsum_not_positive; [|done]. apply Forall_fmap, Forall_forall.
          intros e [_ He]%list_elem_of_filter. by apply Harcs. }
        intros e He. rewrite Forall_fmap, Forall_forall in Hall.
        by apply Hall. }
      rewrite fsum_zero; [ring|]. intros qʼ _.
      replace (M2 b qʼ) with (fzero : num); [rewrite fquot_zero; ring|].
      symmetry. apply fsum_zero.
      intros e [[Hb _] He]%list_elem_of_filter. apply Hz.
      by apply list_elem_of_filter.
  - rewrite (fsum_ext _
      (λ qʼ, fsum (G <$> filter (λ e, e.1.2 = qʼ)
                                (filter (λ e, e.1.1 = b) arcs)))).
    + rewrite (fsum_by_key (λ e, e.1.2) G) by done. f_equal. f_equal.
      apply filter_all_in. intros e [_ He]%list_elem_of_filter.
      by apply Harcs.
    + intros qʼ _. subst M2. cbn beta. rewrite fquot_fsum.
      rewrite list_filter_filter.
      rewrite (list_filter_iff (λ e, e.1.2 = qʼ ∧ e.1.1 = b)
                               (λ e, e.1.1 = b ∧ qʼ = e.1.2))
        by (intros e; naive_solver).
      transitivity (fsum ((λ e, fmul (F b qʼ) (fquot (sw e.2) Z))
                            <$> filter (λ e, e.1.1 = b ∧ qʼ = e.1.2) arcs)).
      * rewrite fsum_mul. ring.
      * apply fsum_ext. intros e [[<- ->] _]%list_elem_of_filter.
        unfold G. ring.
Qed.
End Marginal.

(** ** The two modes weigh every sequence alike *)
Section Agreement.
Context {num G : Type} `{ExactFloat num}.
Implicit Types (self : @Sampler.t num G) (q : State).

Add Ring num_semiring'' : exact_semiring.

Lemma dsum_fmap {K X : Type} (key : X → K) (val : X → num) (l : list X)
    (F : K → num) :
  dsum ((λ x, (key x, val x)) <$> l) F
  = fsum ((λ x, fmul (val x) (F (key x))) <$> l).
Proof. unfold dsum. by rewrite <-list_fmap_compose. Qed.

Lemma dsum_app {K : Type} (d1 d2 : dict K num) (F : K → num) :
  dsum (d1 ++ d2) F = fadd (dsum d1 F) (dsum d2 F).
Proof. unfold dsum. by rewrite fmap_app, fsum_app. Qed.

Lemma dsum_singleton {K : Type} (c : K) (v : num) (F : K → num) :
  dsum [(c, v)] F = fmul v (F c).
Proof. unfold dsum, fsum. simpl. ring. Qed.

Lemma dsum_ext {K : Type} (d : dict K num) (F F' : K → num) :
  (∀ c v, (c, v) ∈ d → F c = F' c) → dsum d F = dsum d F'.
Proof.
  intros HF. unfold dsum. apply fsum_ext. intros [c v] Hin. simpl.
  by rewrite (HF c v).
Qed.

Lemma expect_ancestral_loop (k : list pyobj → num) n self q y :
  expect k (Sampler._ancestral_loop (S n) self (PState q) y)
  = pl_value k n self q y.
Proof.
  unfold pl_value. simpl.
  destruct (Sampler.options_at self q) as [options|e]; [|done]. simpl.
  change (expect k (Sampler._draw options ≫=
            (λ '(a, qʼ), Sampler._ancestral_loop n self qʼ
                           (if py_ne a (PInt 0) then y ++ [a] else y)))
          = dsum options
              (λ kq, expect k (Sampler._ancestral_loop n self kq.2
                         (if py_ne kq.1 (PInt 0) then y ++ [kq.1] else y)))).
  rewrite expect_bind, expect_draw. apply dsum_ext. by intros [a qʼ] v _.
Qed.

Lemma expect_ancestral_lm_loop (k : list Sym → num) n self transform pq_a a y :
  expect k (Sampler._ancestral_lm_loop (S n) self transform pq_a a y)
  = if bool_decide (a ≠ EOS) then
      match dict_item a pq_a with
      | Ok belief => dsum belief (λ q, lm_value k n self transform q y)
      | Err _ => fzero
      end
    else k y.
Proof.
  simpl. case_bool_decide; [|done].
  destruct (dict_item a pq_a) as [belief|e]; [|done]. simpl.
  change (expect k (Sampler._draw belief ≫=
            (λ q, lift (Sampler.lm_tables self q) ≫=
               (λ tables, Sampler._draw (transform y tables.1) ≫=
                  (λ b, Sampler._ancestral_lm_loop n self transform tables.2 b
                          (y ++ [b])))))
          = dsum belief (λ q, lm_value k n self transform q y)).
  rewrite expect_bind, expect_draw. apply dsum_ext. intros q v _.
  unfold lm_value. destruct (Sampler.lm_tables self q) as [tables|e]; [|done].
  simpl. change (expect k (Sampler._draw (transform y tables.1) ≫=
                   (λ b, Sampler._ancestral_lm_loop n self transform tables.2 b
                           (y ++ [b]))) = dsum (transform y tables.1)
            (λ b, expect k (Sampler._ancestral_lm_loop n self transform
                              tables.2 b (y ++ [b])))).
  by rewrite expect_bind, expect_draw.
Qed.
Lemma ancestral_lm_loop_EOS n self transform pq_a (y : list Sym) :
  Sampler._ancestral_lm_loop n self transform pq_a EOS y = Ret y.
Proof. by destruct n. Qed.

Lemma values_failed (k_pl : list pyobj → num) (k_lm : list Sym → num) n self
    transform q y_pl y_lm :
  (∀ Z, Sampler.Zq_at self q = Ok Z → fis_zero Z = true) →
  pl_value k_pl n self q y_pl = fzero
  ∧ lm_value k_lm n self transform q y_lm = fzero.
Proof.
  intros Hbad. unfold pl_value, lm_value.
  destruct (Sampler.Zq_at self q) as [Z|e] eqn:HZ.
  - rewrite (zero_mass_options _ _ _ HZ), (zero_mass_tables _ _ _ HZ);
      by try apply Hbad.
  - split.
    + unfold Sampler.Zq_at in HZ. unfold Sampler.options_at.
      destruct (Sampler.scaled_sum self _) as [s|]; [|done]. simpl in *.
      destruct (Sampler._w self _) as [r|]; [done|]. done.
    + unfold Sampler.lm_tables. by rewrite HZ.
Qed.

Lemma pl_value_good (k : list pyobj → num) n self q y Z :
  well_formed self → Sampler.Zq_at self q = Ok Z → fis_zero Z = false →
  pl_value k n self q y
  = fadd (fsum ((λ e, fmul (fquot (Sampler.scaled self e.2) Z)
                        (expect k (Sampler._ancestral_loop n self
                                     (PState e.1.2) (y ++ [PSym e.1.1]))))
                  <$> FSA.arcs (Sampler.A self) q))
         (fmul (fquot (Sampler.scaled self (Sampler.ρ self q)) Z) (k y)).
Proof.
  intros Hwf HZ Hnz. unfold pl_value.
  rewrite (options_closed _ _ _ HZ Hnz) by apply Hwf.
  unfold options_of. rewrite dsum_app, dsum_singleton. f_equal.
  - by rewrite (dsum_fmap (λ e, (PSym e.1.1, PState e.1.2))).
  - simpl. by rewrite ancestral_loop_stop.
Qed.

Lemma lm_value_good (k : list Sym → num) n self q y Z :
  well_formed self → Sampler.Zq_at self q = Ok Z → fis_zero Z = false →
  lm_value k n self identity_transform q y
  = fadd (fsum ((λ b, fmul (fquot (Zqa_of self q b) Z)
                        (expect k (Sampler._ancestral_lm_loop n self
                                     identity_transform (pq_a_of self q) b
                                     (y ++ [b]))))
                  <$> elements (FSA.Sigma (Sampler.A self))))
         (fmul (fquot (Sampler.scaled self (Sampler.ρ self q)) Z)
               (k (y ++ [EOS]))).
Proof.
  intros Hwf HZ Hnz. unfold lm_value.
  rewrite (tables_closed _ _ _ HZ Hnz) by (apply exact_positive || apply Hwf).
  cbn [fst snd]. unfold identity_transform, pa_of.
  rewrite dsum_app, dsum_singleton. f_equal.
  - by rewrite (dsum_fmap id).
  - by rewrite ancestral_lm_loop_EOS.
Qed.
Lemma Zqa_of_filter self q b :
  Zqa_of self q b
  = fsum ((λ e, Sampler.scaled self e.2)
            <$> filter (λ e, e.1.1 = b) (FSA.arcs (Sampler.A self) q)).
Proof.
  unfold Zqa_of, Sampler.scaled_mass.
  rewrite (scaled_omap_filter _ (λ c _, bool_decide (c = b))). f_equal. f_equal.
  apply list_filter_iff. intros e. by rewrite bool_decide_eq_true.
Qed.

Lemma Zqaq_of_filter self q b qʼ :
  Zqaq_of self q b qʼ
  = fsum ((λ e, Sampler.scaled self e.2)
            <$> filter (λ e, e.1.1 = b ∧ qʼ = e.1.2)
                       (FSA.arcs (Sampler.A self) q)).
Proof.
  unfold Zqaq_of, Sampler.scaled_mass.
  rewrite (scaled_omap_filter _
             (λ c qʼʼ, bool_decide (c = b) && bool_decide (qʼ = qʼʼ))).
  f_equal. f_equal. apply list_filter_iff. intros e.
  by rewrite andb_true_iff, !bool_decide_eq_true.
Qed.

(** An iteration of the autoregressive loop on a symbol of the alphabet:
    the belief of the symbol is drawn from, if its mass is positive. *)
Lemma expect_lm_symbol (k : list Sym → num) n self q b y :
  well_formed self → b ∈ FSA.Sigma (Sampler.A self) →
  expect k (Sampler._ancestral_lm_loop (S n) self identity_transform
              (pq_a_of self q) b y)
  = if fpos (Zqa_of self q b)
    then fsum ((λ qʼ, fmul (fquot (Zqaq_of self q b qʼ) (Zqa_of self q b))
                        (lm_value k n self identity_transform qʼ y))
                 <$> elements (FSA.Q (Sampler.A self)))
    else fzero.
Proof.
  intros Hwf Hb. rewrite expect_ancestral_lm_loop.
  rewrite bool_decide_true by (intros ->; by apply (wf_EOS _ Hwf)).
  unfold dict_item, pq_a_of. rewrite (dict_get_fmap (belief_of self q)).
  destruct (fpos (Zqa_of self q b)) eqn:Hpos.
  - rewrite decide_True.
    + unfold belief_of. by rewrite (dsum_fmap id).
    + apply list_elem_of_filter. split; [done|]. by apply elem_of_elements.
  - rewrite decide_False; [done|].
    intros [Hp _]%list_elem_of_filter. congruence.
Qed.

(** From a state on, the two modes weigh alike the sequences they go on to
    return: the plain mode its output, the autoregressive mode its output
    closed by the end-of-sequence marker. *)
Lemma values_agree (k_pl : list pyobj → num) (k_lm : list Sym → num) self :
  well_formed self →
  ∀ n q y_pl y_lm,
    (∀ z, k_lm (y_lm ++ z ++ [EOS]) = k_pl (y_pl ++ (PSym <$> z))) →
    pl_value k_pl n self q y_pl
    = lm_value k_lm n self identity_transform q y_lm.
Proof.
  intros Hwf n. induction n as [|n IH]; intros q y_pl y_lm Hk.
  - destruct (Sampler.Zq_at self q) as [Z|e] eqn:HZ;
      [destruct (fis_zero Z) eqn:Hnz|].
    + destruct (values_failed k_pl k_lm 0 self identity_transform q y_pl y_lm)
        as [-> ->]; [|done]. intros Z' HZ'. congruence.
    + rewrite (pl_value_good _ _ _ _ _ Z), (lm_value_good _ _ _ _ _ Z) by done.
      f_equal.
      * rewrite !fsum_zero; [done| |].
        -- intros b Hb%elem_of_elements. simpl.
           rewrite bool_decide_true by (intros ->; by apply (wf_EOS _ Hwf)).
           simpl. ring.
        -- intros e _. simpl. ring.
      * f_equal. specialize (Hk []). simpl in Hk. by rewrite app_nil_r in Hk.
    + destruct (values_failed k_pl k_lm 0 self identity_transform q y_pl y_lm)
        as [-> ->]; [|done]. intros Z' HZ'. congruence.
  - destruct (Sampler.Zq_at self q) as [Z|e] eqn:HZ;
      [destruct (fis_zero Z) eqn:Hnz|].
    + destruct (values_failed k_pl k_lm (S n) self identity_transform q
                  y_pl y_lm) as [-> ->]; [|done]. intros Z' HZ'. congruence.
    + rewrite (pl_value_good _ _ _ _ _ Z), (lm_value_good _ _ _ _ _ Z) by done.
      f_equal.
      * set (F := λ (b : Sym) (qʼ : State),
                    lm_value k_lm n self identity_transform qʼ (y_lm ++ [b])).
        rewrite (fsum_ext _
          (λ e, fmul (fquot (Sampler.scaled self e.2) Z) (F e.1.1 e.1.2))).
        2:{ intros e _. rewrite expect_ancestral_loop. unfold F.
            rewrite (IH _ _ (y_lm ++ [e.1.1])); [done|]. intros z.
            rewrite <-!app_assoc. simpl. apply (Hk (e.1.1 :: z)). }
        rewrite (fsum_ext
          (λ b, fmul (fquot (Zqa_of self q b) Z)
                  (expect k_lm (Sampler._ancestral_lm_loop (S n) self
                     identity_transform (pq_a_of self q) b (y_lm ++ [b]))))
          (λ b,
             let M b := fsum ((λ e, Sampler.scaled self e.2)
                         <$> filter (λ e, e.1.1 = b)
                                    (FSA.arcs (Sampler.A self) q)) in
             let M2 b qʼ := fsum ((λ e, Sampler.scaled self e.2)
                         <$> filter (λ e, e.1.1 = b ∧ qʼ = e.1.2)
                                    (FSA.arcs (Sampler.A self) q)) in
             fmul (fquot (M b) Z)
               (if fpos (M b)
                then fsum ((λ qʼ, fmul (fquot (M2 b qʼ) (M b)) (F b qʼ))
                             <$> elements (FSA.Q (Sampler.A self)))
                else fzero))).
        2:{ intros b Hb%elem_of_elements. cbv zeta.
            rewrite (expect_lm_symbol _ _ _ _ _ _ Hwf Hb).
            rewrite <-Zqa_of_filter. f_equal.
            destruct (fpos (Zqa_of self q b)); [|done].
            apply fsum_ext. intros qʼ _. by rewrite <-Zqaq_of_filter. }
        symmetry.
        apply (marginal_then_conditional (Sampler.scaled self)
                 (FSA.arcs (Sampler.A self) q)
                 (elements (FSA.Sigma (Sampler.A self)))
                 (elements (FSA.Q (Sampler.A self))) Z F);
          [apply NoDup_elements..|].
        intros e He. rewrite !elem_of_elements.
        split; [by eapply wf_arc_symbol|].
        split; [by eapply wf_arc_state|by eapply wf_nonneg].
      * f_equal. specialize (Hk []). simpl in Hk. by rewrite app_nil_r in Hk.
    + destruct (values_failed k_pl k_lm (S n) self identity_transform q
                  y_pl y_lm) as [-> ->]; [|done]. intros Z' HZ'. congruence.
Qed.
End Agreement.



Section SameDistribution.
Context {num G : Type} `{ExactFloat num}.
Implicit Types (self : @Sampler.t num G).

Add Ring num_semiring''' : exact_semiring.

Lemma expect_lift_bind {A B : Type} (k : B → num) (r : result A)
    (f : A → prog num B) :
  expect k (lift r ≫= f)
  = match r with Ok a => expect k (f a) | Err _ => fzero end.
Proof. by destruct r. Qed.

Lemma dsum_zero {K : Type} (d : dict K num) (F : K → num) :
  (∀ c, F c = fzero) → dsum d F = fzero.
Proof.
  intros HF. unfold dsum. apply fsum_zero. intros [c v] _. simpl.
  rewrite HF. ring.
Qed.

(** C3.  Autoregressive sampling with the identity transform induces the
    same distribution over symbol sequences as plain ancestral sampling: in
    exact arithmetic and on a well-formed automaton (non-negative scaled
    weights, one arc per source, label and destination, the end marker
    outside the alphabet), at every temperature and with every budget for
    the loops, the probability that [_ancestral_lm] returns the symbols [t]
    (between the two markers it returns them in) is the probability that
    [_ancestral] returns [t]. *)
Theorem lm_identity_same_distribution self (fuel : nat) (t : list Sym) :
  well_formed self →
  weight (λ out, bool_decide (out = Symbols (PSym <$> (ε :: t ++ [EOS]))))
         (Sampler._ancestral_lm self false identity_transform fuel)
  = weight (λ out, bool_decide (out = Symbols (PSym <$> t)))
           (Sampler._ancestral self false fuel).
Proof.
  intros Hwf. unfold weight, Sampler._ancestral_lm, Sampler._ancestral.
  rewrite !expect_lift_bind.
  destruct (Sampler.initial_dist self) as [d|e]; [|done].
  rewrite !expect_bind, expect_draw.
  set (k_lm := λ y : list Sym,
         if bool_decide (Symbols (PSym <$> y)
                         = Symbols (PSym <$> (ε :: t ++ [EOS])))
         then fone else fzero : num).
  set (k_pl := λ y : list pyobj,
         if bool_decide (Symbols y = Symbols (PSym <$> t))
         then fone else fzero : num).
  rewrite (expect_ext _ k_lm) by done.
  rewrite (dsum_ext _ _
    (λ q, expect k_pl (Sampler._ancestral_loop fuel self (PState q) []))).
  2:{ intros q v _. rewrite expect_bind. by apply expect_ext. }
  destruct fuel as [|n].
  - rewrite dsum_zero; done.
  - rewrite expect_ancestral_lm_loop.
    rewrite (dsum_ext d _ (λ q, pl_value k_pl n self q []))
      by (intros q v _; apply expect_ancestral_loop).
    rewrite bool_decide_eq_true_2 by done.
    replace (dict_item ε [(ε, d)]) with (Ok d : result (dict State num))
      by reflexivity.
    apply dsum_ext. intros q v _.
    symmetry. apply values_agree; [done|]. intros z.
    unfold k_lm, k_pl. apply (f_equal (λ b : bool, if b then fone else fzero)).
    apply bool_decide_ext. simpl. rewrite !fmap_app. simpl. split.
    + intros [= Heq%app_inv_tail]. by f_equal.
    + intros [= ->]. done.
Qed.
End SameDistribution.

(** The rationals are an exact arithmetic. *)
Global Instance Qc_exact : ExactFloat Qc.
Proof.
  split.
  - split; intros; cbn; ring.
  - intros x z. cbn. unfold Qcdiv. ring.
  - intros z Hz. cbn in *. apply bool_decide_eq_false in Hz. by field.
  - intros x. cbn. apply bool_decide_eq_true.
  - intros x Hx. cbn in *. apply bool_decide_eq_true in Hx.
    apply bool_decide_eq_false. intros ->. by apply (irreflexivity Qclt 0%Qc).
  - assert (∀ x : Qc, fnonneg x ↔ (0 ≤ x)%Qc) as Hnn.
    { intros x. unfold fnonneg. cbn. rewrite bool_decide_eq_true. split.
      - intros [?| ->]; [by apply Qclt_le_weak|done].
      - intros [?| <-]%Qcle_lt_or_eq; [by left|by right]. }
    intros x y. rewrite !Hnn. apply Qcplus_nonneg_nonneg.
  - assert (∀ x : Qc, fnonneg x ↔ (0 ≤ x)%Qc) as Hnn.
    { intros x. unfold fnonneg. cbn. rewrite bool_decide_eq_true. split.
      - intros [?| ->]; [by apply Qclt_le_weak|done].
      - intros [?| <-]%Qcle_lt_or_eq; [by left|by right]. }
    intros x y. rewrite !Hnn. cbn. rewrite bool_decide_eq_false.
    intros Hx Hy Hxy.
    apply Qcle_lt_or_eq in Hx as [Hx| <-].
    { destruct Hxy. by apply Qcplus_pos_nonneg. }
    split; [done|].
    apply Qcle_lt_or_eq in Hy as [Hy| <-]; [|done].
    destruct Hxy. by rewrite Qcplus_0_l.
Qed.

(** The one-state loop is a well-formed probabilistic automaton. *)
Lemma loop_sampler_well_formed g : well_formed (loop_sampler g).
Proof.
  assert (∀ q e, e ∈ FSA.arcs loop_fsa q
                 → e = (mkSym "a", mkState 0, Q2Qc (1 # 2))) as Harc.
  { intros q e. unfold FSA.arcs. simpl. case_decide; [|by intros ?%elem_of_nil].
    by intros ->%list_elem_of_singleton. }
  split; simpl.
  - intros q. unfold FSA.arcs. simpl.
    case_decide; simpl; [apply NoDup_singleton|apply NoDup_nil_2].
  - intros q e ->%Harc. simpl. by apply elem_of_singleton.
  - intros q e ->%Harc. simpl. by apply elem_of_singleton.
  - intros Hin%elem_of_singleton. discriminate Hin.
  - intros q e ->%Harc. left. vm_compute. reflexivity.
Qed.

Lemma lm_identity_same_distribution_witness :
  well_formed (loop_sampler 0)
  ∧ weight (λ out, bool_decide
              (out = Symbols (PSym <$> (ε :: [mkSym "a"] ++ [EOS]))))
           (Sampler._ancestral_lm (loop_sampler 0) false identity_transform 2)
    = weight (λ out, bool_decide (out = Symbols (PSym <$> [mkSym "a"])))
             (Sampler._ancestral (loop_sampler 0) false 2).
Proof.
  split; [apply loop_sampler_well_formed|].
  exact (lm_identity_same_distribution (loop_sampler 0) 2 [mkSym "a"]
           (loop_sampler_well_formed 0)).
Defined.

(** On the one-state loop both procedures return the one-symbol sequence
    with probability 1/4: one arc of probability 1/2, then the stop of
    probability 1/2. *)
Lemma lm_identity_example :
  weight (λ out, bool_decide (out = Symbols (PSym <$> [ε; mkSym "a"; EOS])))
         (Sampler._ancestral_lm (loop_sampler 0) false identity_transform 2)
  = Q2Qc (1 # 4)
  ∧ weight (λ out, bool_decide (out = Symbols [PSym (mkSym "a")]))
           (Sampler._ancestral (loop_sampler 0) false 2)
    = Q2Qc (1 # 4).
Proof.
  split; apply (bool_decide_unpack _); vm_compute; exact I.
Qed.

(** ** [Sampler.sample]: the list of samples *)
Section SampleList.
Context {num G : Type} `{PyFloat num} `{Generator num G}.
Implicit Types (self : @Sampler.t num G).

Lemma run_repeatM_S {A : Type} (m : prog num A) n (g : G) :
  run (repeatM (S n) m) g
  = outcome_then (run m g) (λ x g1,
      outcome_map (cons x) (run (repeatM n m) g1)).
Proof.
  simpl. first [rewrite run_bind|rewrite run_prog_bind].
  destruct (run m g) as [x g1| |]; [|done..]. simpl.
  first [rewrite run_bind|rewrite run_prog_bind].
  by destruct (run (repeatM n m) g1).
Qed.

Lemma run_repeatM_length {A : Type} (m : prog num A) n (g g' : G) xs :
  run (repeatM n m) g = Returned xs g' → length xs = n.
Proof.
  revert g xs. induction n as [|n IH]; intros g xs.
  { simpl. intros Heq. by simplify_eq. }
  rewrite run_repeatM_S.
  destruct (run m g) as [x g1| |]; [|done..]. simpl.
  destruct (run (repeatM n m) g1) as [xs' g2| |] eqn:Hxs; [|done..].
  intros [= <- <-]. simpl. f_equal. by eapply IH.
Qed.

Lemma run_repeatM_add {A : Type} (m : prog num A) n1 n2 (g : G) :
  run (repeatM (n1 + n2) m) g
  = outcome_then (run (repeatM n1 m) g) (λ xs1 g1,
      outcome_map (app xs1) (run (repeatM n2 m) g1)).
Proof.
  revert g. induction n1 as [|n1 IH]; intros g.
  { simpl. by destruct (run (repeatM n2 m) g). }
  change (S n1 + n2) with (S (n1 + n2)). rewrite !run_repeatM_S.
  destruct (run m g) as [x g1| |]; [|done..]. simpl. rewrite IH.
  destruct (run (repeatM n1 m) g1) as [xs1 g2| |]; [|done..]. simpl.
  by destruct (run (repeatM n2 m) g2).
Qed.

Lemma run_repeatM_map {A B : Type} (f : A → B) (m : prog num A)
    (m' : prog num B) n (g : G) :
  (∀ g, run m' g = outcome_map f (run m g)) →
  run (repeatM n m') g = outcome_map (fmap f) (run (repeatM n m) g).
Proof.
  intros Hm. revert g. induction n as [|n IH]; intros g; [done|].
  rewrite !run_repeatM_S, Hm.
  destruct (run m g) as [x g1| |]; [|done..]. simpl. rewrite IH.
  by destruct (run (repeatM n m) g1).
Qed.

(** X1.  [sample] returns as many samples as were asked for: none, with the
    generator untouched, for a [K] that is not positive, and [K] of them
    whenever it returns. *)
Theorem sample_count self (K : Z) to_string transform lm fuel (g : G) :
  ((K ≤ 0)%Z →
     run (Sampler.sample self K to_string transform lm fuel) g
     = Returned [] g)
  ∧ (∀ ys g',
       run (Sampler.sample self K to_string transform lm fuel) g
       = Returned ys g' →
       length ys = Z.to_nat K).
Proof.
  unfold Sampler.sample. split.
  - intros HK. replace (Z.to_nat K) with 0 by lia. by destruct lm.
  - intros ys g'. destruct lm; apply run_repeatM_length.
Qed.

(** X2.  One call for [K1 + K2] samples is a call for [K1] samples followed by a
    call for [K2] samples on the generator that the first call left: the
    same samples in the same order, the same error, the same final
    generator. *)
Theorem sample_split self (K1 K2 : Z) to_string transform lm fuel (g : G) :
  (0 ≤ K1)%Z → (0 ≤ K2)%Z →
  run (Sampler.sample self (K1 + K2) to_string transform lm fuel) g
  = outcome_then
      (run (Sampler.sample self K1 to_string transform lm fuel) g)
      (λ ys1 g1,
         outcome_map (app ys1)
           (run (Sampler.sample self K2 to_string transform lm fuel) g1)).
Proof.
  intros H1 H2. unfold Sampler.sample.
  rewrite Z2Nat.inj_add by done. destruct lm; apply run_repeatM_add.
Qed.

Lemma render_to_text y : Sampler.render true y = to_text (Sampler.render false y).
Proof. done. Qed.

Lemma run_ancestral_to_string self fuel (g : G) :
  run (Sampler._ancestral self true fuel) g
  = outcome_map to_text (run (Sampler._ancestral self false fuel) g).
Proof.
  unfold Sampler._ancestral. rewrite !run_lift_bind.
  destruct (Sampler.initial_dist self) as [d|e]; [|done].
  rewrite !run_bind. destruct (run (Sampler._draw d) g) as [q g1| |]; [|done..].
  rewrite !run_bind.
  by destruct (run (Sampler._ancestral_loop fuel self (PState q) []) g1).
Qed.

Lemma run_ancestral_lm_to_string self transform fuel (g : G) :
  run (Sampler._ancestral_lm self true transform fuel) g
  = outcome_map to_text
      (run (Sampler._ancestral_lm self false transform fuel) g).
Proof.
  unfold Sampler._ancestral_lm. rewrite !run_lift_bind.
  destruct (Sampler.initial_dist self) as [d|e]; [|done].
  rewrite !run_bind.
  by destruct (run (Sampler._ancestral_lm_loop fuel self transform _ ε [ε]) g).
Qed.

(** X3.  [to_string] changes how the samples are returned and nothing else: on
    the same generator, the call with [to_string=True] makes the same draws,
    raises the same error and leaves the same generator as the call with
    [to_string=False], and its samples are the concatenations of [str] of
    the symbols of the other's samples. *)
Theorem sample_to_string self (K : Z) transform lm fuel (g : G) :
  run (Sampler.sample self K true transform lm fuel) g
  = outcome_map (fmap to_text)
      (run (Sampler.sample self K false transform lm fuel) g).
Proof.
  unfold Sampler.sample. destruct lm; apply run_repeatM_map; intros g0.
  - apply run_ancestral_lm_to_string.
  - apply run_ancestral_to_string.
Qed.
End SampleList.

(** ** [Sampler._draw] *)
Section Draw.
Context {num G : Type} `{PyFloat num} `{Generator num G}.
Context `{!GeneratorLaws num G}.

(** What a draw from a dictionary comes to: a candidate of positive
    weight, or the [ValueError] of the generator. *)
Lemma run_draw {K : Type} (options : dict K num) (g : G) :
  (∃ i k v g', options !! i = Some (k, v) ∧ fpos v = true
               ∧ choice g (values options) = Some (i, g')
               ∧ run (Sampler._draw options) g = Returned k g')
  ∨ (choice g (values options) = None
     ∧ run (Sampler._draw options) g = Raised ValueError).
Proof.
  unfold Sampler._draw. simpl.
  destruct (choice g (values options)) as [[i g']|] eqn:Hc; [left|by right].
  destruct (choice_positive _ _ _ _ Hc) as (x & Hx & Hpos).
  unfold values in Hx. rewrite list_lookup_fmap in Hx.
  apply fmap_Some in Hx as ([k v] & Hi & ->).
  exists i, k, v, g'. unfold keys. rewrite list_lookup_fmap, Hi. done.
Qed.

(** X4.  [_draw] returns one of the candidates it is given, and one whose weight
    is positive; given no candidates it raises the [ValueError] of the
    generator; it raises nothing else, and always ends. *)
Theorem draw_candidate {K : Type} (options : dict K num) (g : G) :
  (options = [] → run (Sampler._draw options) g = Raised ValueError)
  ∧ (∀ k g', run (Sampler._draw options) g = Returned k g' →
       ∃ i v, options !! i = Some (k, v) ∧ fpos v = true)
  ∧ (∀ e, run (Sampler._draw options) g = Raised e → e = ValueError)
  ∧ run (Sampler._draw options) g ≠ Hung.
Proof.
  split; [|split; [|split]].
  - intros ->. unfold Sampler._draw. simpl. by rewrite choice_empty.
  - intros k g' Hrun.
    destruct (run_draw options g)
      as [(i & k' & v & g'' & Hi & Hv & _ & Hr)|[_ Hr]];
      rewrite Hr in Hrun; [|done].
    injection Hrun as <- <-. eauto.
  - intros e Hrun.
    destruct (run_draw options g)
      as [(i & k' & v & g'' & Hi & Hv & _ & Hr)|[_ Hr]];
      rewrite Hr in Hrun; [done|]. by injection Hrun as <-.
  - intros Hrun.
    destruct (run_draw options g)
      as [(i & k' & v & g'' & Hi & Hv & _ & Hr)|[_ Hr]];
      rewrite Hr in Hrun; done.
Qed.
End Draw.

(** ** Temperature zero *)
Section ZeroTemperature.
Context {num G : Type} `{PyFloat num} `{Generator num G}.
Implicit Types (self : @Sampler.t num G).

Lemma w_zero_temperature self w :
  fis_zero (Sampler.T self) = true → Sampler._w self w = Err ZeroDivisionError.
Proof. intros HT. unfold Sampler._w. by rewrite pydiv_zero. Qed.

Lemma initial_dist_zero_temperature self :
  fis_zero (Sampler.T self) = true → FSA.init (Sampler.A self) ≠ ∅ →
  Sampler.initial_dist self = Err ZeroDivisionError.
Proof.
  intros HT Hinit. unfold Sampler.initial_dist, Sampler.scaled_sum, FSA.I.
  destruct (map_to_list (FSA.init (Sampler.A self))) as [|[p w] l] eqn:Hl.
  { by apply map_to_list_empty_iff in Hl. }
  rewrite fmap_cons. simpl. by rewrite w_zero_temperature.
Qed.

(** X5.  At temperature 0 the exponent [1 / self.T] cannot be computed: on an
    automaton with an initial state, every call of [sample] that asks for a
    sample raises [ZeroDivisionError], in both modes, before anything is
    drawn. *)
Theorem zero_temperature_raises self (K : Z) to_string transform lm fuel
    (g : G) :
  fis_zero (Sampler.T self) = true →
  FSA.init (Sampler.A self) ≠ ∅ →
  (0 < K)%Z →
  run (Sampler.sample self K to_string transform lm fuel) g
  = Raised ZeroDivisionError.
Proof.
  intros HT Hinit HK. unfold Sampler.sample.
  destruct (Z.to_nat K) as [|n] eqn:Hn; [lia|].
  destruct lm; rewrite run_repeatM_S.
  - unfold Sampler._ancestral_lm.
    by rewrite run_lift_bind, initial_dist_zero_temperature.
  - unfold Sampler._ancestral.
    by rewrite run_lift_bind, initial_dist_zero_temperature.
Qed.
End ZeroTemperature.

(** ** A draw followed by the rest of a run *)
Section DrawBind.
Context {num G : Type} `{PyFloat num} `{Generator num G}.
Context `{!GeneratorLaws num G}.

Lemma run_draw_bind {K B : Type} (options : dict K num)
    (f : K → prog num B) (g : G) :
  (∃ i k v g', options !! i = Some (k, v) ∧ fpos v = true
               ∧ run (Sampler._draw options ≫= f) g = run (f k) g')
  ∨ run (Sampler._draw options ≫= f) g = Raised ValueError.
Proof.
  rewrite run_bind.
  destruct (run_draw options g)
    as [(i & k & v & g' & Hi & Hv & _ & ->)|[_ ->]]; [left|by right].
  by exists i, k, v, g'.
Qed.
End DrawBind.

(** ** The samples of [_ancestral] are paths of the automaton *)
Section AncestralPath.
Context {num G : Type} `{PyFloat num} `{Generator num G}.
Context `{!GeneratorLaws num G}.
Implicit Types (self : @Sampler.t num G) (q : State).

Lemma ancestral_loop_path fuel self q y (g g' : G) y' :
  run (Sampler._ancestral_loop fuel self (PState q) y) g = Returned y' g' →
  ∃ π qn,
    walk (Sampler.A self) (λ q e, drawable self q e.2) q π qn
    ∧ drawable self qn (Sampler.ρ self qn)
    ∧ y' = y ++ (PSym <$> labels π).
Proof.
  revert q y g. induction fuel as [|fuel IH]; intros q y g; [done|].
  cbn [Sampler._ancestral_loop]. unfold py_ne at 1.
  rewrite bool_decide_eq_true_2 by done.
  rewrite run_lift_bind.
  destruct (Sampler.options_at self q) as [options|e'] eqn:Ho; [|done].
  destruct (run_draw_bind options
    (λ '(a, q), Sampler._ancestral_loop fuel self q
                  (if py_ne a (PInt 0) then y ++ [a] else y)) g)
    as [(i & [a qʼ] & v & g1 & Hi & Hv & ->)| ->]; [|done].
  destruct (options_at_entries _ _ _ Ho)
    as (Z & xρ & opts & HZ & HZnz & Hρ & -> & Hent & _).
  apply list_elem_of_lookup_2, elem_of_app in Hi as [Hin|Hin].
  - destruct (Hent _ _ Hin) as (b & qʼʼ & w & x & Harc & [= -> ->] & Hw & ->).
    unfold py_ne. rewrite bool_decide_eq_true_2 by done.
    intros (π & qn & Hwalk & Hstop & ->)%IH.
    exists ((b, qʼʼ, w) :: π), qn. split; [|split; [done|]].
    + split; [done|]. split; [|done].
      exists (fquot x Z). split; [|done].
      unfold step_prob. rewrite HZ. simpl. rewrite Hw. simpl.
      by apply pydiv_nonzero.
    + by rewrite <-app_assoc.
  - apply list_elem_of_singleton in Hin. injection Hin as -> -> ->.
    rewrite ancestral_loop_stop. simpl. intros [= <- <-].
    exists [], q. split; [done|]. split; [|by rewrite app_nil_r].
    exists (fquot xρ Z). split; [|done].
    unfold step_prob. rewrite HZ. simpl. rewrite Hρ. simpl.
    by apply pydiv_nonzero.
Qed.

(** X6.  Every sample that [_ancestral] returns is read off a path of the
    automaton: the path starts at an initial state, each of its arcs had a
    positive probability at its source, stopping had a positive probability
    at its last state, and the sample is the sequence of its symbols (or
    their concatenation). *)
Theorem ancestral_returns_path self to_string fuel (g g' : G) out :
  run (Sampler._ancestral self to_string fuel) g = Returned out g' →
  ∃ q0 π qn,
    q0 ∈ dom (FSA.init (Sampler.A self))
    ∧ walk (Sampler.A self) (λ q e, drawable self q e.2) q0 π qn
    ∧ drawable self qn (Sampler.ρ self qn)
    ∧ out = Sampler.render to_string (PSym <$> labels π).
Proof.
  unfold Sampler._ancestral. rewrite run_lift_bind.
  destruct (Sampler.initial_dist self) as [d|e'] eqn:Hd; [|done].
  destruct (run_draw_bind d
    (λ q, y ← Sampler._ancestral_loop fuel self (PState q) [];
          Ret (Sampler.render to_string y)) g)
    as [(i & q0 & v & g1 & Hi & Hv & ->)| ->]; [|done].
  rewrite run_bind.
  destruct (run (Sampler._ancestral_loop fuel self (PState q0) []) g1)
    as [y g2| |] eqn:Hloop; [|done..].
  simpl. intros [= <- <-].
  apply ancestral_loop_path in Hloop as (π & qn & Hwalk & Hstop & ->).
  exists q0, π, qn. split; [|done].
  destruct (initial_dist_entries _ _ Hd) as (Z & _ & Hent).
  apply list_elem_of_lookup_2 in Hi.
  destruct (Hent _ _ Hi) as (w & x & Hin & _).
  unfold FSA.I in Hin. apply elem_of_map_to_list in Hin.
  apply elem_of_dom. eauto.
Qed.
End AncestralPath.

(** ** Dictionaries keep one entry per key *)
Section DictNoDup.
Context {K V : Type} `{EqDecision K}.
Implicit Types (d : dict K V).

Lemma NoDup_keys_dict_set k v d : NoDup (keys d) → NoDup (keys (dict_set k v d)).
Proof.
  unfold keys. induction d as [|[k0 v0] d IH]; simpl.
  { intros _. apply NoDup_singleton. }
  rewrite NoDup_cons. intros [Hk0 Hd]. case_decide; simpl.
  - apply NoDup_cons. done.
  - apply NoDup_cons. split; [|by apply IH].
    intros Hin. apply Hk0.
    apply (keys_dict_set k v d k0) in Hin as [?|?]; [congruence|done].
Qed.

Lemma dict_comp_from_NoDup {X : Type} (key : X → K) (val : X → result V)
    (xs : list X) d d' :
  dict_comp_from key val xs d = Ok d' → NoDup (keys d) → NoDup (keys d').
Proof.
  revert d. induction xs as [|x xs IH]; intros d; simpl.
  { by intros [= <-]. }
  destruct (val x) as [v|]; [|done]. simpl. intros Hd' Hd.
  eapply IH; [done|]. by apply NoDup_keys_dict_set.
Qed.

Lemma dict_set_entry k v d v' :
  NoDup (keys d) → (k, v') ∈ dict_set k v d → v' = v.
Proof.
  unfold keys. induction d as [|[k0 v0] d IH]; simpl.
  { by intros _ [= ->]%list_elem_of_singleton. }
  rewrite NoDup_cons. intros [Hk0 Hd]. case_decide as Hk; simpl.
  - subst k0. intros [[= ->]|Hin]%elem_of_cons; [done|].
    destruct Hk0. apply list_elem_of_fmap. by exists (k, v').
  - intros [[= -> ->]|Hin]%elem_of_cons; [done|]. by apply IH.
Qed.
End DictNoDup.

(** ** The tables of one iteration of [_ancestral_lm] *)
Section LMTables.
Context {num G : Type} `{PyFloat num}.
Implicit Types (self : @Sampler.t num G) (q : State).

Lemma pa_at_EOS self q Zq pa v :
  Sampler.pa_at self q Zq = Ok pa → (EOS, v) ∈ pa →
  ∃ x, Sampler._w self (Sampler.ρ self q) = Ok x ∧ v = fquot x Zq.
Proof.
  unfold Sampler.pa_at. intros Hpa Hin.
  destruct (dict_comp _ _ _) as [pa0|] eqn:Hpa0; [|done]. simpl in Hpa.
  destruct (Sampler._w self (Sampler.ρ self q)) as [x|]; [|done].
  simpl in Hpa. destruct (pydiv x Zq) as [p|] eqn:Hp; [|done].
  injection Hpa as <-. apply pydiv_Ok in Hp as [_ ->].
  exists x. split; [done|]. eapply dict_set_entry; [|done].
  eapply dict_comp_from_NoDup; [done|]. apply NoDup_nil_2.
Qed.

Lemma pq_a_from_entries self q Zqa bs d pq :
  Sampler.pq_a_from self q Zqa bs d = Ok pq →
  ∀ b inner, (b, inner) ∈ pq →
    (b, inner) ∈ d
    ∨ ∃ z, dict_item b Zqa = Ok z ∧ fpos z = true
         ∧ dict_comp id
             (λ qʼ, m ← Sampler.mass self q
                          (λ c qʼʼ, bool_decide (c = b)
                                    && bool_decide (qʼ = qʼʼ));
                    pydiv m z)
             (elements (FSA.Q (Sampler.A self))) = Ok inner.
Proof.
  revert d. induction bs as [|b0 bs IH]; intros d Hpq; simpl in Hpq.
  { injection Hpq as <-. by left. }
  destruct (dict_item b0 Zqa) as [z|] eqn:Hz; [|done]. simpl in Hpq.
  destruct (fpos z) eqn:Hpos.
  - destruct (dict_comp _ _ _) as [inner0|] eqn:Hinner; [|done]. simpl in Hpq.
    intros b inner Hin.
    destruct (IH _ Hpq _ _ Hin) as [Hd|?]; [|by right].
    apply elem_of_dict_set in Hd as [[-> ->]|?]; [right|by left].
    by exists z.
  - by apply IH.
Qed.

(** X7.  What an iteration of [_ancestral_lm] computes at the state [q] it drew.
    The next-symbol distribution has one entry for every symbol of the
    alphabet, the scaled mass of the arcs with that symbol over [Zq], and
    one for the end marker, the scaled final weight over [Zq] (which takes
    the place of the entry of a symbol of the alphabet that is the end
    marker).  The belief of a symbol in the new belief map has one entry for
    every state of the automaton: the scaled mass of the arcs with that
    symbol to that state, over the scaled mass of the arcs with that symbol,
    which is positive. *)
Theorem lm_tables_entries self q pa pq :
  Sampler.lm_tables self q = Ok (pa, pq) →
  ∃ Zq,
    Sampler.Zq_at self q = Ok Zq
    ∧ NoDup (keys pa)
    ∧ (∀ b, b ∈ keys pa ↔ b = EOS ∨ b ∈ FSA.Sigma (Sampler.A self))
    ∧ (∀ v, (EOS, v) ∈ pa →
         ∃ x, Sampler._w self (Sampler.ρ self q) = Ok x ∧ v = fquot x Zq)
    ∧ (∀ b v, (b, v) ∈ pa → b ≠ EOS →
         ∃ m, Sampler.mass self q (λ c _, bool_decide (c = b)) = Ok m
              ∧ v = fquot m Zq)
    ∧ (∀ b belief, (b, belief) ∈ pq →
         (∀ qʼ, qʼ ∈ keys belief ↔ qʼ ∈ FSA.Q (Sampler.A self))
         ∧ ∀ qʼ v, (qʼ, v) ∈ belief →
             ∃ m z,
               Sampler.mass self q
                 (λ c qʼʼ, bool_decide (c = b) && bool_decide (qʼ = qʼʼ))
               = Ok m
               ∧ Sampler.mass self q (λ c _, bool_decide (c = b)) = Ok z
               ∧ fpos z = true ∧ v = fquot m z).
Proof.
  unfold Sampler.lm_tables. intros Ht.
  destruct (Sampler.Zq_at self q) as [Zq|]; [|done]. simpl in Ht.
  destruct (Sampler.Zqa_at self q) as [Zqa|] eqn:HZqa; [|done]. simpl in Ht.
  destruct (Sampler.pa_at self q Zq) as [pa'|] eqn:Hpa; [|done]. simpl in Ht.
  destruct (Sampler.pq_a_at self q Zqa) as [pq'|] eqn:Hpq; [|done].
  injection Ht as -> ->. exists Zq. split; [done|].
  pose proof (λ v, pa_at_EOS self q Zq pa v Hpa) as HEOS.
  pose proof Hpa as Hpa'. unfold Sampler.pa_at in Hpa'.
  destruct (dict_comp _ _ _) as [pa0|] eqn:Hpa0; [|done]. simpl in Hpa'.
  destruct (Sampler._w self (Sampler.ρ self q)) as [x|]; [|done].
  simpl in Hpa'. destruct (pydiv x Zq) as [p|]; [|done].
  injection Hpa' as <-.
  split; [|split; [|split; [exact HEOS|split]]].
  - apply NoDup_keys_dict_set.
    eapply dict_comp_from_NoDup; [done|]. apply NoDup_nil_2.
  - intros b. rewrite keys_dict_set, (dict_comp_from_keys _ _ _ _ _ Hpa0).
    unfold keys at 1. simpl. rewrite elem_of_nil.
    setoid_rewrite elem_of_elements. naive_solver.
  - intros b v Hin Hb.
    apply elem_of_dict_set in Hin as [[-> _]|Hin]; [done|].
    destruct (dict_comp_from_entries _ _ _ _ _ Hpa0 _ _ Hin)
      as [[]%elem_of_nil|(b' & _ & Hb' & Hval)].
    simpl in Hb'. subst b'.
    destruct (Sampler.mass self q _) as [m|]; [|done]. simpl in Hval.
    apply pydiv_Ok in Hval as [_ ->]. by exists m.
  - intros b belief Hin.
    destruct (pq_a_from_entries _ _ _ _ _ _ Hpq _ _ Hin)
      as [[]%elem_of_nil|(z & Hz & Hpos & Hcomp)].
    split.
    + intros qʼ. rewrite (dict_comp_from_keys _ _ _ _ _ Hcomp).
      unfold keys at 1. simpl. rewrite elem_of_nil.
      setoid_rewrite elem_of_elements. naive_solver.
    + intros qʼ v Hv.
      destruct (dict_comp_from_entries _ _ _ _ _ Hcomp _ _ Hv)
        as [[]%elem_of_nil|(x' & _ & Hx' & Hval)].
      simpl in Hx'. subst x'.
      destruct (Sampler.mass self q _) as [m|]; [|done]. simpl in Hval.
      apply pydiv_Ok in Hval as [_ ->]. exists m, z.
      split; [done|]. split; [|done].
      unfold dict_item in Hz. destruct (dict_get b Zqa) as [z'|] eqn:Hget;
        [|done]. injection Hz as ->. by eapply Zqa_at_get.
Qed.
End LMTables.

(** ** The temperature is applied to raw weights *)
Section TemperatureTables.
Context {num G : Type} `{PyFloat num}.
Implicit Types (self : @Sampler.t num G) (q : State).

Lemma sum_of_scaled_unique self ws Z Zʼ :
  sum_of_scaled self ws Z → sum_of_scaled self ws Zʼ → Z = Zʼ.
Proof.
  intros (xs & Hxs & ->) (xsʼ & Hxsʼ & ->). f_equal. revert xsʼ Hxsʼ.
  induction Hxs as [|w x ws xs Hx _ IH]; intros xsʼ Hxsʼ;
    inversion Hxsʼ as [|? xʼ ? xsʼʼ Hxʼ Hxsʼʼ]; subst; [done|].
  rewrite Hx in Hxʼ. injection Hxʼ as <-. f_equal. by apply IH.
Qed.

Lemma mass_sum_of_scaled self q keep m :
  Sampler.mass self q keep = Ok m →
  sum_of_scaled self (raw_weights self q keep) m.
Proof. apply scaled_sum_Ok. Qed.

Lemma Zq_at_sum_of_scaled self q Zq :
  Sampler.Zq_at self q = Ok Zq →
  ∃ s r, sum_of_scaled self (FSA.arcs (Sampler.A self) q).*2 s
         ∧ Sampler._w self (Sampler.ρ self q) = Ok r
         ∧ Zq = fadd s r.
Proof.
  unfold Sampler.Zq_at. intros HZ.
  destruct (Sampler.scaled_sum self _) as [s|] eqn:Hs; [|done]. simpl in HZ.
  destruct (Sampler._w self (Sampler.ρ self q)) as [r|]; [|done].
  injection HZ as <-. exists s, r. split; [|done].
  apply scaled_sum_Ok in Hs.
  replace ((FSA.arcs (Sampler.A self) q).*2)
    with ((λ '(_, _, w), w) <$> FSA.arcs (Sampler.A self) q); [done|].
  apply list_fmap_ext. by intros i [[a qʼ] w] _.
Qed.

(** C5.  The effective weight is [w ** (1 / T)], and it is raw weights that
    are scaled, before every normalisation of either mode.  The normaliser
    of the initial distribution is the sum of the scaled initial weights,
    and every initial state has its scaled weight over it.  The normaliser
    at a state is the sum of the scaled weights of its arcs plus its scaled
    final weight; the options of [_ancestral] and the next-symbol
    distribution of [_ancestral_lm] divide by it scaled arc weights, sums of
    scaled arc weights, and the scaled final weight.  A belief of
    [_ancestral_lm] divides sums of scaled arc weights by the sum of the
    scaled weights of the arcs of its symbol.  No quotient is scaled. *)
Theorem temperature_before_normalisation self :
  (∀ w, fis_zero (Sampler.T self) = false →
        Sampler._w self w = pypow w (fquot fone (Sampler.T self)))
  ∧ (∀ d, Sampler.initial_dist self = Ok d →
       ∃ Z, sum_of_scaled self (FSA.I (Sampler.A self)).*2 Z
          ∧ (∀ p, p ∈ keys d ↔ ∃ w, (p, w) ∈ FSA.I (Sampler.A self))
          ∧ ∀ p v, (p, v) ∈ d →
              ∃ w x, (p, w) ∈ FSA.I (Sampler.A self)
                   ∧ Sampler._w self w = Ok x ∧ v = fquot x Z)
  ∧ (∀ q options, Sampler.options_at self q = Ok options →
       ∃ s r, sum_of_scaled self (FSA.arcs (Sampler.A self) q).*2 s
            ∧ Sampler._w self (Sampler.ρ self q) = Ok r
            ∧ (∀ k, k ∈ keys options ↔
                 k = (PInt 0, PInt 0)
                 ∨ ∃ a qʼ w, (a, qʼ, w) ∈ FSA.arcs (Sampler.A self) q
                            ∧ k = (PSym a, PState qʼ))
            ∧ ∀ k v, (k, v) ∈ options →
                (k = (PInt 0, PInt 0) ∧ v = fquot r (fadd s r))
                ∨ (∃ a qʼ w x, (a, qʼ, w) ∈ FSA.arcs (Sampler.A self) q
                             ∧ k = (PSym a, PState qʼ)
                             ∧ Sampler._w self w = Ok x
                             ∧ v = fquot x (fadd s r)))
  ∧ (∀ q pa pq, Sampler.lm_tables self q = Ok (pa, pq) →
       ∃ s r, sum_of_scaled self (FSA.arcs (Sampler.A self) q).*2 s
            ∧ Sampler._w self (Sampler.ρ self q) = Ok r
            ∧ (∀ b, b ∈ keys pa ↔ b = EOS ∨ b ∈ FSA.Sigma (Sampler.A self))
            ∧ (∀ v, (EOS, v) ∈ pa → v = fquot r (fadd s r))
            ∧ (∀ b v, (b, v) ∈ pa → b ≠ EOS →
                 ∃ m, sum_of_scaled self
                        (raw_weights self q (λ c _, bool_decide (c = b))) m
                      ∧ v = fquot m (fadd s r))
            ∧ ∀ b belief, (b, belief) ∈ pq →
                ∃ z, sum_of_scaled self
                       (raw_weights self q (λ c _, bool_decide (c = b))) z
                     ∧ fpos z = true
                     ∧ (∀ qʼ, qʼ ∈ keys belief
                              ↔ qʼ ∈ FSA.Q (Sampler.A self))
                     ∧ ∀ qʼ v, (qʼ, v) ∈ belief →
                         ∃ m, sum_of_scaled self
                                (raw_weights self q
                                   (λ c qʼʼ, bool_decide (c = b)
                                             && bool_decide (qʼ = qʼʼ))) m
                              ∧ v = fquot m z).
Proof.
  split; [|split; [|split]].
  - intros w HT. unfold Sampler._w, pydiv. by rewrite HT.
  - intros d Hd.
    destruct (initial_dist_entries _ _ Hd) as (Z & HZ & Hent).
    exists Z. split; [by apply scaled_sum_Ok|]. split.
    + intros p. unfold Sampler.initial_dist in Hd. rewrite HZ in Hd.
      simpl in Hd. rewrite (dict_comp_from_keys _ _ _ _ _ Hd).
      unfold keys at 1. simpl. rewrite elem_of_nil. split.
      * intros [[]|([p' w] & Hin & <-)]. by exists w.
      * intros [w Hin]. right. by exists (p, w).
    + intros p v Hin.
      destruct (Hent p v Hin) as (w & x & ? & ? & _ & ?). eauto.
  - intros q options Ho.
    destruct (options_at_entries _ _ _ Ho)
      as (Z & xρ & opts & HZ & HZnz & Hρ & -> & Hent & Hkeys).
    destruct (Zq_at_sum_of_scaled _ _ _ HZ) as (s & r & Hs & Hr & ->).
    rewrite Hρ in Hr. injection Hr as <-.
    exists s, xρ. split; [done|]. split; [done|]. split.
    + intros k. unfold keys. rewrite fmap_app, elem_of_app. simpl.
      rewrite list_elem_of_singleton. split.
      * intros [Hin| ->]; [right|by left].
        apply list_elem_of_fmap in Hin as ([k' v] & -> & Hin).
        destruct (Hent _ _ Hin) as (a & qʼ & w & x & ? & ? & _). eauto.
      * intros [->|(a & qʼ & w & Hin & ->)]; [by right|left].
        by eapply Hkeys.
    + intros k v [Hin|[= -> ->]%list_elem_of_singleton]%elem_of_app.
      * right. by apply Hent.
      * by left.
  - intros q pa pq Ht. unfold Sampler.lm_tables in Ht.
    destruct (Sampler.Zq_at self q) as [Zq|] eqn:HZ; [|done]. simpl in Ht.
    destruct (Sampler.Zqa_at self q) as [Zqa|] eqn:HZqa; [|done].
    simpl in Ht.
    destruct (Sampler.pa_at self q Zq) as [pa'|] eqn:Hpa; [|done].
    simpl in Ht.
    destruct (Sampler.pq_a_at self q Zqa) as [pq'|] eqn:Hpq; [|done].
    injection Ht as -> ->.
    destruct (Zq_at_sum_of_scaled _ _ _ HZ) as (s & r & Hs & Hr & ->).
    exists s, r. split; [done|]. split; [done|].
    pose proof (λ v, pa_at_EOS self q _ pa v Hpa) as HEOS.
    unfold Sampler.pa_at in Hpa.
    destruct (dict_comp _ _ _) as [pa0|] eqn:Hpa0; [|done]. simpl in Hpa.
    rewrite Hr in Hpa, HEOS. simpl in Hpa.
    destruct (pydiv r (fadd s r)) as [p|]; [|done]. injection Hpa as <-.
    split; [|split; [|split]].
    + intros b. rewrite keys_dict_set, (dict_comp_from_keys _ _ _ _ _ Hpa0).
      unfold keys at 1. simpl. rewrite elem_of_nil.
      setoid_rewrite elem_of_elements. naive_solver.
    + intros v (x & [= <-] & ->)%HEOS. done.
    + intros b v Hin Hb.
      apply elem_of_dict_set in Hin as [[-> _]|Hin]; [done|].
      destruct (dict_comp_from_entries _ _ _ _ _ Hpa0 _ _ Hin)
        as [[]%elem_of_nil|(b' & _ & Hb' & Hval)].
      simpl in Hb'. subst b'.
      destruct (Sampler.mass self q _) as [m|] eqn:Hm; [|done].
      simpl in Hval. apply pydiv_Ok in Hval as [_ ->].
      exists m. split; [by apply mass_sum_of_scaled|done].
    + intros b belief Hin.
      destruct (pq_a_from_entries _ _ _ _ _ _ Hpq _ _ Hin)
        as [[]%elem_of_nil|(z & Hz & Hpos & Hcomp)].
      exists z. split; [|split; [done|split]].
      * apply mass_sum_of_scaled. unfold dict_item in Hz.
        destruct (dict_get b Zqa) as [z'|] eqn:Hget; [|done].
        injection Hz as ->. by eapply Zqa_at_get.
      * intros qʼ. rewrite (dict_comp_from_keys _ _ _ _ _ Hcomp).
        unfold keys at 1. simpl. rewrite elem_of_nil.
        setoid_rewrite elem_of_elements. naive_solver.
      * intros qʼ v Hv.
        destruct (dict_comp_from_entries _ _ _ _ _ Hcomp _ _ Hv)
          as [[]%elem_of_nil|(x' & _ & Hx' & Hval)].
        simpl in Hx'. subst x'.
        destruct (Sampler.mass self q _) as [m|] eqn:Hm; [|done].
        simpl in Hval. apply pydiv_Ok in Hval as [_ ->].
        exists m. split; [by apply mass_sum_of_scaled|done].
Qed.
End TemperatureTables.

(** At temperature 1/2 the arc weights 0.6 and 0.4 of the example are
    squared before they are normalised, in the tables of [_ancestral_lm] as
    in the options of [_ancestral]. *)
Example temperature_example_lm :
  Sampler.initial_dist (cold_sampler 0) = Ok [(mkState 0, 1%Qc)]
  ∧ Sampler.lm_tables (cold_sampler 0) (mkState 0) = Ok (cold_pa, cold_pq).
Proof. split; apply (bool_decide_unpack _); vm_compute; exact I. Qed.

Lemma temperature_before_normalisation_witness :
  fis_zero (Sampler.T (cold_sampler 0)) = false
  ∧ Sampler.initial_dist (cold_sampler 0) = Ok [(mkState 0, 1%Qc)]
  ∧ Sampler.options_at (cold_sampler 0) (mkState 0) = Ok cold_options
  ∧ Sampler.lm_tables (cold_sampler 0) (mkState 0) = Ok (cold_pa, cold_pq)
  ∧ Sampler._w (cold_sampler 0) (Q2Qc (6 # 10))
    = pypow (Q2Qc (6 # 10)) (fquot fone (Sampler.T (cold_sampler 0)))
  ∧ (∃ Z, sum_of_scaled (cold_sampler 0) (FSA.I example_fsa).*2 Z
        ∧ ∃ w x, (mkState 0, w) ∈ FSA.I example_fsa
               ∧ Sampler._w (cold_sampler 0) w = Ok x ∧ 1%Qc = fquot x Z)
  ∧ (∃ s r, sum_of_scaled (cold_sampler 0)
              (FSA.arcs example_fsa (mkState 0)).*2 s
          ∧ Sampler._w (cold_sampler 0)
              (Sampler.ρ (cold_sampler 0) (mkState 0)) = Ok r
          ∧ (∃ w x, (mkSym "a", mkState 1, w)
                      ∈ FSA.arcs example_fsa (mkState 0)
                  ∧ Sampler._w (cold_sampler 0) w = Ok x
                  ∧ Q2Qc (9 # 13) = fquot x (fadd s r))
          ∧ (∃ m, sum_of_scaled (cold_sampler 0)
                    (raw_weights (cold_sampler 0) (mkState 0)
                       (λ c _, bool_decide (c = mkSym "a"))) m
                  ∧ Q2Qc (9 # 13) = fquot m (fadd s r))
          ∧ 0%Qc = fquot r (fadd s r))
  ∧ ∃ z, sum_of_scaled (cold_sampler 0)
           (raw_weights (cold_sampler 0) (mkState 0)
              (λ c _, bool_decide (c = mkSym "b"))) z
       ∧ fpos z = true
       ∧ ∃ m, sum_of_scaled (cold_sampler 0)
                (raw_weights (cold_sampler 0) (mkState 0)
                   (λ c qʼʼ, bool_decide (c = mkSym "b")
                             && bool_decide (mkState 2 = qʼʼ))) m
              ∧ 1%Qc = fquot m z.
Proof.
  destruct (temperature_before_normalisation (cold_sampler 0))
    as (Hw & Hinit & Hopt & Hlm).
  destruct temperature_example_lm as [Hd Ht].
  pose proof temperature_example as Ho.
  split; [reflexivity|]. split; [exact Hd|]. split; [exact Ho|].
  split; [exact Ht|]. split; [exact (Hw _ eq_refl)|].
  split; [|split].
  - destruct (Hinit _ Hd) as (Z & HZ & _ & Hent).
    exists Z. split; [exact HZ|].
    apply (Hent (mkState 0) 1%Qc), list_elem_of_here.
  - destruct (Hopt _ _ Ho) as (s & r & Hs & Hr & _ & Hent).
    destruct (Hlm _ _ _ Ht) as (s' & r' & Hs' & Hr' & _ & HEOS & Hpa & _).
    assert (s' = s) as -> by exact (sum_of_scaled_unique _ _ _ _ Hs' Hs).
    assert (r' = r) as ->
      by (rewrite Hr in Hr'; injection Hr' as <-; reflexivity).
    exists s, r. split; [exact Hs|]. split; [exact Hr|]. split; [|split].
    + destruct (Hent (PSym (mkSym "a"), PState (mkState 1)) (Q2Qc (9 # 13)))
        as [[[=] _]|(a & qʼ & w & x & Hin & [= <- <-] & Hx & Hv)];
        [apply list_elem_of_here|]. eauto.
    + apply (Hpa (mkSym "a")); [apply list_elem_of_here|done].
    + apply HEOS. do 2 apply list_elem_of_further. apply list_elem_of_here.
  - destruct (Hlm _ _ _ Ht) as (_ & _ & _ & _ & _ & _ & _ & Hpq).
    destruct (Hpq (mkSym "b")
                [(mkState 2, 1%Qc); (mkState 1, 0%Qc); (mkState 0, 0%Qc)])
      as (z & Hz & Hpos & _ & Hent);
      [apply list_elem_of_further, list_elem_of_here|].
    exists z. split; [exact Hz|]. split; [exact Hpos|].
    apply Hent, list_elem_of_here.
Defined.

(** ** The samples of [_ancestral_lm] are walks of the automaton *)
Section AncestralLMPath.
Context {num G : Type} `{ExactFloat num} `{Generator num G}.
Context `{!GeneratorLaws num G}.
Implicit Types (self : @Sampler.t num G) (q : State).

(** A destination of positive probability in the belief of a symbol is the
    destination of an arc with that symbol. *)
Lemma belief_entry_arc self q pa pq b belief qʼ v :
  Sampler.lm_tables self q = Ok (pa, pq) →
  dict_item b pq = Ok belief →
  (qʼ, v) ∈ belief → fpos v = true →
  ∃ w, (b, qʼ, w) ∈ FSA.arcs (Sampler.A self) q.
Proof.
  unfold Sampler.lm_tables. intros Ht Hb Hin Hv.
  destruct (Sampler.Zq_at self q) as [Zq|]; [|done]. simpl in Ht.
  destruct (Sampler.Zqa_at self q) as [Zqa|]; [|done]. simpl in Ht.
  destruct (Sampler.pa_at self q Zq) as [pa'|]; [|done]. simpl in Ht.
  destruct (Sampler.pq_a_at self q Zqa) as [pq'|] eqn:Hpq; [|done].
  injection Ht as -> ->.
  unfold dict_item in Hb.
  destruct (dict_get b pq) as [belief'|] eqn:Hget; [|done].
  injection Hb as ->. apply dict_get_elem in Hget.
  destruct (pq_a_from_entries _ _ _ _ _ _ Hpq _ _ Hget)
    as [[]%elem_of_nil|(z & _ & _ & Hcomp)].
  destruct (dict_comp_from_entries _ _ _ _ _ Hcomp _ _ Hin)
    as [[]%elem_of_nil|(x & _ & Hx & Hval)].
  simpl in Hx. subst x.
  unfold Sampler.mass, Sampler.scaled_sum in Hval.
  destruct (omap _ (FSA.arcs (Sampler.A self) q)) as [|w ws] eqn:Harcs.
  - simpl in Hval. apply pydiv_Ok in Hval as [_ ->].
    change (pysum []) with (fzero : num) in Hv.
    by rewrite fquot_zero, fpos_zero in Hv.
  - assert (w ∈ w :: ws) as Hw by left. rewrite <-Harcs in Hw.
    apply list_elem_of_omap in Hw as ([[c qʼʼ] w'] & Harc & Hkeep).
    destruct (bool_decide (c = b)) eqn:Hc; [|done].
    destruct (bool_decide (qʼ = qʼʼ)) eqn:Hq; [|done].
    apply bool_decide_eq_true in Hc as ->.
    apply bool_decide_eq_true in Hq as ->. eauto.
Qed.

Lemma ancestral_lm_loop_path fuel self transform pq_a a y (g g' : G) y'
    (P : State → Prop) :
  (∀ belief q v, dict_item a pq_a = Ok belief → (q, v) ∈ belief →
                 fpos v = true → P q) →
  run (Sampler._ancestral_lm_loop fuel self transform pq_a a y) g
  = Returned y' g' →
  (a = EOS ∧ y' = y)
  ∨ ∃ q π qn, P q ∧ walk (Sampler.A self) (λ _ _, True) q π qn
              ∧ y' = y ++ labels π ++ [EOS].
Proof.
  revert pq_a a y g P. induction fuel as [|fuel IH]; intros pq_a a y g P HP.
  { simpl. case_bool_decide as Ha; [done|]. intros [= <- <-]. left.
    split; [|done]. by destruct (decide (a = EOS)). }
  cbn [Sampler._ancestral_lm_loop]. case_bool_decide as Ha.
  2:{ intros [= <- <-]. left. split; [|done]. by destruct (decide (a = EOS)). }
  rewrite run_lift_bind.
  destruct (dict_item a pq_a) as [belief|e'] eqn:Hb; [|done].
  destruct (run_draw_bind belief
    (λ q, tables ← lift (Sampler.lm_tables self q);
          a ← Sampler._draw (transform y tables.1);
          Sampler._ancestral_lm_loop fuel self transform tables.2 a (y ++ [a]))
    g) as [(i & q & v & g1 & Hi & Hv & ->)| ->]; [|done].
  rewrite run_lift_bind.
  destruct (Sampler.lm_tables self q) as [[pa pq]|e'] eqn:Ht; [|done].
  destruct (run_draw_bind (transform y pa)
    (λ a, Sampler._ancestral_lm_loop fuel self transform pq a (y ++ [a]))
    g1) as [(j & b & v' & g2 & Hj & Hv' & Hrun)| Hrun];
    cbn [fst snd]; cbn [fst snd] in Hrun; rewrite Hrun; [|done].
  intros Hret. right. exists q.
  assert (P q) as HPq.
  { apply (HP belief q v); [done| |done]. by eapply list_elem_of_lookup_2. }
  apply (IH _ _ _ _ (λ qʼ, ∃ w, (b, qʼ, w) ∈ FSA.arcs (Sampler.A self) q))
    in Hret as [[-> ->]|(qʼ & π & qn & [w Harc] & Hwalk & ->)].
  - exists [], q. split; [done|]. split; [done|]. done.
  - exists ((b, qʼ, w) :: π), qn. split; [done|]. split; [done|].
    by rewrite <-app_assoc.
  - intros belief' qʼ v0 Hb' Hin Hv0. by eapply belief_entry_arc.
Qed.

(** X8.  Every sample that [_ancestral_lm] returns, whatever the transform, is
    read off a walk of the automaton: between the two markers it is the
    sequence of the symbols of consecutive arcs that start at an initial
    state.  (Where the walk ends is up to the transform, which can give the
    end marker a probability the automaton does not.) *)
Theorem ancestral_lm_returns_walk self to_string transform fuel (g g' : G)
    out :
  run (Sampler._ancestral_lm self to_string transform fuel) g
  = Returned out g' →
  ∃ q0 π qn,
    q0 ∈ dom (FSA.init (Sampler.A self))
    ∧ walk (Sampler.A self) (λ _ _, True) q0 π qn
    ∧ out = Sampler.render to_string (PSym <$> (ε :: labels π ++ [EOS])).
Proof.
  unfold Sampler._ancestral_lm. rewrite run_lift_bind.
  destruct (Sampler.initial_dist self) as [d|e'] eqn:Hd; [|done].
  rewrite run_bind.
  destruct (run (Sampler._ancestral_lm_loop fuel self transform _ ε [ε]) g)
    as [y g1| |] eqn:Hloop; [|done..].
  simpl. intros [= <- <-].
  apply (ancestral_lm_loop_path _ _ _ _ _ _ _ _ _
           (λ q, q ∈ dom (FSA.init (Sampler.A self))))
    in Hloop as [[[=] _]|(q0 & π & qn & Hq0 & Hwalk & ->)].
  - by exists q0, π, qn.
  - intros belief q v [= <-] Hin _.
    destruct (initial_dist_entries _ _ Hd) as (Z & _ & Hent).
    destruct (Hent _ _ Hin) as (w & x & Hin' & _).
    unfold FSA.I in Hin'. apply elem_of_map_to_list in Hin'.
    apply elem_of_dom. eauto.
Qed.
End AncestralLMPath.

(** ** What [_ancestral_lm] calls the transform on *)
Section TransformCalls.
Context {num G : Type} `{PyFloat num} `{Generator num G}.
Implicit Types (self : @Sampler.t num G).

Lemma ancestral_lm_loop_transform fuel self
    (t1 t2 : list Sym → dict Sym num → dict Sym num) pq_a a y0 (g : G) :
  (∀ y pa, EOS ∉ y → t1 (ε :: y) pa = t2 (ε :: y) pa) →
  (∀ b, b ∈ y0 → b ≠ EOS ∨ b = a) →
  run (Sampler._ancestral_lm_loop fuel self t1 pq_a a (ε :: y0)) g
  = run (Sampler._ancestral_lm_loop fuel self t2 pq_a a (ε :: y0)) g.
Proof.
  intros Ht. revert pq_a a y0 g.
  induction fuel as [|fuel IH]; intros pq_a a y0 g Hy0; [done|].
  rewrite !run_ancestral_lm_loop. case_bool_decide as Ha; [|done].
  destruct (dict_item a pq_a) as [belief|]; [|done].
  destruct (choice g (values belief)) as [[i g1]|]; [|done].
  destruct (keys belief !! i) as [q|]; [|done].
  destruct (Sampler.lm_tables self q) as [tables|]; [|done].
  rewrite <-Ht.
  2:{ intros Hin. destruct (Hy0 _ Hin) as [?| <-]; done. }
  destruct (choice g1 _) as [[j g2]|]; [|done].
  destruct (keys _ !! j) as [b|]; [|done].
  apply (IH _ _ (y0 ++ [b])).
  intros c [Hc| ->%list_elem_of_singleton]%elem_of_app; [|by right].
  left. destruct (Hy0 _ Hc) as [?| ->]; done.
Qed.

(** X9.  [_ancestral_lm] calls the transform on nothing but the output so far,
    which starts with the empty-prefix marker and holds no end marker: two
    transforms that agree on such prefixes give the same run. *)
Theorem transform_called_on_marked_prefix self to_string fuel
    (t1 t2 : list Sym → dict Sym num → dict Sym num) (g : G) :
  (∀ y pa, EOS ∉ y → t1 (ε :: y) pa = t2 (ε :: y) pa) →
  run (Sampler._ancestral_lm self to_string t1 fuel) g
  = run (Sampler._ancestral_lm self to_string t2 fuel) g.
Proof.
  intros Ht. unfold Sampler._ancestral_lm. rewrite !run_lift_bind.
  destruct (Sampler.initial_dist self) as [d|]; [|done].
  rewrite !run_bind.
  rewrite (ancestral_lm_loop_transform fuel self t1 t2 _ ε [] g Ht); [done|].
  by intros b ?%elem_of_nil.
Qed.
End TransformCalls.

(** ** Without stop mass no sample is returned *)
Section NoStop.
Context {num G : Type} `{ExactFloat num} `{Generator num G}.
Context `{!GeneratorLaws num G}.
Implicit Types (self : @Sampler.t num G) (q : State).

Lemma ancestral_loop_no_stop fuel self q y (g g' : G) y' :
  (∀ q x, Sampler._w self (Sampler.ρ self q) = Ok x → x = fzero) →
  run (Sampler._ancestral_loop fuel self (PState q) y) g ≠ Returned y' g'.
Proof.
  intros Hstop. revert q y g.
  induction fuel as [|fuel IH]; intros q y g; [done|].
  cbn [Sampler._ancestral_loop]. unfold py_ne at 1.
  rewrite bool_decide_eq_true_2 by done.
  rewrite run_lift_bind.
  destruct (Sampler.options_at self q) as [options|e'] eqn:Ho; [|done].
  destruct (run_draw_bind options
    (λ '(a, q), Sampler._ancestral_loop fuel self q
                  (if py_ne a (PInt 0) then y ++ [a] else y)) g)
    as [(i & [a qʼ] & v & g1 & Hi & Hv & ->)| ->]; [|done].
  destruct (options_at_entries _ _ _ Ho)
    as (Z & xρ & opts & HZ & HZnz & Hρ & -> & Hent & _).
  apply list_elem_of_lookup_2, elem_of_app in Hi as [Hin|Hin].
  - destruct (Hent _ _ Hin) as (b & qʼʼ & w & x & Harc & [= -> ->] & Hw & ->).
    apply IH.
  - apply list_elem_of_singleton in Hin. injection Hin as -> -> ->.
    rewrite (Hstop _ _ Hρ), fquot_zero, fpos_zero in Hv. done.
Qed.

Lemma ancestral_lm_loop_no_stop fuel self pq_a a y (g g' : G) y' :
  (∀ q x, Sampler._w self (Sampler.ρ self q) = Ok x → x = fzero) →
  run (Sampler._ancestral_lm_loop fuel self identity_transform pq_a a y) g
  = Returned y' g' →
  a = EOS.
Proof.
  intros Hstop. revert pq_a a y g.
  induction fuel as [|fuel IH]; intros pq_a a y g.
  { simpl. case_bool_decide as Ha; [done|]. intros _.
    by destruct (decide (a = EOS)). }
  cbn [Sampler._ancestral_lm_loop]. case_bool_decide as Ha.
  2:{ intros _. by destruct (decide (a = EOS)). }
  rewrite run_lift_bind.
  destruct (dict_item a pq_a) as [belief|e'] eqn:Hb; [|done].
  destruct (run_draw_bind belief
    (λ q, tables ← lift (Sampler.lm_tables self q);
          a ← Sampler._draw (identity_transform y tables.1);
          Sampler._ancestral_lm_loop fuel self identity_transform tables.2 a
            (y ++ [a]))
    g) as [(i & q & v & g1 & Hi & Hv & ->)| ->]; [|done].
  rewrite run_lift_bind.
  destruct (Sampler.lm_tables self q) as [[pa pq]|e'] eqn:Ht; [|done].
  destruct (run_draw_bind (identity_transform y pa)
    (λ a, Sampler._ancestral_lm_loop fuel self identity_transform pq a
            (y ++ [a]))
    g1) as [(j & b & v' & g2 & Hj & Hv' & Hrun)| Hrun];
    cbn [fst snd]; cbn [fst snd] in Hrun; rewrite Hrun; [|done].
  intros ->%IH. exfalso.
  unfold identity_transform in Hj. apply list_elem_of_lookup_2 in Hj.
  unfold Sampler.lm_tables in Ht.
  destruct (Sampler.Zq_at self q) as [Zq|]; [|done]. simpl in Ht.
  destruct (Sampler.Zqa_at self q) as [Zqa|]; [|done]. simpl in Ht.
  destruct (Sampler.pa_at self q Zq) as [pa'|] eqn:Hpa; [|done]. simpl in Ht.
  destruct (Sampler.pq_a_at self q Zqa) as [pq'|]; [|done].
  injection Ht as -> ->.
  destruct (pa_at_EOS _ _ _ _ _ Hpa Hj) as (x & Hx & ->).
  rewrite (Hstop _ _ Hx), fquot_zero, fpos_zero in Hv'. done.
Qed.

(** X10.  When no state has stop mass (the scaled final weight is zero
    everywhere), no sample is ever returned, in either mode: stopping is
    never drawn, so a run raises or goes on for as long as it is let. *)
Theorem no_stop_mass_never_returns self to_string fuel (g g' : G) out :
  (∀ q x, Sampler._w self (Sampler.ρ self q) = Ok x → x = fzero) →
  run (Sampler._ancestral self to_string fuel) g ≠ Returned out g'
  ∧ run (Sampler._ancestral_lm self to_string identity_transform fuel) g
    ≠ Returned out g'.
Proof.
  intros Hstop. split.
  - unfold Sampler._ancestral. rewrite run_lift_bind.
    destruct (Sampler.initial_dist self) as [d|e'] eqn:Hd; [|done].
    destruct (run_draw_bind d
      (λ q, y ← Sampler._ancestral_loop fuel self (PState q) [];
            Ret (Sampler.render to_string y)) g)
      as [(i & q0 & v & g1 & Hi & Hv & ->)| ->]; [|done].
    rewrite run_bind.
    destruct (run (Sampler._ancestral_loop fuel self (PState q0) []) g1)
      as [y g2| |] eqn:Hloop; [|done..].
    by apply ancestral_loop_no_stop in Hloop.
  - unfold Sampler._ancestral_lm. rewrite run_lift_bind.
    destruct (Sampler.initial_dist self) as [d|e'] eqn:Hd; [|done].
    rewrite run_bind.
    destruct (run (Sampler._ancestral_lm_loop fuel self identity_transform
                     _ ε [ε]) g) as [y g1| |] eqn:Hloop; [|done..].
    by apply ancestral_lm_loop_no_stop in Hloop.
Qed.
End NoStop.

(** ** The tables handed to the generator are distributions *)
Section SumToOne.
Context {num G : Type} `{ExactFloat num}.
Implicit Types (self : @Sampler.t num G) (q : State).

Add Ring num_semiring_sums : exact_semiring.

Lemma fquot_self (Z : num) : fis_zero Z = false → fquot Z Z = fone.
Proof. intros HZ. rewrite exact_quot. by apply exact_inverse. Qed.

Lemma fquot_add (x y Z : num) :
  fadd (fquot x Z) (fquot y Z) = fquot (fadd x y) Z.
Proof. rewrite (exact_quot x), (exact_quot y), (exact_quot (fadd x y)). ring. Qed.

Lemma scaled_sum_scaled self ws Z :
  Sampler.scaled_sum self ws = Ok Z →
  (∀ w, w ∈ ws → Sampler._w self w = Ok (Sampler.scaled self w))
  ∧ Z = fsum (Sampler.scaled self <$> ws).
Proof.
  intros (xs & Hxs & ->)%scaled_sum_Ok. rewrite pysum_fsum.
  induction Hxs as [|w x ws xs Hx _ [IH1 IH2]].
  { split; [by intros w ?%elem_of_nil|done]. }
  assert (Sampler.scaled self w = x) as Hsc
    by (unfold Sampler.scaled; by rewrite Hx).
  split.
  - intros w' [->|Hin]%elem_of_cons; [by rewrite Hsc|by apply IH1].
  - rewrite fmap_cons, !fsum_cons, Hsc. by f_equal.
Qed.

Lemma scaled_mass_all self q :
  Sampler.scaled_mass self q (λ _ _, true)
  = fsum ((λ e, Sampler.scaled self e.2) <$> FSA.arcs (Sampler.A self) q).
Proof.
  unfold Sampler.scaled_mass. rewrite pysum_fsum. f_equal.
  induction (FSA.arcs (Sampler.A self) q) as [|[[c qʼʼ] w] l IH]; [done|].
  cbn. by rewrite IH.
Qed.

(** X11.  In exact arithmetic the two dictionaries that [_ancestral] draws from
    are probability distributions: the initial distribution, when there is
    an initial state, and the [options] of a state whose arcs differ in
    symbol or destination each sum to 1. *)
Theorem ancestral_tables_sum_to_one self :
  (∀ d, Sampler.initial_dist self = Ok d → d ≠ [] →
        pysum (values d) = fone)
  ∧ (∀ q options,
       Sampler.options_at self q = Ok options →
       NoDup ((λ e, (e.1.1, e.1.2)) <$> FSA.arcs (Sampler.A self) q) →
       pysum (values options) = fone).
Proof.
  split.
  - intros d Hd Hne.
    destruct (initial_dist_entries _ _ Hd) as (Z & HZ & Hent).
    assert (fis_zero Z = false) as HZnz.
    { destruct d as [|[p v] d]; [done|].
      destruct (Hent p v) as (w & x & _ & _ & ? & _); [by left|done]. }
    destruct (scaled_sum_scaled _ _ _ HZ) as [Hall HZeq].
    unfold Sampler.initial_dist in Hd. rewrite HZ in Hd. simpl in Hd.
    rewrite (dict_comp_fresh _ _
               (λ pw, fquot (Sampler.scaled self pw.2) Z)) in Hd.
    + injection Hd as <-. unfold values. rewrite <-list_fmap_compose.
      rewrite pysum_fsum.
      rewrite (fsum_ext _ (λ pw, fquot (Sampler.scaled self pw.2) Z))
        by done.
      rewrite <-(fquot_fsum (λ pw : State * num, Sampler.scaled self pw.2)).
      change (λ pw : State * num, Sampler.scaled self pw.2)
        with (Sampler.scaled self ∘ (snd : State * num → num)).
      rewrite list_fmap_compose, <-HZeq. by apply fquot_self.
    + intros [p w] Hin. simpl. rewrite Hall.
      * simpl. by apply pydiv_nonzero.
      * apply list_elem_of_fmap. by exists (p, w).
    + apply NoDup_fst_map_to_list.
  - intros q options Ho Hnd.
    destruct (options_at_entries _ _ _ Ho) as (Z & _ & _ & HZ & HZnz & _).
    rewrite (options_closed _ _ _ HZ HZnz Hnd) in Ho. injection Ho as <-.
    destruct (Zq_at_scaled _ _ _ HZ) as (_ & _ & HZeq).
    unfold options_of, values. rewrite fmap_app, <-list_fmap_compose.
    rewrite pysum_fsum, fsum_app. simpl.
    rewrite (fsum_ext _ (λ e, fquot (Sampler.scaled self e.2) Z)) by done.
    rewrite <-(fquot_fsum (λ e : Sym * State * num, Sampler.scaled self e.2)).
    rewrite <-scaled_mass_all.
    replace (fadd (fquot (Sampler.scaled self (Sampler.ρ self q)) Z) fzero)
      with (fquot (Sampler.scaled self (Sampler.ρ self q)) Z) by ring.
    rewrite fquot_add, <-HZeq. by apply fquot_self.
Qed.

Lemma lm_tables_Zq self q tables :
  Sampler.lm_tables self q = Ok tables →
  ∃ Z, Sampler.Zq_at self q = Ok Z ∧ fis_zero Z = false.
Proof.
  intros Ht. destruct (Sampler.Zq_at self q) as [Z|e] eqn:HZ.
  - exists Z. split; [done|]. destruct (fis_zero Z) eqn:Hz; [|done].
    by rewrite (zero_mass_tables _ _ _ HZ Hz) in Ht.
  - unfold Sampler.lm_tables in Ht. by rewrite HZ in Ht.
Qed.

(** X12.  In exact arithmetic, on an automaton whose arcs carry symbols of the
    alphabet and lead to states of the state set, and whose alphabet does
    not hold the end marker, the dictionaries that [_ancestral_lm] builds at
    a state are probability distributions: the next-symbol distribution
    sums to 1, and so does the belief over the destinations of every symbol
    that has one. *)
Theorem lm_tables_sum_to_one self q pa pq :
  (∀ e, e ∈ FSA.arcs (Sampler.A self) q →
        e.1.1 ∈ FSA.Sigma (Sampler.A self) ∧ e.1.2 ∈ FSA.Q (Sampler.A self)) →
  EOS ∉ FSA.Sigma (Sampler.A self) →
  Sampler.lm_tables self q = Ok (pa, pq) →
  pysum (values pa) = fone
  ∧ ∀ b belief, (b, belief) ∈ pq → pysum (values belief) = fone.
Proof.
  intros Harcs HEOS Ht.
  destruct (lm_tables_Zq _ _ _ Ht) as (Z & HZ & HZnz).
  rewrite (tables_closed _ _ _ HZ HZnz exact_positive HEOS) in Ht.
  injection Ht as <- <-.
  destruct (Zq_at_scaled _ _ _ HZ) as (_ & _ & HZeq).
  split.
  - unfold pa_of, values. rewrite fmap_app, <-list_fmap_compose.
    rewrite pysum_fsum, fsum_app. simpl.
    rewrite (fsum_ext _ (λ b, fquot (Zqa_of self q b) Z)) by done.
    rewrite <-(fquot_fsum (Zqa_of self q)).
    rewrite (fsum_ext (Zqa_of self q) _ _ (λ b _, Zqa_of_filter self q b)).
    rewrite (fsum_by_key (λ e : Sym * State * num, e.1.1)
               (λ e, Sampler.scaled self e.2)) by apply NoDup_elements.
    rewrite filter_all_in.
    2:{ intros e He. apply elem_of_elements. by apply Harcs. }
    rewrite <-scaled_mass_all.
    replace (fadd (fquot (Sampler.scaled self (Sampler.ρ self q)) Z) fzero)
      with (fquot (Sampler.scaled self (Sampler.ρ self q)) Z) by ring.
    rewrite fquot_add, <-HZeq. by apply fquot_self.
  - intros b belief Hin. unfold pq_a_of in Hin.
    apply list_elem_of_fmap in Hin as (b' & [= -> ->] & Hb).
    apply list_elem_of_filter in Hb as [Hpos _].
    unfold belief_of, values. rewrite <-list_fmap_compose, pysum_fsum.
    rewrite (fsum_ext _ (λ qʼ, fquot (Zqaq_of self q b' qʼ) (Zqa_of self q b')))
      by done.
    rewrite <-(fquot_fsum (Zqaq_of self q b')).
    rewrite (fsum_ext (Zqaq_of self q b')
               (λ qʼ, fsum ((λ e, Sampler.scaled self e.2)
                      <$> filter (λ e, e.1.2 = qʼ)
                            (filter (λ e, e.1.1 = b')
                                    (FSA.arcs (Sampler.A self) q))))).
    2:{ intros qʼ _. rewrite Zqaq_of_filter, list_filter_filter. f_equal.
        f_equal. apply list_filter_iff. intros e. naive_solver. }
    rewrite (fsum_by_key (λ e : Sym * State * num, e.1.2)
               (λ e, Sampler.scaled self e.2)) by apply NoDup_elements.
    rewrite filter_all_in.
    2:{ intros e [_ He]%list_elem_of_filter. apply elem_of_elements.
        by apply Harcs. }
    rewrite <-Zqa_of_filter. apply fquot_self. by apply exact_positive.
Qed.
End SumToOne.

(** ** [trim] and the accepting paths *)
Section Chains.
Context {num X : Type}.
Implicit Types (π : list (State * X * State * num))
  (arcs : list (State * X * State * num)).

Lemma chain_app q π1 π2 q1 q2 :
  chain q π1 q1 → chain q1 π2 q2 → chain q (π1 ++ π2) q2.
Proof.
  revert q. induction π1 as [|e π1 IH]; intros q; simpl.
  - by intros ->.
  - intros [-> Hc] H2. split; [done|]. by apply IH.
Qed.

Lemma chain_app_inv q π1 π2 q2 :
  chain q (π1 ++ π2) q2 → ∃ q1, chain q π1 q1 ∧ chain q1 π2 q2.
Proof.
  revert q. induction π1 as [|e π1 IH]; intros q; simpl.
  - intros Hc. by exists q.
  - intros [-> (q1 & ? & ?)%IH]. by exists q1.
Qed.

Lemma chain_end q π q1 q2 : chain q π q1 → chain q π q2 → q1 = q2.
Proof.
  revert q. induction π as [|e π IH]; intros q; simpl.
  - congruence.
  - intros [_ H1] [_ H2]. by eapply IH.
Qed.

(** A chain of arcs is a path along their ends, and so is every part of
    it. *)
Lemma chain_path arcs q π qʼ :
  chain q π qʼ → (∀ e, e ∈ π → e ∈ arcs) →
  path (ends <$> arcs) q qʼ
  ∧ ∀ e, e ∈ π → path (ends <$> arcs) q e.1.1.1
                 ∧ path (ends <$> arcs) e.1.2 qʼ.
Proof.
  revert q. induction π as [|e π IH]; intros q; simpl.
  { intros -> _. split; [apply rtc_refl|]. by intros e ?%elem_of_nil. }
  intros [<- Hc] Harcs.
  destruct (IH _ Hc) as [Hp Hparts].
  { intros e' He'. apply Harcs. by right. }
  assert (path (ends <$> arcs) e.1.1.1 e.1.2) as Hstep.
  { apply rtc_once. apply list_elem_of_fmap. exists e. split; [done|].
    apply Harcs. by left. }
  split; [by etrans|].
  intros e' [->|He']%elem_of_cons.
  - split; [apply rtc_refl|done].
  - destruct (Hparts _ He') as [H1 H2]. split; [by etrans|done].
Qed.

(** A path along the ends of arcs is the path of a chain of them. *)
Lemma path_chain arcs q qʼ :
  path (ends <$> arcs) q qʼ →
  ∃ π, chain q π qʼ ∧ ∀ e, e ∈ π → e ∈ arcs.
Proof.
  induction 1 as [q|q q1 q2 Hstep _ (π & Hc & Harcs)].
  { exists []. split; [done|]. by intros e ?%elem_of_nil. }
  apply list_elem_of_fmap in Hstep as (e & [= -> ->] & He).
  exists (e :: π). split; [done|].
  intros e' [->|He']%elem_of_cons; [done|by apply Harcs].
Qed.

(** Restricting the arcs to the states that lie between [I0] and [F0]
    keeps the accepting paths, and adds none. *)
Lemma accepting_in_restrict arcs arcs' (I0 F0 AC : gset State) q0 π qn :
  (∀ x, x ∈ AC ↔ (∃ p, p ∈ I0 ∧ path (ends <$> arcs) p x)
                 ∧ ∃ f, f ∈ F0 ∧ path (ends <$> arcs) x f) →
  (∀ e, e ∈ arcs' ↔ e ∈ arcs ∧ e.1.1.1 ∈ AC ∧ e.1.2 ∈ AC) →
  accepting_in arcs' (I0 ∩ AC) (F0 ∩ AC) q0 π qn
  ↔ accepting_in arcs I0 F0 q0 π qn.
Proof.
  intros HAC Harcs'. unfold accepting_in. split.
  - intros ([Hq0 _]%elem_of_intersection & [Hqn _]%elem_of_intersection
            & Hc & Hπ).
    split; [done|]. split; [done|]. split; [done|].
    intros e He. by apply Harcs', Hπ.
  - intros (Hq0 & Hqn & Hc & Hπ).
    destruct (chain_path arcs _ _ _ Hc Hπ) as [Hp Hparts].
    assert (∀ x, path (ends <$> arcs) q0 x → path (ends <$> arcs) x qn
                 → x ∈ AC) as Hin.
    { intros x H1 H2. apply HAC. split; eauto. }
    split; [|split; [|split; [done|]]].
    + apply elem_of_intersection. split; [done|]. apply Hin; [apply rtc_refl|done].
    + apply elem_of_intersection. split; [done|]. apply Hin; [done|apply rtc_refl].
    + intros e He. destruct (Hparts _ He) as [H1 H2].
      assert (path (ends <$> arcs) e.1.1.1 e.1.2) as Hstep.
      { apply rtc_once. apply list_elem_of_fmap. exists e. split; [done|].
        by apply Hπ. }
      apply Harcs'. split; [by apply Hπ|]. split; apply Hin; try done.
      * by etrans.
      * by etrans.
Qed.
End Chains.

Section TrimPaths.
Context {num : Type} `{PyFloat num}.
Implicit Types (F : machine num).

Lemma all_arcs_restrict F AC e :
  e ∈ all_arcs (restrict_machine F AC)
  ↔ e ∈ all_arcs F ∧ e.1.1.1 ∈ AC ∧ e.1.2 ∈ AC.
Proof.
  destruct F as [M|M]; cbn [all_arcs restrict_machine restrict FSA.delta];
    rewrite !list_elem_of_fmap.
  - split.
    + intros ([[[i a] j] w] & -> & (? & ? & ?)%elem_of_kept).
      split; [|done]. by exists (i, a, j, w).
    + intros [([[[i a] j] w] & -> & ?) [? ?]]. exists (i, a, j, w).
      split; [done|]. by apply elem_of_kept.
  - split.
    + intros ([[[i [a b]] j] w] & -> & (? & ? & ?)%elem_of_kept).
      split; [|done]. by exists (i, (a, b), j, w).
    + intros [([[[i [a b]] j] w] & -> & ?) [? ?]]. exists (i, (a, b), j, w).
      split; [done|]. by apply elem_of_kept.
Qed.

Lemma initial_restrict F AC :
  initial (restrict_machine F AC) = filter (inside AC) (initial F)
  ∧ finals (restrict_machine F AC) = filter (inside AC) (finals F)
  ∧ final_states (restrict_machine F AC)
    = filter (inside AC) (final_states F).
Proof.
  destruct F as [M|M]; (split; [done|]; split; [done|]);
    apply final_states_restrict.
Qed.

(** X13.  Trimming keeps every accepting path and adds none: the chains of
    arcs from an initial state to a final state (a state whose final weight
    is positive) are the same in the trimmed automaton as in the input, with
    the same symbols and weights on the arcs, and with the same initial
    weight at their start and final weight at their end. *)
Theorem trim_accepting_paths F :
  ∃ T, Transformer.trim F = Ok T
     ∧ ∀ q0 π qn,
         (accepting T q0 π qn ↔ accepting F q0 π qn)
         ∧ (accepting F q0 π qn →
            initial T !! q0 = initial F !! q0
            ∧ finals T !! qn = finals F !! qn).
Proof.
  exists (restrict_machine F (accessible F ∩ coaccessible F)).
  split; [apply trim_restrict|]. intros q0 π qn.
  set (AC := accessible F ∩ coaccessible F).
  assert (accepting (restrict_machine F AC) q0 π qn ↔ accepting F q0 π qn)
    as Hiff.
  { unfold accepting.
    destruct (initial_restrict F AC) as (-> & _ & ->).
    rewrite !dom_filter_inside.
    apply accepting_in_restrict.
    - apply elem_of_useful.
    - apply all_arcs_restrict. }
  split; [done|]. intros Hacc%Hiff.
  destruct Hacc as (Hq0 & Hqn & _). revert Hq0 Hqn.
  destruct (initial_restrict F AC) as (-> & -> & ->).
  rewrite !dom_filter_inside, !elem_of_intersection.
  intros [[w0 Hw0]%elem_of_dom H0]
         [(wn & Hwn & _)%elem_of_machine_final_states Hn].
  rewrite Hw0, Hwn. split; by apply map_lookup_filter_Some.
Qed.

Lemma states_restrict F :
  states (restrict_machine F (accessible F ∩ coaccessible F))
  = accessible F ∩ coaccessible F.
Proof. destruct F as [M|M]; apply restrict_states. Qed.

(** X14.  The states of the trimmed automaton are the states that an
    accepting path of the input goes through: a chain of arcs from an
    initial state to a state whose final weight is positive. *)
Theorem trim_states_on_accepting_paths F :
  ∃ T, Transformer.trim F = Ok T
     ∧ ∀ q, q ∈ states T ↔
            ∃ q0 π1 π2 qn, accepting F q0 (π1 ++ π2) qn ∧ chain q0 π1 q.
Proof.
  exists (restrict_machine F (accessible F ∩ coaccessible F)).
  split; [apply trim_restrict|]. intros q.
  rewrite states_restrict, elem_of_useful. split.
  - intros [(q0 & Hq0 & (π1 & Hc1 & Hπ1)%path_chain)
            (qn & Hqn & (π2 & Hc2 & Hπ2)%path_chain)].
    exists q0, π1, π2, qn. split; [|done].
    split; [done|]. split; [done|]. split; [by eapply chain_app|].
    intros e [?|?]%elem_of_app; auto.
  - intros (q0 & π1 & π2 & qn & (Hq0 & Hqn & Hc & Hπ) & Hc1).
    apply chain_app_inv in Hc as (q1 & Hc1' & Hc2).
    rewrite (chain_end _ _ _ _ Hc1 Hc1').
    split.
    + exists q0. split; [done|].
      apply (chain_path _ _ _ _ Hc1'). intros e He. apply Hπ, elem_of_app. by left.
    + exists qn. split; [done|].
      apply (chain_path _ _ _ _ Hc2). intros e He. apply Hπ, elem_of_app. by right.
Qed.

(** X15.  An automaton without initial states, or without final states (no
    state has a positive final weight), is trimmed to the empty automaton
    that [spawn] returns. *)
Theorem trim_empty F :
  initial F = ∅ ∨ (∀ q w, finals F !! q = Some w → fpos w = false) →
  Transformer.trim F = Ok (spawn F).
Proof.
  intros Hempty. rewrite trim_restrict. f_equal.
  assert (accessible F ∩ coaccessible F = ∅) as ->.
  { apply elem_of_equiv_empty_L.
    intros x [(p & Hp & _) (f & Hf & _)]%elem_of_useful.
    destruct Hempty as [Heq|Hnone].
    - rewrite Heq, dom_empty_L in Hp. by apply elem_of_empty in Hp.
    - apply elem_of_machine_final_states in Hf as (w & Hw & Hpos).
      by rewrite (Hnone _ _ Hw) in Hpos. }
  assert (∀ m : gmap State num, filter (inside ∅) m = ∅) as Hfilter.
  { intros m. apply map_empty. intros i. apply map_lookup_filter_None.
    right. intros x _ Hin. unfold inside in Hin. set_solver. }
  destruct F as [M|M]; cbn [restrict_machine spawn]; f_equal;
    unfold restrict, FSA.spawn, kept; rewrite elements_empty, !Hfilter;
    cbn [mbind list_bind fmap list_fmap]; f_equal; set_solver.
Qed.

Lemma fmap_bind_comm {A B C : Type} (f : B → C) (g : A → list B) (l : list A) :
  f <$> (l ≫= g) = l ≫= (λ x, f <$> g x).
Proof.
  induction l as [|x l IH]; [done|].
  change (f <$> g x ++ (l ≫= g) = (f <$> g x) ++ (l ≫= λ x, f <$> g x)).
  by rewrite fmap_app, IH.
Qed.

(** X16.  [_add_trim_arcs], for two automata of one class: the arcs of [F]
    between states of [AC] are added to [T], after the arcs that [T] has,
    source by source in the order in which [AC] is enumerated and, for a
    source, in the order of the arcs of [F]; the initial and final weights
    of [T] are left as they are. *)
Theorem add_trim_arcs_appends F (T : machine num) (AC : gset State) :
  is_FST F = is_FST T →
  ∃ T', Transformer._add_trim_arcs F T AC = Ok T'
      ∧ is_FST T' = is_FST T
      ∧ all_arcs T'
        = all_arcs T
          ++ (elements AC ≫= λ i,
                filter (λ e, e.1.1.1 = i ∧ e.1.2 ∈ AC) (all_arcs F))
      ∧ initial T' = initial T
      ∧ finals T' = finals T.
Proof.
  destruct F as [M|M], T as [T|T]; try done; intros _.
  - exists (AnFSA (with_arcs T (kept M AC))). split.
    { cbn. do 2 f_equal. by apply (add_trim_arcs_with_arcs M AC (λ i T e, _)). }
    split; [done|]. split; [|done].
    cbn [all_arcs with_arcs FSA.delta]. rewrite fmap_app. f_equal.
    unfold kept. rewrite fmap_bind_comm. apply list_bind_ext; [|done].
    intros i. rewrite kept_from_filter.
    rewrite (filter_fmap_comm _ (λ e, e.1.1.1 = i ∧ e.1.2 ∈ AC)).
    f_equal. apply list_filter_iff. by intros [[[? ?] ?] ?].
  - exists (AnFST (with_arcs T (kept M AC))). split.
    { cbn. do 2 f_equal. apply (add_trim_arcs_with_arcs M AC (λ i T e, _)).
      by intros i T0 [a b] j w. }
    split; [done|]. split; [|done].
    cbn [all_arcs with_arcs FSA.delta]. rewrite fmap_app. f_equal.
    unfold kept. rewrite fmap_bind_comm. apply list_bind_ext; [|done].
    intros i. rewrite kept_from_filter.
    rewrite (filter_fmap_comm _ (λ e, e.1.1.1 = i ∧ e.1.2 ∈ AC)).
    f_equal. apply list_filter_iff. by intros [[[? [? ?]] ?] ?].
Qed.
End TrimPaths.

(** ** The properties on the examples *)

Lemma sample_count_witness :
  ((0 ≤ 0)%Z
   ∧ run (Sampler.sample (loop_sampler 0) 0 false identity_transform false 5) 6
     = Returned [] 6)
  ∧ (run (Sampler.sample (loop_sampler 0) 2 false identity_transform false 5) 6
     = Returned [Symbols [PSym (mkSym "a")]; Symbols []] 0
     ∧ length [Symbols [PSym (mkSym "a")]; Symbols []] = Z.to_nat 2).
Proof.
  split.
  - split; [lia|].
    apply (proj1 (sample_count (loop_sampler 0) 0 false identity_transform
                    false 5 6)). lia.
  - assert (run (Sampler.sample (loop_sampler 0) 2 false identity_transform
                   false 5) 6
            = Returned [Symbols [PSym (mkSym "a")]; Symbols []] 0) as Hrun
      by (vm_compute; reflexivity).
    split; [exact Hrun|].
    exact (proj2 (sample_count (loop_sampler 0) 2 false identity_transform
                    false 5 6) _ _ Hrun).
Defined.

Lemma sample_split_witness :
  (0 ≤ 1)%Z
  ∧ run (Sampler.sample (loop_sampler 0) (1 + 1) false identity_transform
           false 5) 6
    = outcome_then
        (run (Sampler.sample (loop_sampler 0) 1 false identity_transform
                false 5) 6)
        (λ ys1 g1,
           outcome_map (app ys1)
             (run (Sampler.sample (loop_sampler 0) 1 false identity_transform
                     false 5) g1)).
Proof.
  assert (0 ≤ 1)%Z as H01 by lia.
  split; [exact H01|].
  exact (sample_split (loop_sampler 0) 1 1 false identity_transform false 5 6
           H01 H01).
Defined.

Lemma draw_candidate_witness :
  run (Sampler._draw ([] : dict (pyobj * pyobj) Qc)) 1 = Raised ValueError
  ∧ run (Sampler._draw loop_options) 1 = Returned (PInt 0, PInt 0) 0
  ∧ ∃ i v, loop_options !! i = Some ((PInt 0, PInt 0), v) ∧ fpos v = true.
Proof.
  split.
  - exact (proj1 (draw_candidate ([] : dict (pyobj * pyobj) Qc) 1) eq_refl).
  - assert (run (Sampler._draw loop_options) 1 = Returned (PInt 0, PInt 0) 0)
      as Hrun by (vm_compute; reflexivity).
    split; [exact Hrun|].
    exact (proj1 (proj2 (draw_candidate loop_options 1)) _ _ Hrun).
Defined.

Lemma zero_temperature_raises_witness :
  fis_zero (Sampler.T frozen_sampler) = true
  ∧ FSA.init (Sampler.A frozen_sampler) ≠ ∅
  ∧ run (Sampler.sample frozen_sampler 1 true identity_transform true 5) 0
    = Raised ZeroDivisionError.
Proof.
  assert (FSA.init (Sampler.A frozen_sampler) ≠ ∅) as Hinit
    by apply insert_non_empty.
  assert (0 < 1)%Z as H01 by lia.
  split; [reflexivity|]. split; [exact Hinit|].
  exact (zero_temperature_raises frozen_sampler 1 true identity_transform true
           5 0 eq_refl Hinit H01).
Defined.

Lemma ancestral_returns_path_witness :
  run (Sampler._ancestral (loop_sampler 0) false 5) 2
  = Returned (Symbols [PSym (mkSym "a")]) 0
  ∧ ∃ q0 π qn,
      q0 ∈ dom (FSA.init loop_fsa)
      ∧ walk loop_fsa (λ q e, drawable (loop_sampler 0) q e.2) q0 π qn
      ∧ drawable (loop_sampler 0) qn (Sampler.ρ (loop_sampler 0) qn)
      ∧ Symbols [PSym (mkSym "a")] = Sampler.render false (PSym <$> labels π).
Proof.
  assert (run (Sampler._ancestral (loop_sampler 0) false 5) 2
          = Returned (Symbols [PSym (mkSym "a")]) 0) as Hrun
    by (vm_compute; reflexivity).
  split; [exact Hrun|].
  exact (ancestral_returns_path (loop_sampler 0) false 5 2 0 _ Hrun).
Defined.

Lemma lm_tables_entries_witness :
  ∃ pa pq,
    Sampler.lm_tables (loop_sampler 0) (mkState 0) = Ok (pa, pq)
    ∧ ∃ Zq, Sampler.Zq_at (loop_sampler 0) (mkState 0) = Ok Zq
            ∧ NoDup (keys pa)
            ∧ ∀ b, b ∈ keys pa ↔ b = EOS ∨ b ∈ FSA.Sigma loop_fsa.
Proof.
  destruct (Sampler.lm_tables (loop_sampler 0) (mkState 0)) as [[pa pq]|e]
    eqn:Ht; [|by vm_compute in Ht].
  exists pa, pq. split; [reflexivity|].
  destruct (lm_tables_entries (loop_sampler 0) (mkState 0) pa pq Ht)
    as (Zq & HZ & Hnd & Hkeys & _).
  exists Zq. split; [exact HZ|]. split; [exact Hnd|exact Hkeys].
Defined.

Lemma ancestral_lm_returns_walk_witness :
  run (Sampler._ancestral_lm (loop_sampler 0) false identity_transform 5) 2
  = Returned (Symbols [PSym ε; PSym (mkSym "a"); PSym EOS]) 0
  ∧ ∃ q0 π qn,
      q0 ∈ dom (FSA.init loop_fsa)
      ∧ walk loop_fsa (λ _ _, True) q0 π qn
      ∧ Symbols [PSym ε; PSym (mkSym "a"); PSym EOS]
        = Sampler.render false (PSym <$> (ε :: labels π ++ [EOS])).
Proof.
  assert (run (Sampler._ancestral_lm (loop_sampler 0) false identity_transform
                 5) 2
          = Returned (Symbols [PSym ε; PSym (mkSym "a"); PSym EOS]) 0) as Hrun
    by (vm_compute; reflexivity).
  split; [exact Hrun|].
  exact (ancestral_lm_returns_walk (loop_sampler 0) false identity_transform
           5 2 0 _ Hrun).
Defined.

Lemma transform_called_on_marked_prefix_witness :
  (∀ (y : list Sym) (pa : dict Sym Qc), EOS ∉ y →
     identity_transform (ε :: y) pa = nonempty_prefix_transform (ε :: y) pa)
  ∧ run (Sampler._ancestral_lm (loop_sampler 0) false identity_transform 5) 2
    = run (Sampler._ancestral_lm (loop_sampler 0) false
             nonempty_prefix_transform 5) 2.
Proof.
  assert (∀ (y : list Sym) (pa : dict Sym Qc), EOS ∉ y →
            identity_transform (ε :: y) pa
            = nonempty_prefix_transform (ε :: y) pa) as Ht
    by (intros y pa _; reflexivity).
  split; [exact Ht|].
  exact (transform_called_on_marked_prefix (loop_sampler 0) false 5
           identity_transform nonempty_prefix_transform 2 Ht).
Defined.

Lemma no_stop_mass_never_returns_witness :
  (∀ q x, Sampler._w (sampler_on spin_fsa)
            (Sampler.ρ (sampler_on spin_fsa) q) = Ok x → x = fzero)
  ∧ run (Sampler._ancestral (sampler_on spin_fsa) false 5) 2
    ≠ Returned (Symbols []) 0
  ∧ run (Sampler._ancestral_lm (sampler_on spin_fsa) false identity_transform
           5) 2
    ≠ Returned (Symbols []) 0.
Proof.
  assert (∀ q x, Sampler._w (sampler_on spin_fsa)
                   (Sampler.ρ (sampler_on spin_fsa) q) = Ok x → x = fzero)
    as Hstop.
  { intros q x. unfold Sampler.ρ. cbn [sampler_on Sampler.A spin_fsa FSA.final].
    rewrite lookup_empty. vm_compute. intros [= <-].
    apply Qc_is_canon. reflexivity. }
  split; [exact Hstop|].
  exact (no_stop_mass_never_returns (sampler_on spin_fsa) false 5 2 0
           (Symbols []) Hstop).
Defined.

Lemma ancestral_tables_sum_to_one_witness :
  (∃ d, Sampler.initial_dist (loop_sampler 0) = Ok d ∧ d ≠ []
        ∧ pysum (values d) = fone)
  ∧ Sampler.options_at (loop_sampler 0) (mkState 0) = Ok loop_options
  ∧ NoDup ((λ e, (e.1.1, e.1.2)) <$> FSA.arcs loop_fsa (mkState 0))
  ∧ pysum (values loop_options) = fone.
Proof.
  split.
  - destruct (Sampler.initial_dist (loop_sampler 0)) as [d|e] eqn:Hd;
      [|by vm_compute in Hd].
    exists d. split; [reflexivity|].
    assert (d ≠ []) as Hne by (intros ->; by vm_compute in Hd).
    split; [exact Hne|].
    exact (proj1 (ancestral_tables_sum_to_one (loop_sampler 0)) d Hd Hne).
  - assert (Sampler.options_at (loop_sampler 0) (mkState 0) = Ok loop_options)
      as Ho by (vm_compute; reflexivity).
    pose proof (wf_arc_keys _ (loop_sampler_well_formed 0) (mkState 0)) as Hnd.
    split; [exact Ho|]. split; [exact Hnd|].
    exact (proj2 (ancestral_tables_sum_to_one (loop_sampler 0))
                 (mkState 0) loop_options Ho Hnd).
Defined.

Lemma lm_tables_sum_to_one_witness :
  (∀ e, e ∈ FSA.arcs loop_fsa (mkState 0) →
        e.1.1 ∈ FSA.Sigma loop_fsa ∧ e.1.2 ∈ FSA.Q loop_fsa)
  ∧ (EOS ∉ FSA.Sigma loop_fsa)
  ∧ ∃ pa pq,
      Sampler.lm_tables (loop_sampler 0) (mkState 0) = Ok (pa, pq)
      ∧ pysum (values pa) = fone
      ∧ ∀ b belief, (b, belief) ∈ pq → pysum (values belief) = fone.
Proof.
  pose proof (loop_sampler_well_formed 0) as Hwf.
  assert (∀ e, e ∈ FSA.arcs loop_fsa (mkState 0) →
               e.1.1 ∈ FSA.Sigma loop_fsa ∧ e.1.2 ∈ FSA.Q loop_fsa) as Harcs.
  { intros e He. split.
    - exact (wf_arc_symbol _ Hwf _ _ He).
    - exact (wf_arc_state _ Hwf _ _ He). }
  pose proof (wf_EOS _ Hwf) as HEOS.
  split; [exact Harcs|]. split; [exact HEOS|].
  destruct (Sampler.lm_tables (loop_sampler 0) (mkState 0)) as [[pa pq]|e]
    eqn:Ht; [|by vm_compute in Ht].
  exists pa, pq. split; [reflexivity|].
  exact (lm_tables_sum_to_one (loop_sampler 0) (mkState 0) pa pq Harcs HEOS Ht).
Defined.

Lemma trim_accepting_paths_witness :
  accepting (AnFSA example_fsa_stored) (mkState 0)
    [(mkState 0, [mkSym "a"], mkState 1, Q2Qc (6 # 10))] (mkState 1)
  ∧ ∃ T, Transformer.trim (AnFSA example_fsa_stored) = Ok T
       ∧ accepting T (mkState 0)
           [(mkState 0, [mkSym "a"], mkState 1, Q2Qc (6 # 10))] (mkState 1)
       ∧ initial T !! (mkState 0) = Some 1%Qc
       ∧ finals T !! (mkState 1) = Some 1%Qc.
Proof.
  assert (accepting (AnFSA example_fsa_stored) (mkState 0)
            [(mkState 0, [mkSym "a"], mkState 1, Q2Qc (6 # 10))] (mkState 1))
    as Hacc.
  { split; [|split; [|split]].
    - apply elem_of_dom. by eexists.
    - apply elem_of_machine_final_states. exists 1%Qc. split; reflexivity.
    - done.
    - intros e ->%list_elem_of_singleton. by left. }
  split; [exact Hacc|].
  destruct (trim_accepting_paths (AnFSA example_fsa_stored))
    as (T & HT & Hpaths).
  exists T. split; [exact HT|].
  destruct (Hpaths (mkState 0)
              [(mkState 0, [mkSym "a"], mkState 1, Q2Qc (6 # 10))] (mkState 1))
    as [Hiff Hweights].
  split; [exact (proj2 Hiff Hacc)|]. exact (Hweights Hacc).
Defined.

(** On the example of the specification, state 1 is kept and the dead end,
    state 2 with its final weight 0, is not. *)
Lemma trim_states_on_accepting_paths_witness :
  ∃ T, Transformer.trim (AnFSA example_fsa_stored) = Ok T
     ∧ mkState 1 ∈ states T ∧ mkState 2 ∉ states T.
Proof.
  destruct (trim_states_on_accepting_paths (AnFSA example_fsa_stored))
    as (T & HT & Hstates).
  exists T. split; [exact HT|]. split.
  - apply Hstates.
    exists (mkState 0), [(mkState 0, [mkSym "a"], mkState 1, Q2Qc (6 # 10))],
      [], (mkState 1).
    split; [|done]. split; [|split; [|split]].
    + apply elem_of_dom. by eexists.
    + apply elem_of_machine_final_states. exists 1%Qc. split; reflexivity.
    + done.
    + intros e ->%list_elem_of_singleton. by left.
  - intros (q0 & π1 & π2 & qn & (Hq0 & Hqn & Hc & Hπ) & Hc1)%Hstates.
    apply chain_app_inv in Hc as (q1 & Hc1' & Hc2).
    rewrite <-(chain_end _ _ _ _ Hc1 Hc1') in Hc2.
    destruct π2 as [|e π2]; simpl in Hc2.
    + subst qn.
      apply elem_of_machine_final_states in Hqn as (w & Hw & Hpos).
      vm_compute in Hw. injection Hw as <-. discriminate Hpos.
    + destruct Hc2 as [Hsrc _].
      assert (e ∈ all_arcs (AnFSA example_fsa_stored)) as He
        by (apply Hπ, elem_of_app; right; left).
      cbn in He. apply elem_of_cons in He as [->|He]; [discriminate Hsrc|].
      apply list_elem_of_singleton in He as ->. discriminate Hsrc.
Defined.

Lemma trim_empty_witness :
  (∀ q w, finals (AnFSA zero_final_fsa) !! q = Some w → fpos w = false)
  ∧ Transformer.trim (AnFSA zero_final_fsa)
    = Ok (spawn (AnFSA zero_final_fsa)).
Proof.
  assert (∀ q w, finals (AnFSA zero_final_fsa) !! q = Some w
                 → fpos w = false) as Hnone.
  { intros q w. cbn [finals zero_final_fsa FSA.final].
    intros [_ <-]%lookup_singleton_Some. reflexivity. }
  split; [exact Hnone|].
  exact (trim_empty (AnFSA zero_final_fsa) (or_intror Hnone)).
Defined.

Lemma add_trim_arcs_appends_witness :
  is_FST (AnFSA example_fsa) = is_FST (AnFSA empty_fsa)
  ∧ ∃ T', Transformer._add_trim_arcs (AnFSA example_fsa) (AnFSA empty_fsa)
            {[mkState 0; mkState 1]} = Ok T'
        ∧ all_arcs T' = [(mkState 0, [mkSym "a"], mkState 1, Q2Qc (6 # 10))]
        ∧ initial T' = ∅.
Proof.
  split; [reflexivity|].
  destruct (add_trim_arcs_appends (AnFSA example_fsa) (AnFSA empty_fsa)
              {[mkState 0; mkState 1]} eq_refl)
    as (T' & HT' & _ & Harcs & Hinit & _).
  exists T'. split; [exact HT'|]. split; [|exact Hinit].
  rewrite Harcs. vm_compute. reflexivity.
Defined.

(** ** The probability of a sample of [_ancestral] *)
Section StringProbability.
Context {num G : Type} `{ExactFloat num}.
Implicit Types (self : @Sampler.t num G) (q : State).

Add Ring num_semiring_paths : exact_semiring.

Lemma fsum_filter_if {X : Type} (P : X → Prop) `{!∀ x, Decision (P x)}
    (f : X → num) (l : list X) :
  fsum ((λ x, if decide (P x) then f x else fzero) <$> l)
  = fsum (f <$> filter P l).
Proof.
  induction l as [|x l IH]; [done|].
  rewrite fmap_cons, fsum_cons, filter_cons, IH.
  destruct (decide (P x)); [done|]. ring.
Qed.

Lemma options_at_failed self q e :
  Sampler.Zq_at self q = Err e → ∃ e', Sampler.options_at self q = Err e'.
Proof.
  intros HZ. destruct (Sampler.options_at self q) as [options|e'] eqn:Ho;
    [|by eexists].
  destruct (options_at_entries _ _ _ Ho) as (Z & _ & _ & HZ' & _). congruence.
Qed.

(** The probability of a step, where the normaliser of the state is
    computed. *)
Lemma step_weight_failed self q w e :
  Sampler.Zq_at self q = Err e → step_weight self q w = fzero.
Proof. intros HZ. unfold step_weight, step_prob. by rewrite HZ. Qed.

Lemma step_weight_zero_mass self q w Z :
  Sampler.Zq_at self q = Ok Z → fis_zero Z = true →
  step_weight self q w = fzero.
Proof.
  intros HZ Hz. unfold step_weight, step_prob. rewrite HZ. simpl.
  destruct (Sampler._w self w) as [x|]; [|done]. simpl.
  by rewrite pydiv_zero.
Qed.

Lemma step_weight_scaled self q w Z :
  Sampler.Zq_at self q = Ok Z → fis_zero Z = false →
  Sampler._w self w = Ok (Sampler.scaled self w) →
  step_weight self q w = fquot (Sampler.scaled self w) Z.
Proof.
  intros HZ Hz Hw. unfold step_weight, step_prob. rewrite HZ. simpl.
  rewrite Hw. simpl. by rewrite pydiv_nonzero.
Qed.

(** A run of the loop only extends the output it starts from. *)
Lemma expect_loop_off_prefix (k : list pyobj → num) n self (x : pyobj) y :
  (∀ z, k (y ++ z) = fzero) →
  expect k (Sampler._ancestral_loop n self x y) = fzero.
Proof.
  revert x y. induction n as [|n IH]; intros x y Hk.
  { simpl. destruct (py_ne x (PInt 0)); [done|]. simpl.
    by rewrite <-(app_nil_r y). }
  destruct x as [i|a|q].
  - simpl. destruct (py_ne _ _); [done|]. simpl. by rewrite <-(app_nil_r y).
  - done.
  - rewrite expect_ancestral_loop. unfold pl_value.
    destruct (Sampler.options_at self q) as [options|]; [|done].
    apply dsum_zero. intros [a qʼ]. simpl. apply IH.
    destruct (py_ne a (PInt 0)); [|done].
    intros z. by rewrite <-app_assoc.
Qed.

Lemma expect_loop_string n self q (y : list pyobj) (t : list Sym) :
  (∀ q, NoDup ((λ e, (e.1.1, e.1.2)) <$> FSA.arcs (Sampler.A self) q)) →
  length t < n →
  expect (λ y', if bool_decide (y' = y ++ (PSym <$> t)) then fone else fzero)
         (Sampler._ancestral_loop n self (PState q) y)
  = path_weight self q t.
Proof.
  intros Hnd. revert q y t. induction n as [|n IH]; intros q y t Hlen; [lia|].
  rewrite expect_ancestral_loop. unfold pl_value.
  destruct (Sampler.Zq_at self q) as [Z|e] eqn:HZ.
  2:{ destruct (options_at_failed _ _ _ HZ) as [e' ->].
      destruct t as [|a t]; simpl.
      - by rewrite (step_weight_failed _ _ _ _ HZ).
      - symmetry. apply fsum_zero. intros e0 _.
        rewrite (step_weight_failed _ _ _ _ HZ). ring. }
  destruct (fis_zero Z) eqn:Hz.
  { rewrite (zero_mass_options _ _ _ HZ Hz).
    destruct t as [|a t]; simpl.
    - by rewrite (step_weight_zero_mass _ _ _ _ HZ Hz).
    - symmetry. apply fsum_zero. intros e0 _.
      rewrite (step_weight_zero_mass _ _ _ _ HZ Hz). ring. }
  destruct (Zq_at_scaled _ _ _ HZ) as (Hall & Hρ & _).
  rewrite (options_closed _ _ _ HZ Hz (Hnd q)).
  unfold options_of. rewrite dsum_app, dsum_singleton.
  rewrite (dsum_fmap (λ e, (PSym e.1.1, PState e.1.2))).
  cbn [fst snd]. rewrite ancestral_loop_stop. cbn [expect].
  destruct t as [|a t].
  - rewrite fsum_zero.
    2:{ intros e0 _. unfold py_ne. rewrite bool_decide_eq_true_2 by done.
        rewrite expect_loop_off_prefix; [ring|].
        intros z. rewrite bool_decide_eq_false_2; [done|].
        rewrite fmap_nil, app_nil_r, <-app_assoc.
        intros Heq. by apply (f_equal length) in Heq;
          rewrite !length_app in Heq; simpl in Heq; lia. }
    simpl. rewrite app_nil_r, bool_decide_eq_true_2 by done.
    rewrite (step_weight_scaled _ _ _ _ HZ Hz Hρ). ring.
  - rewrite (bool_decide_eq_false_2 (y = _)).
    2:{ intros Heq. apply (f_equal length) in Heq.
        rewrite length_app in Heq. simpl in Heq. lia. }
    cbn [path_weight]. rewrite <-fsum_filter_if.
    transitivity (fsum ((λ e, if decide (e.1.1 = a)
                             then fmul (step_weight self q e.2)
                                       (path_weight self e.1.2 t)
                             else fzero)
                          <$> FSA.arcs (Sampler.A self) q)); [|done].
    replace (fmul (fquot (Sampler.scaled self (Sampler.ρ self q)) Z) fzero)
      with (fzero : num) by ring.
    rewrite (fsum_ext _ (λ e, if decide (e.1.1 = a)
                              then fmul (step_weight self q e.2)
                                        (path_weight self e.1.2 t)
                              else fzero)); [ring|].
    intros [[b qʼ] w] Hin. cbn [fst snd].
    unfold py_ne. rewrite bool_decide_eq_true_2 by done.
    destruct (decide (b = a)) as [->|Hne].
    + rewrite (step_weight_scaled _ _ _ _ HZ Hz (Hall _ _ _ Hin)). f_equal.
      rewrite <-(IH qʼ (y ++ [PSym a]) t) by (simpl in Hlen; lia).
      apply expect_ext. intros y'. simpl. by rewrite <-app_assoc.
    + rewrite expect_loop_off_prefix; [ring|].
      intros z. rewrite bool_decide_eq_false_2; [done|].
      rewrite <-app_assoc. intros Heq%app_inv_head. simpl in Heq.
      injection Heq as Heq _. congruence.
Qed.

(** X17.  In exact arithmetic, on an automaton whose arcs differ, at every state,
    in symbol or destination, [_ancestral] returns the symbol sequence [t]
    with the probability that the automaton gives it locally normalised:
    the sum, over the initial states, of the initial probability times the
    weight of the paths that spell [t] from there and stop, each the product
    of the probabilities [self._w(w) / Z] of its arcs and of stopping at its
    end.  A budget of more iterations than [t] has symbols is enough. *)
Theorem ancestral_string_probability self (fuel : nat) (t : list Sym) :
  (∀ q, NoDup ((λ e, (e.1.1, e.1.2)) <$> FSA.arcs (Sampler.A self) q)) →
  length t < fuel →
  weight (λ out, bool_decide (out = Symbols (PSym <$> t)))
         (Sampler._ancestral self false fuel)
  = match Sampler.initial_dist self with
    | Ok d => dsum d (λ q0, path_weight self q0 t)
    | Err _ => fzero
    end.
Proof.
  intros Hnd Hlen. unfold weight, Sampler._ancestral.
  rewrite expect_lift_bind.
  destruct (Sampler.initial_dist self) as [d|e]; [|done].
  rewrite expect_bind, expect_draw. apply dsum_ext. intros q0 v _.
  rewrite expect_bind.
  rewrite <-(expect_loop_string fuel self q0 [] t Hnd Hlen).
  apply expect_ext. intros y. simpl.
  apply (f_equal (λ b : bool, if b then fone else fzero)).
  apply bool_decide_ext. split; [by intros [= ->]|by intros ->].
Qed.
End StringProbability.

Lemma ancestral_string_probability_witness :
  (∀ q, NoDup ((λ e, (e.1.1, e.1.2)) <$> FSA.arcs loop_fsa q))
  ∧ length [mkSym "a"] < 2
  ∧ weight (λ out, bool_decide (out = Symbols (PSym <$> [mkSym "a"])))
           (Sampler._ancestral (loop_sampler 0) false 2)
    = match Sampler.initial_dist (loop_sampler 0) with
      | Ok d => dsum d (λ q0, path_weight (loop_sampler 0) q0 [mkSym "a"])
      | Err _ => fzero
      end.
Proof.
  pose proof (wf_arc_keys _ (loop_sampler_well_formed 0)) as Hnd.
  assert (length [mkSym "a"] < 2) as Hlen by (simpl; lia).
  split; [exact Hnd|]. split; [exact Hlen|].
  exact (ancestral_string_probability (loop_sampler 0) 2 [mkSym "a"] Hnd Hlen).
Defined.

(** On the one-state loop, the string of one symbol has the probability
    1/4: the only path takes the arc, of probability 1/2, and stops, with
    probability 1/2. *)
Lemma path_weight_example :
  path_weight (loop_sampler 0) (mkState 0) [mkSym "a"] = Q2Qc (1 # 4).
Proof. apply (bool_decide_unpack _). vm_compute. exact I. Qed.
